(** * Mars robot simulation: execution state machine, pathfinder, planner

    A shallow embedding of [backend/src/models/Robot.js],
    [backend/src/services/SimulationService.js] and the pathfinding
    service, with the properties of the design document stated and
    settled against them.

    Conventions of the embedding.
    - The battery and the grid coordinates are JavaScript numbers that
      only ever take integer values here; they are modelled in [Z].
    - Terrain cells are strings; the terrain is a list of rows.
    - Commands and orientations are enumerations.  The robot and the
      pathfinder only ever see the six command letters and the four
      orientation names ([validateInput] rejects anything else), so the
      [default: throw] branches of the source have no counterpart; the
      strings of a request are parsed in [SimulationService].
    - [this.executeCommand] is recursive through [applyBackoffStrategy];
      the recursion depth is made explicit by a [fuel] argument, and the
      result [None] stands for an exhausted call stack.  The totality
      theorem [executeCommand_total] shows that a depth of [callDepth] is
      never exceeded.
    - The [while] loop of [findPath] takes a [fuel] argument as well, the
      number of turns it may take.

    The models of the three source files come first; the facts about
    them and the properties follow. *)

From stdpp Require Import gmap strings list fin_maps sorting.
From Stdlib Require Import ZArith Lia.

Open Scope Z_scope.

(** ** Data model *)

Inductive Orientation := North | East | South | West.

Inductive Command := F | B | L | R | S | E.

Global Instance Orientation_eq_dec : EqDecision Orientation.
Proof. solve_decision. Defined.

Global Instance Command_eq_dec : EqDecision Command.
Proof. solve_decision. Defined.

(** A terrain is what the callers pass: an array of rows of cell names. *)
Definition Terrain : Type := list (list string).

(** [{ x, y, facing }] *)
Record Position := mkPosition { px : Z; py : Z; facing : Orientation }.

(** [{ X, Y }], the entries of [VisitedCells]. *)
Record Cell := mkCell { cX : Z; cY : Z }.

Global Instance Cell_eq_dec : EqDecision Cell.
Proof. solve_decision. Defined.

Global Instance Position_eq_dec : EqDecision Position.
Proof. solve_decision. Defined.

(** [terrain[y][x]], [None] when the index falls outside (JavaScript's
    [undefined]). *)
Definition cellAt (t : Terrain) (x y : Z) : option string :=
  if (x <? 0) || (y <? 0) then None
  else match t !! Z.to_nat y with
       | Some row => row !! Z.to_nat x
       | None => None
       end.

(** [terrain[0].length]; only read once [terrain.length > 0] is known. *)
Definition cols (t : Terrain) : Z :=
  match t with
  | row :: _ => Z.of_nat (length row)
  | [] => 0
  end.

Definition rows (t : Terrain) : Z := Z.of_nat (length t).

Definition outOfBounds (t : Terrain) (x y : Z) : bool :=
  (y <? 0) || (rows t <=? y) || (x <? 0) || (cols t <=? x).

Module Robot.

(** The mutable fields of a [Robot] instance.  [backoffStrategies] is a
    constant of the constructor and is a definition below. *)
Record t := mk {
  terrain : Terrain;
  battery : Z;
  position : Position;
  visitedCells : list Cell;
  samplesCollected : list string;
  currentBackoffStrategy : nat
}.

Definition backoffStrategies : list (list Command) :=
  [ [E; R; F];
    [E; L; F];
    [E; L; L; F];
    [E; B; R; F];
    [E; B; B; L; F];
    [E; F; F];
    [E; F; L; F; L; F] ].

(** [constructor(terrain, battery, initialPosition)] *)
Definition new (tr : Terrain) (b : Z) (p : Position) : t :=
  {| terrain := tr;
     battery := b;
     position := p;
     visitedCells := [mkCell (px p) (py p)];
     samplesCollected := [];
     currentBackoffStrategy := 0 |}.

Definition getBatteryConsumption (command : Command) : Z :=
  match command with
  | F | B => 3
  | L | R => 2
  | S => 8
  | E => 1
  end.

(** [getNextPosition(command)]: the [{x, y}] one step ahead or behind. *)
Definition getNextPosition (r : t) (command : Command) : Z * Z :=
  let direction := if decide (command = F) then 1 else -1 in
  let p := position r in
  match facing p with
  | North => (px p, py p - direction)
  | South => (px p, py p + direction)
  | East => (px p + direction, py p)
  | West => (px p - direction, py p)
  end.

Definition isObstacle (r : t) (x y : Z) : bool :=
  if outOfBounds (terrain r) x y then true
  else bool_decide (cellAt (terrain r) x y = Some "Obs"%string).

(** [null] and [undefined] are both [None]. *)
Definition getTerrainType (r : t) (x y : Z) : option string :=
  if outOfBounds (terrain r) x y then None
  else cellAt (terrain r) x y.

(** [visitedCells.some(...)] then [push]. *)
Definition addVisitedCell (cells : list Cell) (x y : Z) : list Cell :=
  if existsb (fun c => bool_decide (cX c = x) && bool_decide (cY c = y)) cells
  then cells
  else cells ++ [mkCell x y].

Definition turnLeftFacing (o : Orientation) : Orientation :=
  match o with
  | North => West
  | West => South
  | South => East
  | East => North
  end.

Definition turnRightFacing (o : Orientation) : Orientation :=
  match o with
  | North => East
  | East => South
  | South => West
  | West => North
  end.

Definition turnLeft (r : t) : bool * t :=
  (true,
   {| terrain := terrain r;
      battery := battery r - 2;
      position := mkPosition (px (position r)) (py (position r))
                             (turnLeftFacing (facing (position r)));
      visitedCells := visitedCells r;
      samplesCollected := samplesCollected r;
      currentBackoffStrategy := currentBackoffStrategy r |}).

Definition turnRight (r : t) : bool * t :=
  (true,
   {| terrain := terrain r;
      battery := battery r - 2;
      position := mkPosition (px (position r)) (py (position r))
                             (turnRightFacing (facing (position r)));
      visitedCells := visitedCells r;
      samplesCollected := samplesCollected r;
      currentBackoffStrategy := currentBackoffStrategy r |}).

(** [terrainType && terrainType !== "Obs"]: the empty string is falsy. *)
Definition sampleable (ty : option string) : bool :=
  match ty with
  | Some s => negb (bool_decide (s = EmptyString)) && negb (bool_decide (s = "Obs"%string))
  | None => false
  end.

Definition takeSample (r : t) : bool * t :=
  let terrainType := getTerrainType r (px (position r)) (py (position r)) in
  (true,
   {| terrain := terrain r;
      battery := battery r - 8;
      position := position r;
      visitedCells := visitedCells r;
      samplesCollected :=
        (if sampleable terrainType
         then samplesCollected r ++ [default EmptyString terrainType]
         else samplesCollected r);
      currentBackoffStrategy := currentBackoffStrategy r |}).

Definition extendSolarPanels (r : t) : bool * t :=
  (true,
   {| terrain := terrain r;
      battery := battery r - 1 + 10;
      position := position r;
      visitedCells := visitedCells r;
      samplesCollected := samplesCollected r;
      currentBackoffStrategy := currentBackoffStrategy r |}).

(** The part of [moveForward]/[moveBackward] after the obstacle test. *)
Definition moveTo (r : t) (next : Z * Z) : bool * t :=
  (true,
   {| terrain := terrain r;
      battery := battery r - 3;
      position := mkPosition (fst next) (snd next) (facing (position r));
      visitedCells := addVisitedCell (visitedCells r) (fst next) (snd next);
      samplesCollected := samplesCollected r;
      currentBackoffStrategy := 0%nat |}).

(** [this.currentBackoffStrategy++] *)
Definition nextStrategy (r : t) : t :=
  {| terrain := terrain r;
     battery := battery r;
     position := position r;
     visitedCells := visitedCells r;
     samplesCollected := samplesCollected r;
     currentBackoffStrategy := Datatypes.S (currentBackoffStrategy r) |}.

Section OpenRecursion.
(** [this.executeCommand], as seen from the methods it dispatches to. *)
Variable exec : Command -> t -> option (bool * t).

(** The [for (const command of strategy)] loop of
    [applyBackoffStrategy]. *)
Fixpoint runStrategy (strategy : list Command) (r : t) : option (bool * t) :=
  match strategy with
  | [] => Some (true, r)
  | command :: rest =>
      match exec command r with
      | None => None
      | Some (false, r') => Some (false, r')
      | Some (true, r') => runStrategy rest r'
      end
  end.

Definition applyBackoffStrategy (r : t) : option (bool * t) :=
  if decide (length backoffStrategies <= currentBackoffStrategy r)%nat
  then Some (false, r)
  else
    let strategy := nth (currentBackoffStrategy r) backoffStrategies [] in
    runStrategy strategy (nextStrategy r).

Definition moveForward (r : t) : option (bool * t) :=
  let nextPosition := getNextPosition r F in
  if isObstacle r (fst nextPosition) (snd nextPosition)
  then applyBackoffStrategy r
  else Some (moveTo r nextPosition).

Definition moveBackward (r : t) : option (bool * t) :=
  let nextPosition := getNextPosition r B in
  if isObstacle r (fst nextPosition) (snd nextPosition)
  then applyBackoffStrategy r
  else Some (moveTo r nextPosition).

(** The [switch] of [executeCommand]. *)
Definition dispatch (command : Command) (r : t) : option (bool * t) :=
  match command with
  | F => moveForward r
  | B => moveBackward r
  | L => Some (turnLeft r)
  | R => Some (turnRight r)
  | S => Some (takeSample r)
  | E => Some (extendSolarPanels r)
  end.
End OpenRecursion.

Fixpoint executeCommand (fuel : nat) (command : Command) (r : t)
  : option (bool * t) :=
  match fuel with
  | O => None
  | Datatypes.S fuel' =>
      let batteryNeeded := getBatteryConsumption command in
      if battery r <? batteryNeeded then
        if 1 <=? battery r then executeCommand fuel' E r
        else Some (false, r)
      else dispatch (executeCommand fuel') command r
  end.

(** [{ VisitedCells, SamplesCollected, Battery, FinalPosition }] *)
Record Result := mkResult {
  VisitedCells : list Cell;
  SamplesCollected : list string;
  Battery : Z;
  FinalLocation : Cell;
  Facing : Orientation
}.

Definition getResult (r : t) : Result :=
  {| VisitedCells := visitedCells r;
     SamplesCollected := samplesCollected r;
     Battery := battery r;
     FinalLocation := mkCell (px (position r)) (py (position r));
     Facing := facing (position r) |}.

(** The [for ... break] loop of [executeCommands]. *)
Fixpoint runCommands (fuel : nat) (commands : list Command) (r : t) : option t :=
  match commands with
  | [] => Some r
  | command :: rest =>
      match executeCommand fuel command r with
      | None => None
      | Some (false, r') => Some r'
      | Some (true, r') => runCommands fuel rest r'
      end
  end.

Definition executeCommands (fuel : nat) (commands : list Command) (r : t)
  : option Result :=
  getResult <$> runCommands fuel commands r.

End Robot.

(** ** SimulationService *)

Module SimulationService.

(** The request body.  A [battery] that is not a JavaScript number is
    [None]; commands and the facing arrive as strings.  The record types
    exclude a missing body, a missing [initialPosition] and non-numeric
    coordinates, which [validateInput] rejects as well. *)
Record Input := mkInput {
  terrain : Terrain;
  battery : option Z;
  commands : list string;
  locationX : Z;
  locationY : Z;
  facingName : string
}.

Definition parseCommand (s : string) : option Command :=
  if decide (s = "F"%string) then Some F
  else if decide (s = "B"%string) then Some B
  else if decide (s = "L"%string) then Some L
  else if decide (s = "R"%string) then Some R
  else if decide (s = "S"%string) then Some S
  else if decide (s = "E"%string) then Some E
  else None.

Definition parseFacing (s : string) : option Orientation :=
  if decide (s = "North"%string) then Some North
  else if decide (s = "South"%string) then Some South
  else if decide (s = "East"%string) then Some East
  else if decide (s = "West"%string) then Some West
  else None.

(** [validateInput]: [Some message] is the [Error] thrown, [None] a
    normal return.  The checks are in the order of the source. *)
Definition validateInput (input : Input) : option string :=
  let tr := terrain input in
  if decide (length tr = 0%nat)
  then Some "Terrain must be a non-empty 2D array"%string
  else
    let rowLength := length (default [] (head tr)) in
    if bool_decide (rowLength = 0%nat)
       || existsb (fun row => negb (bool_decide (length row = rowLength))) tr
    then Some "Terrain must be a valid 2D array with consistent row lengths"%string
    else
      match battery input with
      | None => Some "Battery must be a non-negative number"%string
      | Some b =>
          if b <? 0 then Some "Battery must be a non-negative number"%string
          else if decide (length (commands input) = 0%nat)
          then Some "Commands must be a non-empty array"%string
          else if existsb (fun cmd => negb (bool_decide (is_Some (parseCommand cmd))))
                          (commands input)
          then Some "Commands must be one of: F, B, L, R, S, E"%string
          else if negb (bool_decide (is_Some (parseFacing (facingName input))))
          then Some "Initial position must have a valid facing direction (North, South, East, West)"%string
          else if outOfBounds tr (locationX input) (locationY input)
          then Some "Initial position is out of terrain bounds"%string
          else if bool_decide (cellAt tr (locationX input) (locationY input)
                               = Some "Obs"%string)
          then Some "Initial position cannot be an obstacle"%string
          else None
      end.

(** How a call of [runSimulation] ends. *)
Inductive Outcome :=
| Returned (result : Robot.Result)
| Threw (message : string).

(** [runSimulation]: validate, build the robot, run the commands.  An
    exhausted call stack surfaces as a [RangeError]; a command string
    that [Robot.executeCommand] does not know makes it throw. *)
Definition runSimulation (fuel : nat) (input : Input) : Outcome :=
  match validateInput input with
  | Some message => Threw message
  | None =>
      match battery input, mapM parseCommand (commands input),
            parseFacing (facingName input) with
      | Some b, Some cmds, Some o =>
          let robot := Robot.new (terrain input) b
                         (mkPosition (locationX input) (locationY input) o) in
          match Robot.executeCommands fuel cmds robot with
          | Some result => Returned result
          | None => Threw "RangeError: Maximum call stack size exceeded"%string
          end
      | _, _, _ => Threw "Unknown command"%string
      end
  end.

End SimulationService.

(** ** PathfindingService *)

Definition orientationIndex (o : Orientation) : nat :=
  match o with North => 0 | East => 1 | South => 2 | West => 3 end.

Definition orientationOfIndex (n : nat) : option Orientation :=
  match n with
  | 0%nat => Some North
  | 1%nat => Some East
  | 2%nat => Some South
  | 3%nat => Some West
  | _ => None
  end.

Global Instance Orientation_countable : Countable Orientation.
Proof.
  apply (inj_countable orientationIndex orientationOfIndex).
  intros []; reflexivity.
Defined.

Global Instance Position_countable : Countable Position.
Proof.
  apply (inj_countable' (fun p => (px p, py p, facing p))
                        (fun t => mkPosition t.1.1 t.1.2 t.2)).
  intros []; reflexivity.
Defined.

Module PathfindingService.

(** [this.commandCosts] *)
Definition commandCosts (command : Command) : Z :=
  match command with
  | F | B => 3
  | L | R => 2
  | S => 8
  | E => -9
  end.

(** [{ commands, battery, success }], returned by [findPath] and by
    [generateMissionPlan]. *)
Record Path := mkPath {
  commands : list Command;
  battery : Z;
  success : bool
}.

Definition manhattanDistance (ax ay bx b_y : Z) : Z :=
  Z.abs (ax - bx) + Z.abs (ay - b_y).

Definition heuristic (position : Position) (tx ty : Z) : Z :=
  manhattanDistance (px position) (py position) tx ty.

Definition directions : list Orientation := [North; East; South; West].

Definition getNewFacing (o : Orientation) (command : Command) : Orientation :=
  let currentIndex := orientationIndex o in
  match command with
  | L => nth ((currentIndex + 3) mod 4)%nat directions o
  | R => nth ((currentIndex + 1) mod 4)%nat directions o
  | _ => o
  end.

Definition getNextPosition (position : Position) (command : Command) : Position :=
  let direction := if decide (command = F) then 1 else -1 in
  match facing position with
  | North => mkPosition (px position) (py position - direction) (facing position)
  | South => mkPosition (px position) (py position + direction) (facing position)
  | East => mkPosition (px position + direction) (py position) (facing position)
  | West => mkPosition (px position - direction) (py position) (facing position)
  end.

Definition isObstacle (terrain : Terrain) (x y : Z) : bool :=
  if outOfBounds terrain x y then true
  else bool_decide (cellAt terrain x y = Some "Obs"%string).

Definition getPossibleMoves (terrain : Terrain) (position : Position)
  : list (Position * Command) :=
  let leftFacing := getNewFacing (facing position) L in
  let rightFacing := getNewFacing (facing position) R in
  let forwardPosition := getNextPosition position F in
  let backwardPosition := getNextPosition position B in
  [ (mkPosition (px position) (py position) leftFacing, L);
    (mkPosition (px position) (py position) rightFacing, R) ]
  ++ (if isObstacle terrain (px forwardPosition) (py forwardPosition)
      then [] else [(forwardPosition, F)])
  ++ (if isObstacle terrain (px backwardPosition) (py backwardPosition)
      then [] else [(backwardPosition, B)])
  ++ [ (position, E) ].

(** *** The priority queue

    [elements] is re-sorted on every [enqueue] by the priorities stored
    in [priorities]; [Array.prototype.sort] is stable.  The keys of the
    source are the strings ["x,y,facing"], in one-to-one correspondence
    with the positions they print; the maps and sets below are keyed by
    the position itself. *)
Record PriorityQueue := mkQueue {
  elements : list Position;
  priorities : gmap Position Z
}.

Definition emptyQueue : PriorityQueue := mkQueue [] ∅.

Definition priorityOf (pr : gmap Position Z) (k : Position) : Z :=
  default 0 (pr !! k).

(** One step of a stable insertion sort: [k] goes in front of the first
    element whose priority is not smaller. *)
Fixpoint insertSorted (pr : gmap Position Z) (k : Position) (l : list Position)
  : list Position :=
  match l with
  | [] => [k]
  | k' :: l' =>
      if priorityOf pr k <=? priorityOf pr k' then k :: l
      else k' :: insertSorted pr k l'
  end.

Definition sortByPriority (pr : gmap Position Z) (l : list Position)
  : list Position :=
  foldr (insertSorted pr) [] l.

Definition isEmpty (q : PriorityQueue) : bool :=
  bool_decide (elements q = []).

Definition contains (q : PriorityQueue) (k : Position) : bool :=
  bool_decide (is_Some (priorities q !! k)).

Definition enqueue (q : PriorityQueue) (k : Position) (priority : Z)
  : PriorityQueue :=
  let pr := <[k := priority]> (priorities q) in
  mkQueue (sortByPriority pr (elements q ++ [k])) pr.

(** [dequeue] on a non-empty queue. *)
Definition dequeue (q : PriorityQueue) : option (Position * PriorityQueue) :=
  match elements q with
  | [] => None
  | k :: rest => Some (k, mkQueue rest (delete k (priorities q)))
  end.

(** *** findPath

    The bookkeeping of the search that is read back.  [cameFrom] is only
    written, and [fScore] is only read right after it is set, so neither
    has a field. *)
Record Search := mkSearch {
  openSet : PriorityQueue;
  closedSet : gset Position;
  gScore : gmap Position Z;
  batteryLevels : gmap Position Z;
  commandSequences : gmap Position (list Command)
}.

Definition initialSearch (start : Position) (tx ty : Z) (initialBattery : Z)
  : Search :=
  {| openSet := enqueue emptyQueue start (heuristic start tx ty);
     closedSet := ∅;
     gScore := {[ start := 0 ]};
     batteryLevels := {[ start := initialBattery ]};
     commandSequences := {[ start := [] ]} |}.

(** The body of [for (const move of possibleMoves)]. *)
Definition relax (tx ty : Z) (currentKey : Position) (st : Search)
  (move : Position * Command) : Search :=
  let neighbor := move.1 in
  let command := move.2 in
  if bool_decide (neighbor ∈ closedSet st) then st
  else
    let batteryCost := commandCosts command in
    let currentBattery := default 0 (batteryLevels st !! currentKey) in
    let newBattery := currentBattery + batteryCost in
    if newBattery <=? 0 then st
    else
      let tentativeGScore := default 0 (gScore st !! currentKey) + 1 in
      if match gScore st !! neighbor with
         | None => true
         | Some g => tentativeGScore <? g
         end
      then
        let newCommands :=
          default [] (commandSequences st !! currentKey) ++ [command] in
        {| openSet :=
             (if contains (openSet st) neighbor then openSet st
              else enqueue (openSet st) neighbor
                     (tentativeGScore + heuristic neighbor tx ty));
           closedSet := closedSet st;
           gScore := <[neighbor := tentativeGScore]> (gScore st);
           batteryLevels := <[neighbor := newBattery]> (batteryLevels st);
           commandSequences := <[neighbor := newCommands]> (commandSequences st) |}
      else st.

(** One turn of the [while] loop after the goal test. *)
Definition expand (terrain : Terrain) (tx ty : Z) (currentKey : Position)
  (st : Search) : Search :=
  let closed :=
    {| openSet := openSet st;
       closedSet := {[ currentKey ]} ∪ closedSet st;
       gScore := gScore st;
       batteryLevels := batteryLevels st;
       commandSequences := commandSequences st |} in
  foldl (relax tx ty currentKey) closed (getPossibleMoves terrain currentKey).

(** The [while (!openSet.isEmpty())] loop; [fuel] bounds its turns. *)
Fixpoint search (fuel : nat) (terrain : Terrain) (tx ty : Z)
  (initialBattery : Z) (st : Search) : option Path :=
  match fuel with
  | O => None
  | Datatypes.S fuel' =>
      match dequeue (openSet st) with
      | None => Some (mkPath [] initialBattery false)
      | Some (currentKey, q) =>
          if bool_decide (px currentKey = tx) && bool_decide (py currentKey = ty)
          then Some (mkPath (default [] (commandSequences st !! currentKey))
                            (default 0 (batteryLevels st !! currentKey))
                            true)
          else
            search fuel' terrain tx ty initialBattery
              (expand terrain tx ty currentKey
                 {| openSet := q;
                    closedSet := closedSet st;
                    gScore := gScore st;
                    batteryLevels := batteryLevels st;
                    commandSequences := commandSequences st |})
      end
  end.

Definition findPath (fuel : nat) (terrain : Terrain) (start : Position)
  (tx ty : Z) (initialBattery : Z) : option Path :=
  search fuel terrain tx ty initialBattery
         (initialSearch start tx ty initialBattery).

(** *** generateMissionPlan *)

(** The cells in the order of the nested [for (y ...) for (x ...)]
    loops, as [(x, y)]. *)
Definition gridCells (terrain : Terrain) : list (Z * Z) :=
  y ← seqZ 0 (rows terrain); x ← seqZ 0 (cols terrain); [(x, y)].

(** [Set.prototype.add]: iteration follows first insertion. *)
Definition setAdd (ty : option string) (types : list (option string))
  : list (option string) :=
  if bool_decide (ty ∈ types) then types else types ++ [ty].

(** The first loop: the distinct values [terrain[y][x]] other than
    ["Obs"]; [None] is JavaScript's [undefined]. *)
Definition terrainTypes (terrain : Terrain) : list (option string) :=
  foldl (fun types c =>
           let terrainType := cellAt terrain c.1 c.2 in
           if bool_decide (terrainType = Some "Obs"%string) then types
           else setAdd terrainType types)
        [] (gridCells terrain).

Definition findTerrainLocations (terrain : Terrain) (terrainType : option string)
  : list (Z * Z) :=
  filter (fun c => cellAt terrain c.1 c.2 = terrainType) (gridCells terrain).

(** [{ type, locations }] *)
Record Target := mkTarget {
  type : option string;
  locations : list (Z * Z)
}.

Definition collectTargets (terrain : Terrain) : list Target :=
  omap (fun terrainType =>
          let locs := findTerrainLocations terrain terrainType in
          if bool_decide (0 < length locs)%nat
          then Some (mkTarget terrainType locs) else None)
       (terrainTypes terrain).

(** [Math.min(...locations.map(loc => manhattanDistance(start, loc)))];
    a target never has an empty list of locations. *)
Definition nearestDistance (start : Position) (locs : list (Z * Z)) : Z :=
  match (fun loc => manhattanDistance (px start) (py start) loc.1 loc.2) <$> locs with
  | [] => 0
  | d :: ds => foldl Z.min d ds
  end.

Fixpoint insertTarget (start : Position) (a : Target) (l : list Target)
  : list Target :=
  match l with
  | [] => [a]
  | b :: l' =>
      if nearestDistance start (locations a) <=? nearestDistance start (locations b)
      then a :: l
      else b :: insertTarget start a l'
  end.

(** [targets.sort((a, b) => aDistance - bDistance)], stable. *)
Definition sortTargets (start : Position) (targets : list Target) : list Target :=
  foldr (insertTarget start) [] targets.

(** The inner loop over the locations of one type: the first shortest
    successful path and where it leads. *)
Fixpoint bestPathTo (fuel : nat) (terrain : Terrain) (currentPosition : Position)
  (currentBattery : Z) (locs : list (Z * Z)) (best : option ((Z * Z) * Path))
  : option (option ((Z * Z) * Path)) :=
  match locs with
  | [] => Some best
  | location :: rest =>
      match findPath fuel terrain currentPosition location.1 location.2
                     currentBattery with
      | None => None
      | Some path =>
          let better :=
            success path &&
            match best with
            | None => true
            | Some (_, bestPath) =>
                bool_decide (length (commands path) < length (commands bestPath))%nat
            end in
          bestPathTo fuel terrain currentPosition currentBattery rest
                     (if better then Some (location, path) else best)
      end
  end.

(** The loop [for (const target of targets)]. *)
Fixpoint planLoop (fuel : nat) (terrain : Terrain) (targets : list Target)
  (currentPosition : Position) (currentBattery : Z) (allCommands : list Command)
  : option Path :=
  match targets with
  | [] => Some (mkPath allCommands currentBattery true)
  | target :: rest =>
      match bestPathTo fuel terrain currentPosition currentBattery
                       (locations target) None with
      | None => None
      | Some None => Some (mkPath allCommands currentBattery false)
      | Some (Some (bestLocation, bestPath)) =>
          let allCommands := allCommands ++ commands bestPath in
          let currentBattery := battery bestPath in
          let next :=
            mkPosition bestLocation.1 bestLocation.2 (facing currentPosition) in
          if 8 <=? currentBattery then
            planLoop fuel terrain rest next (currentBattery - 8)
                     (allCommands ++ [S])
          else if 1 <=? currentBattery then
            planLoop fuel terrain rest next (currentBattery + 9 - 8)
                     (allCommands ++ [E; S])
          else Some (mkPath allCommands currentBattery false)
      end
  end.

Definition generateMissionPlan (fuel : nat) (terrain : Terrain)
  (start : Position) (initialBattery : Z) : option Path :=
  planLoop fuel terrain (sortTargets start (collectTargets terrain))
           start initialBattery [].

End PathfindingService.

(** ** Basic facts about [executeCommand] *)

Module RobotFacts.
Import Robot.

Arguments executeCommand : simpl never.

Lemma exec_S n c r :
  executeCommand (Datatypes.S n) c r =
  if battery r <? getBatteryConsumption c then
    if 1 <=? battery r then executeCommand n E r else Some (false, r)
  else dispatch (executeCommand n) c r.
Proof. reflexivity. Qed.

Lemma exec_O c r : executeCommand 0 c r = None.
Proof. reflexivity. Qed.

Lemma exec_low_fail n c r :
  battery r < getBatteryConsumption c -> battery r < 1 ->
  executeCommand (Datatypes.S n) c r = Some (false, r).
Proof.
  intros Hlow H1. rewrite exec_S.
  destruct (Z.ltb_spec (battery r) (getBatteryConsumption c)); [|lia].
  destruct (Z.leb_spec 1 (battery r)); [lia|reflexivity].
Qed.

Lemma exec_low_subst n c r :
  battery r < getBatteryConsumption c -> 1 <= battery r ->
  executeCommand (Datatypes.S n) c r = executeCommand n E r.
Proof.
  intros Hlow H1. rewrite exec_S.
  destruct (Z.ltb_spec (battery r) (getBatteryConsumption c)); [|lia].
  destruct (Z.leb_spec 1 (battery r)); [reflexivity|lia].
Qed.

Lemma exec_dispatch n c r :
  getBatteryConsumption c <= battery r ->
  executeCommand (Datatypes.S n) c r = dispatch (executeCommand n) c r.
Proof.
  intros H. rewrite exec_S.
  destruct (Z.ltb_spec (battery r) (getBatteryConsumption c)); [lia|reflexivity].
Qed.

Lemma exec_E n r :
  1 <= battery r ->
  executeCommand (Datatypes.S n) E r = Some (extendSolarPanels r).
Proof. intros H. rewrite exec_dispatch; [reflexivity | simpl; lia]. Qed.

(** Every outcome of [executeCommand] is one of: refused, recharge
    substituted, or dispatched. *)
Lemma exec_cases n c r :
  executeCommand (Datatypes.S n) c r = Some (false, r)
  \/ (battery r < getBatteryConsumption c /\ 1 <= battery r /\
      executeCommand (Datatypes.S n) c r = executeCommand n E r)
  \/ (getBatteryConsumption c <= battery r /\
      executeCommand (Datatypes.S n) c r = dispatch (executeCommand n) c r).
Proof.
  destruct (Z.lt_ge_cases (battery r) (getBatteryConsumption c)) as [Hlow|Hok].
  - destruct (Z.lt_ge_cases (battery r) 1).
    + left. now apply exec_low_fail.
    + right; left. repeat split; try lia. now apply exec_low_subst.
  - right; right. split; [lia|]. now apply exec_dispatch.
Qed.

(** A property of the robot that every command preserves is preserved
    by a whole strategy. *)
Lemma runStrategy_preserves (P : t -> Prop) exec :
  (forall c r ok r', P r -> exec c r = Some (ok, r') -> P r') ->
  forall cmds r ok r',
    P r -> runStrategy exec cmds r = Some (ok, r') -> P r'.
Proof.
  intros Hexec cmds. induction cmds as [|c cmds IH]; intros r ok r' HP Hrun.
  - simpl in Hrun. congruence.
  - simpl in Hrun. destruct (exec c r) as [[[] r1]|] eqn:Hc; try discriminate.
    + eapply IH; [|exact Hrun]. eapply Hexec; eauto.
    + inversion Hrun; subst. eapply Hexec; eauto.
Qed.

Lemma runStrategy_true_preserves (P : t -> Prop) exec :
  (forall c r r', P r -> exec c r = Some (true, r') -> P r') ->
  forall cmds r r',
    P r -> runStrategy exec cmds r = Some (true, r') -> P r'.
Proof.
  intros Hexec cmds. induction cmds as [|c cmds IH]; intros r r' HP Hrun.
  - simpl in Hrun. congruence.
  - simpl in Hrun. destruct (exec c r) as [[[] r1]|] eqn:Hc; try discriminate.
    eapply IH; [|exact Hrun]. eapply Hexec; eauto.
Qed.

(** The same for [executeCommand] itself, for properties that ignore the
    strategy index and that the five state updates preserve. *)
Section Preservation.
Variable P : t -> Prop.
Hypothesis P_next : forall r, P r -> P (nextStrategy r).
Hypothesis P_turnLeft : forall r, 2 <= battery r -> P r -> P (snd (turnLeft r)).
Hypothesis P_turnRight : forall r, 2 <= battery r -> P r -> P (snd (turnRight r)).
Hypothesis P_sample : forall r, 8 <= battery r -> P r -> P (snd (takeSample r)).
Hypothesis P_extend : forall r, 1 <= battery r -> P r -> P (snd (extendSolarPanels r)).
Hypothesis P_move : forall r c, 3 <= battery r -> P r ->
  isObstacle r (fst (getNextPosition r c)) (snd (getNextPosition r c)) = false ->
  P (snd (moveTo r (getNextPosition r c))).

Lemma applyBackoff_preserves exec :
  (forall c r ok r', P r -> exec c r = Some (ok, r') -> P r') ->
  forall r ok r', P r -> applyBackoffStrategy exec r = Some (ok, r') -> P r'.
Proof.
  intros Hexec r ok r' HP H. unfold applyBackoffStrategy in H.
  destruct (decide _).
  - congruence.
  - eapply (runStrategy_preserves P exec Hexec); [|exact H]. auto.
Qed.

Lemma exec_preserves n :
  forall c r ok r', P r -> executeCommand n c r = Some (ok, r') -> P r'.
Proof.
  induction n as [|n IH]; intros c r ok r' HP H; [discriminate|].
  destruct (exec_cases n c r) as [Hf|[(Hlow & H1 & Hs)|(Hok & Hd)]].
  - rewrite Hf in H. congruence.
  - rewrite Hs in H. eauto.
  - rewrite Hd in H. destruct c; simpl in H, Hok.
    + unfold moveForward in H.
      destruct (isObstacle r _ _) eqn:Hobs.
      * eapply applyBackoff_preserves; eauto.
      * inversion H; subst. apply (P_move r F); auto.
    + unfold moveBackward in H.
      destruct (isObstacle r _ _) eqn:Hobs.
      * eapply applyBackoff_preserves; eauto.
      * inversion H; subst. apply (P_move r B); auto.
    + inversion H; subst. now apply P_turnLeft.
    + inversion H; subst. now apply P_turnRight.
    + inversion H; subst. now apply P_sample.
    + inversion H; subst. now apply P_extend.
Qed.
End Preservation.

Lemma exec_battery_nonneg n c r ok r' :
  0 <= battery r -> executeCommand n c r = Some (ok, r') -> 0 <= battery r'.
Proof.
  apply (exec_preserves (fun r => 0 <= battery r)); simpl; intros; lia.
Qed.

Lemma exec_terrain n c r ok r' :
  executeCommand n c r = Some (ok, r') -> terrain r' = terrain r.
Proof.
  intros H.
  refine (exec_preserves (fun r0 => terrain r0 = terrain r)
            _ _ _ _ _ _ n c r ok r' eq_refl H); simpl; auto.
Qed.

(** *** The strategy index *)

Definition isMove (c : Command) : bool :=
  match c with F | B => true | _ => false end.

Definition blocked (r : t) (c : Command) : bool :=
  isObstacle r (fst (getNextPosition r c)) (snd (getNextPosition r c)).

Lemma exec_move_blocked n c r :
  isMove c = true -> 3 <= battery r -> blocked r c = true ->
  executeCommand (Datatypes.S n) c r = applyBackoffStrategy (executeCommand n) r.
Proof.
  intros Hm Hb Hbl. rewrite exec_dispatch by (destruct c; simpl in *; lia).
  destruct c; try discriminate; simpl;
    [unfold moveForward | unfold moveBackward]; unfold blocked in Hbl;
    now rewrite Hbl.
Qed.

Lemma exec_move_free n c r :
  isMove c = true -> 3 <= battery r -> blocked r c = false ->
  executeCommand (Datatypes.S n) c r = Some (moveTo r (getNextPosition r c)).
Proof.
  intros Hm Hb Hbl. rewrite exec_dispatch by (destruct c; simpl in *; lia).
  destruct c; try discriminate; simpl;
    [unfold moveForward | unfold moveBackward]; unfold blocked in Hbl;
    now rewrite Hbl.
Qed.

Lemma exec_nonmove_inv n c r ok r' :
  isMove c = false ->
  executeCommand n c r = Some (ok, r') ->
  currentBackoffStrategy r' = currentBackoffStrategy r
  /\ terrain r' = terrain r
  /\ px (position r') = px (position r) /\ py (position r') = py (position r)
  /\ (ok = true -> battery r - getBatteryConsumption c <= battery r').
Proof.
  intros Hm H. destruct n as [|n]; [discriminate|].
  destruct (exec_cases n c r) as [Hf|[(Hlow & H1 & Hs)|(Hok & Hd)]].
  - rewrite Hf in H. inversion H; subst. repeat split; auto. discriminate.
  - rewrite Hs in H. destruct n as [|n]; [discriminate|].
    rewrite exec_E in H by lia. inversion H; subst. simpl.
    repeat split; auto. intros _. destruct c; simpl; lia.
  - rewrite Hd in H. destruct c; try discriminate; simpl in H;
      inversion H; subst; simpl; repeat split; auto; intros _; lia.
Qed.

Lemma exec_E_inv n r r' :
  executeCommand n E r = Some (true, r') ->
  1 <= battery r /\ r' = snd (extendSolarPanels r).
Proof.
  intros H. destruct n as [|n]; [discriminate|].
  destruct (Z.lt_ge_cases (battery r) 1) as [Hlt|Hge].
  - rewrite exec_low_fail in H by (simpl; lia). discriminate.
  - rewrite exec_E in H by lia. inversion H. split; [lia|reflexivity].
Qed.

Lemma runStrategy_cons exec c (cmds : list Command) r r' :
  runStrategy exec (c :: cmds) r = Some (true, r') ->
  exists r1, exec c r = Some (true, r1)
             /\ runStrategy exec cmds r1 = Some (true, r').
Proof.
  simpl. destruct (exec c r) as [[[] r1]|]; try discriminate. eauto.
Qed.

Lemma runStrategy_app exec (a b : list Command) r r' :
  runStrategy exec (a ++ b) r = Some (true, r') ->
  exists r1, runStrategy exec a r = Some (true, r1)
             /\ runStrategy exec b r1 = Some (true, r').
Proof.
  revert r. induction a as [|c a IH]; intros r H; simpl in *.
  - eauto.
  - destruct (exec c r) as [[[] r1]|]; try discriminate. now apply IH.
Qed.

Definition isTurn (c : Command) : bool :=
  match c with L | R => true | _ => false end.

(** Turns leave the index alone and cost at most two units each. *)
Lemma run_turns n (turns : list Command) r r' :
  forallb isTurn turns = true ->
  runStrategy (executeCommand n) turns r = Some (true, r') ->
  currentBackoffStrategy r' = currentBackoffStrategy r
  /\ battery r - 2 * Z.of_nat (length turns) <= battery r'.
Proof.
  revert r. induction turns as [|c turns IH]; intros r Ht H; simpl in *.
  - inversion H; subst. split; [reflexivity|lia].
  - apply andb_prop in Ht as [Hc Ht].
    destruct (executeCommand n c r) as [[[] r1]|] eqn:Hx; try discriminate.
    apply exec_nonmove_inv in Hx as (Hi & _ & _ & _ & Hb);
      [|destruct c; try discriminate; reflexivity].
    specialize (Hb eq_refl).
    destruct (IH r1 Ht H) as [Hi' Hb'].
    split; [congruence|].
    assert (getBatteryConsumption c = 2) as Hc2 by (destruct c; try discriminate; reflexivity).
    lia.
Qed.

(** Each of the seven strategies is a recharge, at most two turns, a
    move, and whatever follows. *)
Lemma strategy_shape (i : nat) :
  (i < length backoffStrategies)%nat ->
  exists turns m rest,
    nth i backoffStrategies [] = E :: turns ++ m :: rest
    /\ forallb isTurn turns = true /\ (length turns <= 2)%nat
    /\ isMove m = true.
Proof.
  intros Hi. simpl in Hi.
  destruct i as [|[|[|[|[|[|[|i]]]]]]]; try lia; simpl.
  - exists [R], F, []; repeat split; simpl; auto; lia.
  - exists [L], F, []; repeat split; simpl; auto; lia.
  - exists [L; L], F, []; repeat split; simpl; auto; lia.
  - exists [], B, [R; F]; repeat split; simpl; auto; lia.
  - exists [], B, [B; L; F]; repeat split; simpl; auto; lia.
  - exists [], F, [F]; repeat split; simpl; auto; lia.
  - exists [], F, [L; F; L; F]; repeat split; simpl; auto; lia.
Qed.

(** A command that returns [true] leaves the index where it was or at
    zero; a dispatched move that returns [true] leaves it at zero, and
    so does a backoff attempt that returns [true]. *)
Lemma exec_index n :
  (forall c r r',
      executeCommand n c r = Some (true, r') ->
      (currentBackoffStrategy r' = currentBackoffStrategy r
       \/ currentBackoffStrategy r' = 0%nat)
      /\ (isMove c = true -> 3 <= battery r ->
          currentBackoffStrategy r' = 0%nat))
  /\ (forall r r',
      applyBackoffStrategy (executeCommand n) r = Some (true, r') ->
      currentBackoffStrategy r' = 0%nat).
Proof.
  induction n as [|n [IHe IHb]].
  - split; [discriminate|].
    intros r r' H. unfold applyBackoffStrategy in H.
    destruct (decide _); [discriminate|].
    assert (currentBackoffStrategy r < length backoffStrategies)%nat as Hlt by lia.
    destruct (strategy_shape _ Hlt) as (tu & m & rest & Heq & _).
    rewrite Heq in H. discriminate.
  - assert (forall c r r',
      executeCommand (Datatypes.S n) c r = Some (true, r') ->
      (currentBackoffStrategy r' = currentBackoffStrategy r
       \/ currentBackoffStrategy r' = 0%nat)
      /\ (isMove c = true -> 3 <= battery r ->
          currentBackoffStrategy r' = 0%nat)) as He.
    { intros c r r' H.
      destruct (isMove c) eqn:Hm.
      - destruct (exec_cases n c r) as [Hf|[(Hlow & H1 & Hs)|(Hok & Hd)]].
        + rewrite Hf in H. discriminate.
        + rewrite Hs in H. apply exec_nonmove_inv in H as (Hi & _); [|reflexivity].
          split; [now left|]. intros _ H3. destruct c; simpl in *; try discriminate; lia.
        + assert (3 <= battery r) as H3 by (destruct c; simpl in *; try discriminate; lia).
          destruct (blocked r c) eqn:Hbl.
          * rewrite exec_move_blocked in H by assumption.
            apply IHb in H. auto.
          * rewrite exec_move_free in H by assumption.
            inversion H; subst; simpl. auto.
      - apply exec_nonmove_inv in H as (Hi & _); [|assumption].
        split; [now left|discriminate]. }
    split; [exact He|].
    intros r r' H. unfold applyBackoffStrategy in H.
    destruct (decide _) as [|Hlt]; [discriminate|].
    assert (currentBackoffStrategy r < length backoffStrategies)%nat as Hlt' by lia.
    destruct (strategy_shape _ Hlt') as (tu & m & rest & Heq & Htu & Hlen & Hm).
    rewrite Heq in H. clear Heq.
    apply runStrategy_cons in H as (r1 & HE & H).
    apply runStrategy_app in H as (r2 & HT & H).
    apply runStrategy_cons in H as (r3 & HM' & H).
    apply exec_E_inv in HE as [Hb1 ->]. simpl in Hb1.
    apply run_turns in HT as [_ Hb2]; [|assumption]. simpl in Hb2.
    apply He in HM' as [_ HM']. specialize (HM' Hm).
    assert (currentBackoffStrategy r3 = 0%nat) as H0 by (apply HM'; lia).
    revert H0 H.
    apply (runStrategy_true_preserves (fun r => currentBackoffStrategy r = 0%nat)).
    intros c r0 r0' H0 Hx.
    apply He in Hx as [[Hx|Hx] _]; congruence.
Qed.

Lemma backoff_true_resets n r r' :
  applyBackoffStrategy (executeCommand n) r = Some (true, r') ->
  currentBackoffStrategy r' = 0%nat.
Proof. apply exec_index. Qed.

Lemma exec_true_index n c r r' :
  executeCommand n c r = Some (true, r') ->
  currentBackoffStrategy r' = currentBackoffStrategy r
  \/ currentBackoffStrategy r' = 0%nat.
Proof. intros H. now apply exec_index in H. Qed.

(** *** Fuel: more is never worse *)

Lemma runStrategy_mono (exec1 exec2 : Command -> t -> option (bool * t)) :
  (forall c r v, exec1 c r = Some v -> exec2 c r = Some v) ->
  forall cmds r v, runStrategy exec1 cmds r = Some v ->
                   runStrategy exec2 cmds r = Some v.
Proof.
  intros Hle cmds. induction cmds as [|c cmds IH]; intros r v H; simpl in *.
  - assumption.
  - destruct (exec1 c r) as [[ok r1]|] eqn:Hc; [|discriminate].
    rewrite (Hle _ _ _ Hc). destruct ok; auto.
Qed.

Lemma dispatch_mono (exec1 exec2 : Command -> t -> option (bool * t)) :
  (forall c r v, exec1 c r = Some v -> exec2 c r = Some v) ->
  forall c r v, dispatch exec1 c r = Some v -> dispatch exec2 c r = Some v.
Proof.
  intros Hle c r v H.
  destruct c; simpl in *; try assumption;
    [unfold moveForward in * | unfold moveBackward in *];
    (destruct (isObstacle r _ _); [|assumption]);
    unfold applyBackoffStrategy in *;
    (destruct (decide _); [assumption|]);
    eapply runStrategy_mono; eauto.
Qed.

Lemma exec_mono n : forall m c r v,
  (n <= m)%nat -> executeCommand n c r = Some v -> executeCommand m c r = Some v.
Proof.
  induction n as [|n IH]; intros m c r v Hle H; [discriminate|].
  destruct m as [|m]; [lia|].
  rewrite exec_S in *.
  destruct (battery r <? getBatteryConsumption c).
  - destruct (1 <=? battery r); [|assumption]. apply IH; [lia|assumption].
  - eapply dispatch_mono; [|exact H]. intros; apply IH; [lia|assumption].
Qed.

(** *** Every call returns

    The recursion of [executeCommand] through [applyBackoffStrategy] is
    bounded because the terrain does not change: an attempt that starts
    from index 0 tries the right-hand side, then ahead, then behind; once
    the fourth strategy is reached the cells ahead and behind are both
    known to be closed, and the remaining strategies all open with a
    move into one of them. *)

Definition stuck (r : t) : Prop := blocked r F = true /\ blocked r B = true.

Lemma blocked_same r r' c :
  terrain r' = terrain r -> position r' = position r ->
  blocked r' c = blocked r c.
Proof.
  intros Ht Hp. unfold blocked, isObstacle, getNextPosition.
  now rewrite Ht, Hp.
Qed.

Lemma blocked_reverse r r' :
  terrain r' = terrain r ->
  px (position r') = px (position r) -> py (position r') = py (position r) ->
  facing (position r') = turnLeftFacing (turnLeftFacing (facing (position r))) ->
  blocked r' B = blocked r F.
Proof.
  intros Ht Hx Hy Hf. unfold blocked, isObstacle, getNextPosition.
  rewrite Ht, Hx, Hy, Hf.
  destruct (facing (position r)); simpl;
    repeat match goal with
    | |- context [?a - -1] => replace (a - -1) with (a + 1) by lia
    | |- context [?a + -1] => replace (a + -1) with (a - 1) by lia
    end; reflexivity.
Qed.

Lemma strategy_shape_late (i : nat) :
  (3 <= i)%nat -> (i < length backoffStrategies)%nat ->
  exists m rest, nth i backoffStrategies [] = E :: m :: rest /\ isMove m = true.
Proof.
  intros H3 Hi. simpl in Hi.
  destruct i as [|[|[|[|[|[|[|i]]]]]]]; try lia; simpl; eauto.
Qed.

Lemma backoff_exhausted exec r :
  (length backoffStrategies <= currentBackoffStrategy r)%nat ->
  applyBackoffStrategy exec r = Some (false, r).
Proof.
  intros H. unfold applyBackoffStrategy. destruct (decide _); [reflexivity|lia].
Qed.

Lemma backoff_unfold exec r :
  (currentBackoffStrategy r < length backoffStrategies)%nat ->
  applyBackoffStrategy exec r =
  runStrategy exec (nth (currentBackoffStrategy r) backoffStrategies [])
              (nextStrategy r).
Proof.
  intros H. unfold applyBackoffStrategy. destruct (decide _); [lia|reflexivity].
Qed.

(** With the cells ahead and behind closed and the index at 3 or more,
    a move fails after at most [7 - index] further attempts. *)
Lemma stuck_fails k : forall r c,
  stuck r -> isMove c = true -> 3 <= battery r ->
  (3 <= currentBackoffStrategy r)%nat ->
  (7 <= currentBackoffStrategy r + k)%nat ->
  exists r', executeCommand (Datatypes.S k) c r = Some (false, r').
Proof.
  induction k as [|k IH]; intros r c Hst Hm Hb H3 H7.
  - rewrite exec_move_blocked; auto.
    + rewrite backoff_exhausted by (simpl; lia). eauto.
    + destruct Hst; destruct c; try discriminate; assumption.
  - rewrite exec_move_blocked; auto;
      [|destruct Hst; destruct c; try discriminate; assumption].
    destruct (decide (7 <= currentBackoffStrategy r)%nat) as [Hge|Hlt].
    { rewrite backoff_exhausted by (simpl; lia). eauto. }
    rewrite backoff_unfold by (simpl; lia).
    destruct (strategy_shape_late (currentBackoffStrategy r)) as (m & rest & -> & Hmm);
      [lia|simpl; lia|].
    simpl. rewrite exec_E by (simpl; lia). simpl.
    destruct (IH (snd (extendSolarPanels (nextStrategy r))) m) as [r' Hr']; simpl.
    + destruct Hst as [HF HB]. split.
      * rewrite <- HF. now apply blocked_same.
      * rewrite <- HB. now apply blocked_same.
    + assumption.
    + lia.
    + lia.
    + lia.
    + simpl in Hr'. rewrite Hr'. eauto.
Qed.

Lemma stuck_fails_at n k r c :
  stuck r -> isMove c = true -> 3 <= battery r ->
  (3 <= currentBackoffStrategy r)%nat ->
  (7 <= currentBackoffStrategy r + k)%nat -> (k < n)%nat ->
  exists r', executeCommand n c r = Some (false, r').
Proof.
  intros Hst Hm Hb H3 H7 Hn.
  destruct (stuck_fails k r c) as [r' Hr']; auto.
  exists r'. eapply exec_mono; [|exact Hr']. lia.
Qed.

Ltac step_low_level :=
  first [ rewrite exec_E by (simpl; lia)
        | rewrite exec_dispatch by (simpl; lia) ];
  simpl.

(** The third strategy [E; L; L; F], entered because the cell ahead is
    closed. *)
Lemma escape2 n r :
  (6 <= n)%nat ->
  currentBackoffStrategy r = 2%nat -> 3 <= battery r -> blocked r F = true ->
  is_Some (applyBackoffStrategy (executeCommand n) r).
Proof.
  intros Hn Hi Hb HF. destruct n as [|n]; [lia|].
  rewrite backoff_unfold by (rewrite Hi; simpl; lia).
  rewrite Hi. simpl. do 3 step_low_level.
  match goal with |- context [executeCommand _ F ?x] => set (r4 := x) end.
  destruct (blocked r4 F) eqn:HF4.
  - destruct (stuck_fails_at (Datatypes.S n) 4 r4 F) as [r' Hr'];
      subst r4; simpl; auto; try lia.
    + split; [assumption|]. rewrite <- HF. now apply blocked_reverse.
    + simpl in Hr'. rewrite Hr'. eauto.
  - rewrite exec_move_free; subst r4; simpl; eauto; lia.
Qed.

(** The second strategy [E; L; F]. *)
Lemma escape1 n r :
  (7 <= n)%nat ->
  currentBackoffStrategy r = 1%nat -> 3 <= battery r ->
  is_Some (applyBackoffStrategy (executeCommand n) r).
Proof.
  intros Hn Hi Hb. destruct n as [|n]; [lia|].
  rewrite backoff_unfold by (rewrite Hi; simpl; lia).
  rewrite Hi. simpl. do 2 step_low_level.
  match goal with |- context [executeCommand _ F ?x] => set (r3 := x) end.
  destruct (blocked r3 F) eqn:HF3.
  - rewrite exec_move_blocked; auto; [|subst r3; simpl; lia].
    assert (is_Some (applyBackoffStrategy (executeCommand n) r3)) as [[ok r'] Hr'].
    { apply escape2; auto; subst r3; simpl; lia. }
    rewrite Hr'. destruct ok; eauto.
  - rewrite exec_move_free; subst r3; simpl; eauto; lia.
Qed.

(** The first strategy [E; R; F]. *)
Lemma escape0 n r :
  (8 <= n)%nat ->
  currentBackoffStrategy r = 0%nat -> 3 <= battery r ->
  is_Some (applyBackoffStrategy (executeCommand n) r).
Proof.
  intros Hn Hi Hb. destruct n as [|n]; [lia|].
  rewrite backoff_unfold by (rewrite Hi; simpl; lia).
  rewrite Hi. simpl. do 2 step_low_level.
  match goal with |- context [executeCommand _ F ?x] => set (r3 := x) end.
  destruct (blocked r3 F) eqn:HF3.
  - rewrite exec_move_blocked; auto; [|subst r3; simpl; lia].
    assert (is_Some (applyBackoffStrategy (executeCommand n) r3)) as [[ok r'] Hr'].
    { apply escape1; subst r3; simpl; lia. }
    rewrite Hr'. destruct ok; eauto.
  - rewrite exec_move_free; subst r3; simpl; eauto; lia.
Qed.

(** What a single call does once its nested attempts are known to
    return. *)
Lemma exec_total_step n c r :
  (1 <= n)%nat ->
  (isMove c = true -> 3 <= battery r -> blocked r c = true ->
   is_Some (applyBackoffStrategy (executeCommand n) r)) ->
  is_Some (executeCommand (Datatypes.S n) c r).
Proof.
  intros Hn Hback.
  destruct (exec_cases n c r) as [Hf|[(Hlow & H1 & Hs)|(Hok & Hd)]].
  - rewrite Hf. eauto.
  - rewrite Hs. destruct n as [|n]; [lia|]. rewrite exec_E by lia. eauto.
  - destruct (isMove c) eqn:Hm.
    + assert (3 <= battery r) by (destruct c; simpl in *; try discriminate; lia).
      destruct (blocked r c) eqn:Hbl.
      * rewrite exec_move_blocked by assumption. now apply Hback.
      * rewrite exec_move_free by assumption. eauto.
    + rewrite Hd. destruct c; try discriminate; simpl; eauto.
Qed.

Lemma exec_total_from_zero n c r :
  (9 <= n)%nat ->
  currentBackoffStrategy r = 0%nat ->
  is_Some (executeCommand n c r).
Proof.
  intros Hn Hi. destruct n as [|n]; [lia|].
  apply exec_total_step; [lia|]. intros _ Hb _. apply escape0; auto. lia.
Qed.

Lemma runStrategy_total (P : t -> Prop) exec :
  (forall c r, P r -> is_Some (exec c r)) ->
  (forall c r r', P r -> exec c r = Some (true, r') -> P r') ->
  forall cmds r, P r -> is_Some (runStrategy exec cmds r).
Proof.
  intros Htot Hstep cmds. induction cmds as [|c cmds IH]; intros r HP; simpl.
  - eauto.
  - destruct (Htot c r HP) as [[[] r1] Hc]; rewrite Hc; eauto.
Qed.

Lemma exec_total_from k : forall c r,
  (7 <= currentBackoffStrategy r + k)%nat ->
  is_Some (executeCommand (9 + k) c r).
Proof.
  induction k as [|k IH]; intros c r Hi.
  - apply exec_total_step; [lia|]. intros _ _ _.
    rewrite backoff_exhausted by (simpl; lia). eauto.
  - destruct (decide (7 <= currentBackoffStrategy r + k)%nat) as [Hge|Hlt].
    { destruct (IH c r Hge) as [v Hv]. exists v.
      eapply exec_mono; [|exact Hv]. lia. }
    change (9 + Datatypes.S k)%nat with (Datatypes.S (9 + k)).
    apply exec_total_step; [lia|]. intros _ _ _.
    rewrite backoff_unfold by (simpl; lia).
    apply (runStrategy_total
             (fun r0 => (7 <= currentBackoffStrategy r0 + k)%nat
                        \/ currentBackoffStrategy r0 = 0%nat)).
    + intros c0 r0 [H0|H0]; [now apply IH|apply exec_total_from_zero; [lia|assumption]].
    + intros c0 r0 r0' HP Hx.
      apply exec_true_index in Hx as [Hx|Hx]; [|now right].
      rewrite Hx. exact HP.
    + left. simpl. lia.
Qed.

End RobotFacts.

(** A call depth that no run exceeds (see [executeCommand_total]). *)
Definition callDepth : nat := 16.

Lemma executeCommand_total n c r :
  (callDepth <= n)%nat -> is_Some (Robot.executeCommand n c r).
Proof.
  intros Hn. destruct (RobotFacts.exec_total_from 7 c r) as [v Hv]; [lia|].
  exists v. eapply RobotFacts.exec_mono; [|exact Hv]. exact Hn.
Qed.


Definition terrainA : Terrain :=
  [ ["Fe"; "Fe"; "Se"]; ["W"; "Si"; "Obs"] ]%string.

Definition terrainB : Terrain :=
  [ ["Fe"; "Obs"; "Se"]; ["W"; "Si"; "Obs"] ]%string.


Definition inputA : SimulationService.Input :=
  SimulationService.mkInput terrainA (Some 50) ["F"; "S"; "R"; "F"]%string
                            0 0 "East"%string.

Definition inputB : SimulationService.Input :=
  SimulationService.mkInput terrainB (Some 50) ["F"]%string 0 0 "East"%string.

(** ** The unit tests of the repository, on the model

    The expectations of [Robot.test.js] and [SimulationService.test.js],
    evaluated on the embedding. *)

Module RepositoryTests.

Definition grid3 : Terrain :=
  [ ["Fe"; "Fe"; "Fe"]; ["Fe"; "Fe"; "Fe"]; ["Fe"; "Fe"; "Fe"] ]%string.

Definition positionAfter (cmds : list Command) (r : Robot.t) : option Position :=
  Robot.position <$> Robot.runCommands callDepth cmds r.

(** "should stop when battery is insufficient" *)
Example test_low_battery :
  Robot.executeCommands callDepth [F; S; R; F]
    (Robot.new terrainA 5 (mkPosition 0 0 East))
  = Some {| Robot.VisitedCells := [mkCell 0 0; mkCell 1 0; mkCell 1 1];
            Robot.SamplesCollected := [];
            Robot.Battery := 6;
            Robot.FinalLocation := mkCell 1 1;
            Robot.Facing := South |}.
Proof. vm_compute. reflexivity. Qed.

(** "should automatically extend solar panels when battery is low" *)
Example test_auto_extend :
  (Robot.battery <$> (snd <$> Robot.executeCommand callDepth E
                                (Robot.new terrainA 4 (mkPosition 0 0 East))))
  = Some 13
  /\ Robot.executeCommands callDepth [S; F]
       (Robot.new terrainA 4 (mkPosition 0 0 East))
     = Some {| Robot.VisitedCells := [mkCell 0 0; mkCell 1 0];
               Robot.SamplesCollected := [];
               Robot.Battery := 10;
               Robot.FinalLocation := mkCell 1 0;
               Robot.Facing := East |}.
Proof. split; vm_compute; reflexivity. Qed.

(** "should move forward correctly in each direction" and "should move
    backward correctly in each direction" *)
Example test_moves :
  positionAfter [F] (Robot.new grid3 100 (mkPosition 0 1 East))
    = Some (mkPosition 1 1 East)
  /\ positionAfter [F] (Robot.new grid3 100 (mkPosition 2 1 West))
     = Some (mkPosition 1 1 West)
  /\ positionAfter [F] (Robot.new grid3 100 (mkPosition 1 2 North))
     = Some (mkPosition 1 1 North)
  /\ positionAfter [F] (Robot.new grid3 100 (mkPosition 1 0 South))
     = Some (mkPosition 1 1 South)
  /\ positionAfter [B] (Robot.new grid3 100 (mkPosition 1 1 East))
     = Some (mkPosition 0 1 East)
  /\ positionAfter [B] (Robot.new grid3 100 (mkPosition 1 1 West))
     = Some (mkPosition 2 1 West)
  /\ positionAfter [B] (Robot.new grid3 100 (mkPosition 1 1 North))
     = Some (mkPosition 1 2 North)
  /\ positionAfter [B] (Robot.new grid3 100 (mkPosition 1 1 South))
     = Some (mkPosition 1 0 South).
Proof. repeat split; vm_compute; reflexivity. Qed.

(** "should turn left correctly from each direction" and "should turn
    right correctly from each direction" *)
Example test_turns :
  (fun cmds => facing <$> positionAfter cmds
                 (Robot.new [["Fe"%string]] 100 (mkPosition 0 0 North)))
    <$> [ [L]; [L; L]; [L; L; L]; [L; L; L; L];
          [R]; [R; R]; [R; R; R]; [R; R; R; R] ]
  = Some <$> [West; South; East; North; East; South; West; North].
Proof. vm_compute. reflexivity. Qed.

(** "should collect samples correctly" *)
Example test_samples :
  Robot.SamplesCollected <$>
    Robot.executeCommands callDepth [S; F; S; F; S]
      (Robot.new [["Fe"; "Se"; "W"]]%string 100 (mkPosition 0 0 East))
  = Some ["Fe"; "Se"; "W"]%string.
Proof. vm_compute. reflexivity. Qed.

(** The cases of "validateInput" *)
Example test_validate :
  SimulationService.validateInput
    (SimulationService.mkInput [] (Some 50) ["F"]%string 0 0 "East"%string)
  = Some "Terrain must be a non-empty 2D array"%string
  /\ SimulationService.validateInput
       (SimulationService.mkInput [["Fe"]; ["W"; "Si"]]%string (Some 50)
          ["F"]%string 0 0 "East"%string)
     = Some "Terrain must be a valid 2D array with consistent row lengths"%string
  /\ SimulationService.validateInput
       (SimulationService.mkInput [["Fe"; "Fe"]; ["W"; "Si"]]%string (Some (-1))
          ["F"]%string 0 0 "East"%string)
     = Some "Battery must be a non-negative number"%string
  /\ SimulationService.validateInput
       (SimulationService.mkInput [["Fe"; "Fe"]; ["W"; "Si"]]%string None
          ["F"]%string 0 0 "East"%string)
     = Some "Battery must be a non-negative number"%string
  /\ SimulationService.validateInput
       (SimulationService.mkInput [["Fe"; "Fe"]; ["W"; "Si"]]%string (Some 50)
          [] 0 0 "East"%string)
     = Some "Commands must be a non-empty array"%string
  /\ SimulationService.validateInput
       (SimulationService.mkInput [["Fe"; "Fe"]; ["W"; "Si"]]%string (Some 50)
          ["F"; "X"]%string 0 0 "East"%string)
     = Some "Commands must be one of: F, B, L, R, S, E"%string
  /\ SimulationService.validateInput
       (SimulationService.mkInput [["Fe"; "Fe"]; ["W"; "Si"]]%string (Some 50)
          ["F"]%string 0 0 "Invalid"%string)
     = Some "Initial position must have a valid facing direction (North, South, East, West)"%string
  /\ SimulationService.validateInput
       (SimulationService.mkInput [["Fe"; "Fe"]; ["W"; "Si"]]%string (Some 50)
          ["F"]%string 5 0 "East"%string)
     = Some "Initial position is out of terrain bounds"%string
  /\ SimulationService.validateInput
       (SimulationService.mkInput [["Fe"; "Obs"]; ["W"; "Si"]]%string (Some 50)
          ["F"]%string 1 0 "East"%string)
     = Some "Initial position cannot be an obstacle"%string.
Proof. repeat split; vm_compute; reflexivity. Qed.

End RepositoryTests.

(** ** Monotonicity of whole runs in the call depth *)

Lemma runCommands_mono n m cmds r r' :
  (n <= m)%nat ->
  Robot.runCommands n cmds r = Some r' -> Robot.runCommands m cmds r = Some r'.
Proof.
  intros Hle. revert r. induction cmds as [|c cmds IH]; intros r H; simpl in *.
  - assumption.
  - destruct (Robot.executeCommand n c r) as [[ok r1]|] eqn:Hc; [|discriminate].
    rewrite (RobotFacts.exec_mono _ _ _ _ _ Hle Hc). destruct ok; auto.
Qed.

Lemma runCommands_total n cmds r :
  (callDepth <= n)%nat -> is_Some (Robot.runCommands n cmds r).
Proof.
  intros Hn. revert r. induction cmds as [|c cmds IH]; intros r; simpl.
  - eauto.
  - destruct (executeCommand_total n c r Hn) as [[[] r1] ->]; eauto.
Qed.

Lemma runSimulation_mono n m input res :
  (n <= m)%nat ->
  SimulationService.runSimulation n input = SimulationService.Returned res ->
  SimulationService.runSimulation m input = SimulationService.Returned res.
Proof.
  intros Hle. unfold SimulationService.runSimulation.
  destruct (SimulationService.validateInput input); [discriminate|].
  destruct (SimulationService.battery input) as [b|]; [|discriminate].
  destruct (mapM _ _) as [cmds|]; [|discriminate].
  destruct (SimulationService.parseFacing _) as [o|]; [|discriminate].
  unfold Robot.executeCommands.
  destruct (Robot.runCommands n cmds _) as [r'|] eqn:Hrun; [|discriminate].
  rewrite (runCommands_mono _ _ _ _ _ Hle Hrun). trivial.
Qed.

(** ** The properties of the design document *)

(** *** Worked examples *)

(** C2. Worked example A: on terrain [[Fe,Fe,Se],[W,Si,Obs]] with
    battery 50, start (0,0) facing East, the commands [F,S,R,F] run
    through the simulation return VisitedCells (0,0),(1,0),(1,1),
    SamplesCollected [Fe], Battery 34 and FinalPosition (1,1) facing
    South, at every call depth from [callDepth] on. *)
Theorem example_A n :
  SimulationService.runSimulation (callDepth + n) inputA =
  SimulationService.Returned
    {| Robot.VisitedCells := [mkCell 0 0; mkCell 1 0; mkCell 1 1];
       Robot.SamplesCollected := ["Fe"%string];
       Robot.Battery := 34;
       Robot.FinalLocation := mkCell 1 1;
       Robot.Facing := South |}.
Proof.
  apply (runSimulation_mono callDepth); [lia|]. vm_compute. reflexivity.
Qed.

(** *** Battery shortfall *)

(** C3. Whenever [executeCommand cmd] is called with battery below the
    cost of [cmd]: with battery >= 1 it performs ExtendPanels instead
    (spend 1, gain 10) and returns true without performing [cmd]; with
    battery < 1 it returns false and changes nothing.  ExtendPanels from
    battery 5 yields battery 14. *)
Theorem low_battery_substitutes_recharge n cmd r :
  Robot.battery r < Robot.getBatteryConsumption cmd ->
  (1 <= Robot.battery r ->
   Robot.executeCommand (2 + n) cmd r = Some (Robot.extendSolarPanels r)
   /\ Robot.extendSolarPanels r =
      (true, Robot.mk (Robot.terrain r) (Robot.battery r - 1 + 10)
                      (Robot.position r) (Robot.visitedCells r)
                      (Robot.samplesCollected r)
                      (Robot.currentBackoffStrategy r)))
  /\ (Robot.battery r < 1 ->
      Robot.executeCommand (1 + n) cmd r = Some (false, r))
  /\ (forall tr p,
        (Robot.battery <$> (snd <$> Robot.executeCommand (1 + n) E (Robot.new tr 5 p)))
        = Some 14).
Proof.
  intros Hlow. split; [|split].
  - intros H1. split; [|reflexivity].
    change (2 + n)%nat with (Datatypes.S (Datatypes.S n)).
    rewrite RobotFacts.exec_low_subst by assumption.
    now apply RobotFacts.exec_E.
  - intros H1. now apply RobotFacts.exec_low_fail.
  - intros tr p. change (1 + n)%nat with (Datatypes.S n).
    rewrite RobotFacts.exec_E by (simpl; lia). reflexivity.
Qed.

Lemma low_battery_substitutes_recharge_witness :
  Robot.executeCommand 2 S (Robot.new terrainA 4 (mkPosition 0 0 East))
  = Some (Robot.extendSolarPanels (Robot.new terrainA 4 (mkPosition 0 0 East))).
Proof.
  refine (proj1 (proj1 (low_battery_substitutes_recharge 0 S
                   (Robot.new terrainA 4 (mkPosition 0 0 East)) _) _)).
  - simpl. lia.
  - simpl. lia.
Defined.

(** *** Blocked moves *)

(** C4. For a Move (F or B) whose destination is an obstacle or out of
    bounds, the cost of 3 is not paid.  With the index at 7 or more the
    maneuver fails at once and the robot is unchanged.  Otherwise the
    strategy at the index is taken, the index is incremented before any
    of its commands runs (so whatever their outcome), and the commands
    run in order through [executeCommand].  Worked example B: on
    [[Fe,Obs,Se],[W,Si,Obs]] with battery 50 from (0,0) East, [F] ends at
    (0,1) facing South with battery 54. *)
Theorem blocked_move_takes_backoff n c r :
  RobotFacts.isMove c = true ->
  RobotFacts.blocked r c = true ->
  Robot.dispatch (Robot.executeCommand n) c r =
    (if decide (7 <= Robot.currentBackoffStrategy r)%nat
     then Some (false, r)
     else Robot.runStrategy (Robot.executeCommand n)
            (nth (Robot.currentBackoffStrategy r) Robot.backoffStrategies [])
            (Robot.nextStrategy r))
  /\ Robot.battery (Robot.nextStrategy r) = Robot.battery r
  /\ Robot.currentBackoffStrategy (Robot.nextStrategy r)
     = Datatypes.S (Robot.currentBackoffStrategy r)
  /\ (forall k,
        SimulationService.runSimulation (callDepth + k) inputB =
        SimulationService.Returned
          {| Robot.VisitedCells := [mkCell 0 0; mkCell 0 1];
             Robot.SamplesCollected := [];
             Robot.Battery := 54;
             Robot.FinalLocation := mkCell 0 1;
             Robot.Facing := South |}).
Proof.
  intros Hm Hbl. split; [|split; [reflexivity|split; [reflexivity|]]].
  - unfold RobotFacts.blocked in Hbl.
    destruct c; try discriminate; simpl;
      [unfold Robot.moveForward | unfold Robot.moveBackward];
      rewrite Hbl; unfold Robot.applyBackoffStrategy; simpl length;
      repeat destruct (decide _); try lia; reflexivity.
  - intros k. apply (runSimulation_mono callDepth); [lia|].
    vm_compute. reflexivity.
Qed.

Lemma blocked_move_takes_backoff_witness :
  Robot.dispatch (Robot.executeCommand 3) F
                 (Robot.new terrainB 50 (mkPosition 0 0 East))
  = Robot.runStrategy (Robot.executeCommand 3) [E; R; F]
      (Robot.nextStrategy (Robot.new terrainB 50 (mkPosition 0 0 East))).
Proof.
  refine (proj1 (blocked_move_takes_backoff 3 F
                   (Robot.new terrainB 50 (mkPosition 0 0 East)) _ _)).
  - reflexivity.
  - vm_compute. reflexivity.
Defined.

(** *** The strategy index after an escape *)

(** C10. Each of the seven strategies ends with a Move.  After a backoff
    attempt in which every sub-command succeeds (the attempt returns
    true) the index is 0, so the next blocked move, when it is
    dispatched, starts again from the first strategy [E,R,F]; the index
    only grows by the increment that opens each attempt, that is across
    attempts nested in, or failed within, one escape. *)
Theorem successful_backoff_resets_index n r r' :
  Robot.applyBackoffStrategy (Robot.executeCommand n) r = Some (true, r') ->
  Robot.currentBackoffStrategy r' = 0%nat
  /\ Forall (fun strategy => last strategy = Some F) Robot.backoffStrategies
  /\ (forall m c,
        RobotFacts.isMove c = true -> 3 <= Robot.battery r' ->
        RobotFacts.blocked r' c = true ->
        Robot.executeCommand (Datatypes.S m) c r' =
        Robot.runStrategy (Robot.executeCommand m) [E; R; F]
                          (Robot.nextStrategy r')).
Proof.
  intros H. apply RobotFacts.backoff_true_resets in H.
  split; [exact H|]. split.
  - repeat constructor.
  - intros m c Hm Hb Hbl.
    rewrite RobotFacts.exec_move_blocked by assumption.
    rewrite RobotFacts.backoff_unfold by (rewrite H; simpl; lia).
    now rewrite H.
Qed.

Lemma successful_backoff_resets_index_witness :
  exists r',
    Robot.applyBackoffStrategy (Robot.executeCommand callDepth)
      (Robot.new terrainB 50 (mkPosition 0 0 East)) = Some (true, r')
    /\ Robot.currentBackoffStrategy r' = 0%nat.
Proof.
  eexists. split.
  - vm_compute. reflexivity.
  - refine (proj1 (successful_backoff_resets_index callDepth
                     (Robot.new terrainB 50 (mkPosition 0 0 East)) _ _)).
    vm_compute. reflexivity.
Defined.

(** *** Battery never negative *)

(** The states a run passes through: the freshly built robot, the state
    a call of [executeCommand] returns with (at any nesting depth), and
    the state in which a backoff attempt starts. *)
Inductive reachable (tr : Terrain) (b0 : Z) (p0 : Position) : Robot.t -> Prop :=
| reach_new : reachable tr b0 p0 (Robot.new tr b0 p0)
| reach_exec r fuel c ok r' :
    reachable tr b0 p0 r ->
    Robot.executeCommand fuel c r = Some (ok, r') ->
    reachable tr b0 p0 r'
| reach_backoff r :
    reachable tr b0 p0 r -> reachable tr b0 p0 (Robot.nextStrategy r).

(** What a command adds back after its cost: 10 for ExtendPanels. *)
Definition gain (c : Command) : Z :=
  match c with E => 10 | _ => 0 end.

(** C1. In every reachable state (initial battery >= 0) the battery is
    >= 0, and so it is after every call of [executeCommand] from such a
    state, which always returns.  A command that is applied as such
    (its cost is covered and, for a move, the destination is free)
    returns true with the battery at the old value less the fixed cost
    (plus the 10 units of ExtendPanels), which is not negative. *)
Theorem battery_never_negative tr b0 p0 r :
  0 <= b0 ->
  reachable tr b0 p0 r ->
  0 <= Robot.battery r
  /\ (forall c, is_Some (Robot.executeCommand callDepth c r))
  /\ (forall fuel c ok r',
        Robot.executeCommand fuel c r = Some (ok, r') ->
        0 <= Robot.battery r'
        /\ (Robot.getBatteryConsumption c <= Robot.battery r ->
            (RobotFacts.isMove c = true -> RobotFacts.blocked r c = false) ->
            ok = true
            /\ Robot.battery r' =
               Robot.battery r - Robot.getBatteryConsumption c + gain c)).
Proof.
  intros Hb0 Hreach.
  assert (0 <= Robot.battery r) as Hr.
  { induction Hreach; simpl; auto.
    eapply RobotFacts.exec_battery_nonneg; eauto. }
  split; [exact Hr|]. split.
  - intros c. now apply executeCommand_total.
  - intros fuel c ok r' H. split.
    + eapply RobotFacts.exec_battery_nonneg; eauto.
    + intros Hcost Hfree. destruct fuel as [|fuel]; [discriminate|].
      rewrite RobotFacts.exec_dispatch in H by assumption.
      destruct c; simpl in H, Hcost.
      * specialize (Hfree eq_refl). unfold Robot.moveForward in H.
        unfold RobotFacts.blocked in Hfree. rewrite Hfree in H.
        inversion H; subst; simpl. split; [reflexivity|lia].
      * specialize (Hfree eq_refl). unfold Robot.moveBackward in H.
        unfold RobotFacts.blocked in Hfree. rewrite Hfree in H.
        inversion H; subst; simpl. split; [reflexivity|lia].
      * inversion H; subst; simpl. split; [reflexivity|lia].
      * inversion H; subst; simpl. split; [reflexivity|lia].
      * inversion H; subst; simpl. split; [reflexivity|lia].
      * inversion H; subst; simpl. split; [reflexivity|lia].
Qed.

Lemma battery_never_negative_witness :
  0 <= Robot.battery (Robot.new terrainA 50 (mkPosition 0 0 East)).
Proof.
  refine (proj1 (battery_never_negative terrainA 50 (mkPosition 0 0 East)
                   (Robot.new terrainA 50 (mkPosition 0 0 East)) _ _)).
  - lia.
  - apply reach_new.
Defined.

(** *** Validation errors and soft stops *)

Module Validation.
Import SimulationService.







(** What an input that passes [validateInput] looks like. *)
Definition wellFormed (input : Input) : Prop :=
  terrain input <> []
  /\ length (default [] (head (terrain input))) <> 0%nat
  /\ Forall (fun row => length row = length (default [] (head (terrain input))))
            (terrain input)
  /\ (exists b, battery input = Some b /\ 0 <= b)
  /\ commands input <> []
  /\ Forall (fun cmd => is_Some (parseCommand cmd)) (commands input)
  /\ is_Some (parseFacing (facingName input))
  /\ outOfBounds (terrain input) (locationX input) (locationY input) = false
  /\ cellAt (terrain input) (locationX input) (locationY input) <> Some "Obs"%string.

Lemma existsb_false_Forall {A} (f : A -> bool) (P : A -> Prop) (l : list A) :
  (forall a, f a = false -> P a) ->
  existsb f l = false -> Forall P l.
Proof.
  intros Hf. induction l as [|a l IH]; simpl; intros H; constructor.
  - apply Hf. now destruct (f a).
  - apply IH. destruct (f a); [discriminate|assumption].
Qed.


Lemma validate_None input : validateInput input = None -> wellFormed input.
Proof.
  unfold validateInput, wellFormed.
  destruct (decide (length (terrain input) = 0%nat)) as [|Hlen]; [discriminate|].
  destruct (bool_decide (length (default [] (head (terrain input))) = 0%nat)) eqn:Hrow;
    [discriminate|].
  destruct (existsb _ (terrain input)) eqn:Hrows; [discriminate|].
  simpl.
  destruct (battery input) as [b|]; [|discriminate].
  destruct (Z.ltb_spec b 0); [discriminate|].
  destruct (decide (length (commands input) = 0%nat)) as [|Hc]; [discriminate|].
  destruct (existsb _ (commands input)) eqn:Hcmds; [discriminate|].
  destruct (bool_decide (is_Some (parseFacing (facingName input)))) eqn:Hf;
    [|discriminate].
  simpl.
  destruct (outOfBounds _ _ _) eqn:Hoob; [discriminate|].
  destruct (bool_decide (cellAt _ _ _ = _)) eqn:Hobs; [discriminate|].
  intros _. repeat split.
  - intros Heq. rewrite Heq in Hlen. now apply Hlen.
  - now apply bool_decide_eq_false in Hrow.
  - eapply existsb_false_Forall; [|exact Hrows]. intros row Hr.
    apply negb_false_iff in Hr. now apply bool_decide_eq_true in Hr.
  - exists b. split; [reflexivity|lia].
  - intros Heq. rewrite Heq in Hc. now apply Hc.
  - eapply existsb_false_Forall; [|exact Hcmds]. intros cmd Hr.
    apply negb_false_iff in Hr. now apply bool_decide_eq_true in Hr.
  - now apply bool_decide_eq_true in Hf.
  - now apply bool_decide_eq_false in Hobs.
Qed.






End Validation.


Definition robotStuck : Robot.t :=
  Robot.new [["Fe"%string]] 50 (mkPosition 0 0 North).




(** ** The pathfinder *)

Module SearchFacts.
Import PathfindingService.

Lemma relax_closedSet tx ty cur st mv :
  closedSet (relax tx ty cur st mv) = closedSet st.
Proof.
  unfold relax. repeat (case_match; simpl; try reflexivity).
Qed.

Lemma foldl_relax_closedSet tx ty cur moves st :
  closedSet (foldl (relax tx ty cur) st moves) = closedSet st.
Proof.
  revert st. induction moves as [|mv moves IH]; intros st; simpl.
  - reflexivity.
  - rewrite IH. apply relax_closedSet.
Qed.

(** The ExtendPanels edge offered by [getPossibleMoves] is a self-loop. *)
Lemma moves_E terrain p q :
  (q, E) ∈ getPossibleMoves terrain p -> q = p.
Proof.
  unfold getPossibleMoves. intros H.
  repeat (apply elem_of_cons in H as [H|H]; [inversion H|]).
  repeat (apply elem_of_app in H as [H|H];
          [case_match; [now apply elem_of_nil in H|];
           apply elem_of_cons in H as [H|H]; [inversion H|now apply elem_of_nil in H]|]).
  apply elem_of_cons in H as [H|H]; [now inversion H|now apply elem_of_nil in H].
Qed.

(** No stored command sequence contains ExtendPanels. *)
Definition noRecharge (st : Search) : Prop :=
  forall k cmds, commandSequences st !! k = Some cmds -> E ∉ cmds.

Lemma relax_noRecharge terrain tx ty cur st mv :
  mv ∈ getPossibleMoves terrain cur ->
  cur ∈ closedSet st ->
  noRecharge st -> noRecharge (relax tx ty cur st mv).
Proof.
  intros Hmv Hcur Hinv. unfold relax.
  destruct (bool_decide (mv.1 ∈ closedSet st)) eqn:Hclosed; [assumption|].
  apply bool_decide_eq_false in Hclosed.
  destruct (_ <=? 0); [assumption|].
  match goal with |- noRecharge (if ?c then _ else _) => destruct c end;
    [|assumption].
  intros k cmds. simpl. rewrite lookup_insert_Some.
  intros [[_ <-]|[_ Hk]]; [|eapply Hinv; eauto].
  rewrite elem_of_app, list_elem_of_singleton. intros [Hold|Hnew].
  - destruct (commandSequences st !! cur) as [old|] eqn:Hc; simpl in Hold.
    + eapply Hinv; eauto.
    + now apply elem_of_nil in Hold.
  - destruct mv as [q c]. simpl in *. subst c.
    apply moves_E in Hmv. subst q. contradiction.
Qed.

Lemma foldl_relax_noRecharge terrain tx ty cur moves st :
  moves ⊆ getPossibleMoves terrain cur ->
  cur ∈ closedSet st ->
  noRecharge st -> noRecharge (foldl (relax tx ty cur) st moves).
Proof.
  revert st. induction moves as [|mv moves IH]; intros st Hsub Hcur Hinv; simpl.
  - assumption.
  - apply IH.
    + intros x Hx. apply Hsub. now right.
    + now rewrite relax_closedSet.
    + eapply relax_noRecharge; eauto. apply Hsub. now left.
Qed.

Lemma search_noRecharge terrain tx ty b0 fuel : forall st path,
  noRecharge st ->
  search fuel terrain tx ty b0 st = Some path ->
  E ∉ commands path.
Proof.
  induction fuel as [|fuel IH]; intros st path Hinv H; [discriminate|].
  simpl in H. unfold dequeue in H.
  destruct (elements (openSet st)) as [|k rest] eqn:Hq.
  - inversion H; subst; simpl. apply not_elem_of_nil.
  - destruct (_ && _).
    + inversion H; subst; simpl.
      destruct (commandSequences st !! k) as [cmds|] eqn:Hc; simpl.
      * eapply Hinv; eauto.
      * apply not_elem_of_nil.
    + eapply IH; [|exact H]. unfold expand.
      apply (foldl_relax_noRecharge terrain); simpl; auto; set_solver.
Qed.

(** Whatever the terrain, the poses and the battery, a sequence returned
    by [findPath] never contains ExtendPanels: the self-loop is skipped
    because its key has just been added to the closed set. *)
Lemma findPath_never_recharges fuel terrain start tx ty b0 path :
  findPath fuel terrain start tx ty b0 = Some path -> E ∉ commands path.
Proof.
  apply search_noRecharge.
  intros k cmds. unfold initialSearch; simpl.
  rewrite lookup_singleton_Some. intros [_ <-]. apply not_elem_of_nil.
Qed.

End SearchFacts.

Definition corridor : Terrain := [["Fe"; "Fe"]]%string.

(** C5, on the code.  From battery 3 on the two-cell corridor the search
    accepts the step forward, because it adds the cost of the command to
    the battery instead of subtracting it (3 + 3 = 6 > 0); it returns
    [F] with success.  Replayed on the robot from battery 3, that
    sequence leaves the battery at 0, which is not above 0. *)
Theorem findPath_accepts_draining_path :
  PathfindingService.findPath 8 corridor (mkPosition 0 0 East) 1 0 3
  = Some (PathfindingService.mkPath [F] 6 true)
  /\ Robot.executeCommands callDepth [F] (Robot.new corridor 3 (mkPosition 0 0 East))
     = Some {| Robot.VisitedCells := [mkCell 0 0; mkCell 1 0];
               Robot.SamplesCollected := [];
               Robot.Battery := 0;
               Robot.FinalLocation := mkCell 1 0;
               Robot.Facing := East |}
  /\ 3 - Robot.getBatteryConsumption F <= 0.
Proof.
  split; [|split].
  - vm_compute. reflexivity.
  - vm_compute. reflexivity.
  - simpl. lia.
Qed.

(** C6, on the code.  [getPossibleMoves] offers ExtendPanels at every
    node, as a self-loop, but no sequence that [findPath] returns
    contains it.  From battery 3 on the two-cell corridor the only
    geometric path [F] takes the battery to 0 and recharging first would
    keep it positive ([E,F]: 12, then 9), yet the answer is [F]. *)
Theorem findPath_never_uses_recharge :
  (forall terrain position,
     (position, E) ∈ PathfindingService.getPossibleMoves terrain position)
  /\ (forall fuel terrain start tx ty b0 path,
        PathfindingService.findPath fuel terrain start tx ty b0 = Some path ->
        E ∉ PathfindingService.commands path)
  /\ PathfindingService.findPath 8 corridor (mkPosition 0 0 East) 1 0 3
     = Some (PathfindingService.mkPath [F] 6 true)
  /\ Robot.Battery <$>
       Robot.executeCommands callDepth [E; F]
         (Robot.new corridor 3 (mkPosition 0 0 East)) = Some 9.
Proof.
  split; [|split; [|split]].
  - intros terrain position. unfold PathfindingService.getPossibleMoves.
    rewrite !elem_of_app, list_elem_of_singleton. auto.
  - intros. eapply SearchFacts.findPath_never_recharges; eauto.
  - vm_compute. reflexivity.
  - vm_compute. reflexivity.
Qed.

(** ** The mission planner *)

Module PlannerFacts.
Import PathfindingService.

(** The key the targets are sorted by. *)
Definition startDistance (start : Position) (a : Target) : Z :=
  nearestDistance start (locations a).

Definition closerFrom (start : Position) (a b : Target) : Prop :=
  startDistance start a <= startDistance start b.

Lemma insertTarget_perm start a l : insertTarget start a l ≡ₚ a :: l.
Proof.
  induction l as [|b l IH]; simpl.
  - reflexivity.
  - destruct (_ <=? _); [reflexivity|].
    rewrite IH. apply Permutation_swap.
Qed.

Lemma sortTargets_perm start l : sortTargets start l ≡ₚ l.
Proof.
  unfold sortTargets. induction l as [|a l IH]; simpl.
  - reflexivity.
  - rewrite insertTarget_perm. now rewrite IH.
Qed.

Lemma insertTarget_sorted start a l :
  StronglySorted (closerFrom start) l ->
  StronglySorted (closerFrom start) (insertTarget start a l).
Proof.
  induction 1 as [|b l Hs IH Hb]; simpl.
  - repeat constructor.
  - fold (startDistance start a). fold (startDistance start b).
    destruct (Z.leb_spec (startDistance start a) (startDistance start b)) as [Hle|Hgt].
    + constructor; [now constructor|].
      constructor; [exact Hle|].
      eapply Forall_impl; [exact Hb|]. unfold closerFrom. intros c Hc. lia.
    + constructor; [exact IH|].
      rewrite insertTarget_perm. constructor; [|exact Hb].
      unfold closerFrom. lia.
Qed.

Lemma sortTargets_sorted start l :
  StronglySorted (closerFrom start) (sortTargets start l).
Proof.
  unfold sortTargets. induction l as [|a l IH]; simpl.
  - constructor.
  - now apply insertTarget_sorted.
Qed.

Lemma foldl_min_le d ds :
  foldl Z.min d ds <= d /\ Forall (fun x => foldl Z.min d ds <= x) ds.
Proof.
  revert d. induction ds as [|x ds IH]; intros d; simpl.
  - split; [lia|constructor].
  - destruct (IH (Z.min d x)) as [H1 H2]. split; [lia|].
    constructor; [lia|exact H2].
Qed.

Lemma foldl_min_in d ds : foldl Z.min d ds ∈ d :: ds.
Proof.
  revert d. induction ds as [|x ds IH]; intros d; simpl.
  - left.
  - specialize (IH (Z.min d x)).
    apply elem_of_cons in IH as [IH|IH].
    + rewrite IH. destruct (Z.min_spec d x) as [[_ ->]|[_ ->]];
        [left|right; left].
    + right; now right.
Qed.

(** [nearestDistance] is the least Manhattan distance from [start] to a
    location of the list, and some location attains it. *)
Lemma nearestDistance_least start locs loc :
  loc ∈ locs ->
  nearestDistance start locs
  <= manhattanDistance (px start) (py start) loc.1 loc.2.
Proof.
  intros Hin. unfold nearestDistance.
  apply (list_elem_of_fmap_2
           (fun loc => manhattanDistance (px start) (py start) loc.1 loc.2)) in Hin.
  destruct (_ <$> locs) as [|d ds]; [now apply elem_of_nil in Hin|].
  destruct (foldl_min_le d ds) as [H1 H2].
  apply elem_of_cons in Hin as [->|Hin]; [exact H1|].
  rewrite Forall_forall in H2. now apply H2.
Qed.

Lemma nearestDistance_attained start locs :
  locs <> [] ->
  exists loc, loc ∈ locs
    /\ nearestDistance start locs
       = manhattanDistance (px start) (py start) loc.1 loc.2.
Proof.
  intros Hne. unfold nearestDistance.
  destruct (_ <$> locs) as [|d ds] eqn:Hmap.
  - destruct locs; [contradiction|discriminate].
  - pose proof (foldl_min_in d ds) as Hin. rewrite <- Hmap in Hin.
    apply list_elem_of_fmap in Hin as (loc & Heq & Hloc). eauto.
Qed.

(** The type enumeration. *)
Definition occurs (terrain : Terrain) (ty : option string) : Prop :=
  exists c, c ∈ gridCells terrain /\ cellAt terrain c.1 c.2 = ty.

Lemma setAdd_elem ty types x : x ∈ setAdd ty types <-> x = ty \/ x ∈ types.
Proof.
  unfold setAdd. case_bool_decide as Hin.
  - split; [auto|]. intros [->|H]; assumption.
  - rewrite elem_of_app, list_elem_of_singleton. tauto.
Qed.

Lemma setAdd_NoDup ty types : NoDup types -> NoDup (setAdd ty types).
Proof.
  intros Hnd. unfold setAdd. case_bool_decide as Hin; [assumption|].
  apply NoDup_app. repeat split; auto.
  - intros x Hx Hx'. apply list_elem_of_singleton in Hx'. now subst.
  - apply NoDup_singleton.
Qed.

Lemma collect_types_spec terrain (cells : list (Z * Z)) : forall acc,
  let types :=
    foldl (fun types c =>
             let terrainType := cellAt terrain c.1 c.2 in
             if bool_decide (terrainType = Some "Obs"%string) then types
             else setAdd terrainType types) acc cells in
  (NoDup acc -> NoDup types)
  /\ (forall ty, ty ∈ types <->
        ty ∈ acc \/ (ty <> Some "Obs"%string
                     /\ exists c, c ∈ cells /\ cellAt terrain c.1 c.2 = ty)).
Proof.
  induction cells as [|c cells IH]; intros acc; simpl.
  - split; [auto|]. intros ty. split; [auto|].
    intros [H|(_ & c & Hc & _)]; [assumption|now apply elem_of_nil in Hc].
  - case_bool_decide as Hobs.
    + destruct (IH acc) as [Hnd Hel]. split; [exact Hnd|].
      intros ty. rewrite Hel. split.
      * intros [H|(Hne & c' & Hc' & Heq)]; [now left|right].
        split; [assumption|]. exists c'. split; [now right|assumption].
      * intros [H|(Hne & c' & Hc' & Heq)]; [now left|].
        apply elem_of_cons in Hc' as [->|Hc'].
        -- congruence.
        -- right. eauto.
    + destruct (IH (setAdd (cellAt terrain c.1 c.2) acc)) as [Hnd Hel]. split.
      * intros H. apply Hnd. now apply setAdd_NoDup.
      * intros ty. rewrite Hel, setAdd_elem. split.
        -- intros [[->|H]|(Hne & c' & Hc' & Heq)].
           ++ right. split; [assumption|]. exists c. split; [left|reflexivity].
           ++ now left.
           ++ right. split; [assumption|]. exists c'. split; [now right|assumption].
        -- intros [H|(Hne & c' & Hc' & Heq)]; [left; now right|].
           apply elem_of_cons in Hc' as [->|Hc'].
           ++ left. left. now symmetry.
           ++ right. eauto.
Qed.

Lemma terrainTypes_NoDup terrain : NoDup (terrainTypes terrain).
Proof. apply (collect_types_spec terrain (gridCells terrain) []). constructor. Qed.

Lemma terrainTypes_spec terrain ty :
  ty ∈ terrainTypes terrain <-> ty <> Some "Obs"%string /\ occurs terrain ty.
Proof.
  unfold terrainTypes, occurs.
  rewrite (proj2 (collect_types_spec terrain (gridCells terrain) [])).
  split; [|auto]. intros [H|H]; [now apply elem_of_nil in H|assumption].
Qed.

Lemma findTerrainLocations_spec terrain ty c :
  c ∈ findTerrainLocations terrain ty
  <-> c ∈ gridCells terrain /\ cellAt terrain c.1 c.2 = ty.
Proof.
  unfold findTerrainLocations. rewrite list_elem_of_filter. tauto.
Qed.

Lemma collectTargets_types terrain :
  type <$> collectTargets terrain = terrainTypes terrain
  /\ Forall (fun t => locations t = findTerrainLocations terrain (type t)
                      /\ locations t <> [])
            (collectTargets terrain).
Proof.
  unfold collectTargets.
  assert (Forall (occurs terrain) (terrainTypes terrain)) as Hocc.
  { apply Forall_forall. intros ty Hty. now apply terrainTypes_spec in Hty. }
  induction Hocc as [|ty types (c & Hc & Heq) _ IH]; simpl.
  - split; [reflexivity|constructor].
  - assert (c ∈ findTerrainLocations terrain ty) as Hin
        by now apply findTerrainLocations_spec.
    case_bool_decide as Hlen.
    + destruct IH as [IH1 IH2]. split; [rewrite fmap_cons; simpl; f_equal; exact IH1|].
      constructor; [|exact IH2]. simpl. split; [reflexivity|].
      intros Hnil. rewrite Hnil in Hin. now apply elem_of_nil in Hin.
    + exfalso. apply Hlen.
      destruct (findTerrainLocations terrain ty); [now apply elem_of_nil in Hin|].
      simpl. lia.
Qed.

End PlannerFacts.

Definition strip : Terrain := [["B"; "S"; "S"; "A"; "S"; "C"]]%string.


(** ** The pathfinder on a grid without obstacles *)

Module OpenGrid.
Import PathfindingService.

(** Where a command leads, geometry only. *)
Definition step (p : Position) (c : Command) : Position :=
  match c with
  | L | R => mkPosition (px p) (py p) (getNewFacing (facing p) c)
  | F | B => getNextPosition p c
  | S | E => p
  end.

(** The pose after a command sequence. *)
Definition walk (p : Position) (cmds : list Command) : Position :=
  foldl step p cmds.

Definition inBounds (terrain : Terrain) (x y : Z) : Prop :=
  0 <= x < cols terrain /\ 0 <= y < rows terrain.

Lemma outOfBounds_false terrain x y :
  outOfBounds terrain x y = false <-> inBounds terrain x y.
Proof.
  unfold outOfBounds, inBounds.
  rewrite !orb_false_iff, !Z.ltb_ge, !Z.leb_gt. lia.
Qed.

Lemma moves_inv terrain p q c :
  (q, c) ∈ getPossibleMoves terrain p ->
  q = step p c
  /\ (c = L \/ c = R \/ c = E
      \/ ((c = F \/ c = B) /\ isObstacle terrain (px q) (py q) = false)).
Proof.
  unfold getPossibleMoves. intros H.
  apply elem_of_app in H as [H|H].
  { apply elem_of_cons in H as [H|H]; [inversion H; subst; simpl; auto|].
    apply list_elem_of_singleton in H. inversion H; subst; simpl; auto. }
  apply elem_of_app in H as [H|H].
  { destruct (isObstacle terrain _ _) eqn:Hobs; [now apply elem_of_nil in H|].
    apply list_elem_of_singleton in H. inversion H; subst. simpl.
    split; [reflexivity|]. do 3 right. auto. }
  apply elem_of_app in H as [H|H].
  { destruct (isObstacle terrain _ _) eqn:Hobs; [now apply elem_of_nil in H|].
    apply list_elem_of_singleton in H. inversion H; subst. simpl.
    split; [reflexivity|]. do 3 right. auto. }
  apply list_elem_of_singleton in H. inversion H; subst. simpl.
  split; [now destruct p|]. auto.
Qed.

Lemma moves_turn terrain p c :
  c = L \/ c = R -> (step p c, c) ∈ getPossibleMoves terrain p.
Proof.
  intros [->| ->]; unfold getPossibleMoves; cbn [step];
    apply elem_of_app; left; [left|right; left].
Qed.

Lemma moves_move terrain p c :
  c = F \/ c = B ->
  isObstacle terrain (px (step p c)) (py (step p c)) = false ->
  (step p c, c) ∈ getPossibleMoves terrain p.
Proof.
  intros [->| ->] Hfree; unfold getPossibleMoves; cbn [step] in *; rewrite Hfree.
  - apply elem_of_app; right. apply elem_of_app; left. left.
  - apply elem_of_app; right. apply elem_of_app; right.
    apply elem_of_app; left. left.
Qed.

(** One command changes the Manhattan distance to the target by at most
    one. *)
Lemma heuristic_step p c tx ty :
  heuristic p tx ty <= 1 + heuristic (step p c) tx ty.
Proof.
  unfold heuristic, manhattanDistance, step, getNextPosition.
  destruct c; simpl; try lia;
    destruct (facing p); simpl; lia.
Qed.

Lemma heuristic_walk cmds : forall p tx ty,
  heuristic p tx ty <= Z.of_nat (length cmds) + heuristic (walk p cmds) tx ty.
Proof.
  unfold walk. induction cmds as [|c cmds IH]; intros p tx ty.
  - simpl. lia.
  - pose proof (heuristic_step p c tx ty). specialize (IH (step p c) tx ty).
    cbn [foldl length]. lia.
Qed.

Lemma walk_snoc p cmds c : walk p (cmds ++ [c]) = step (walk p cmds) c.
Proof. unfold walk. now rewrite foldl_app. Qed.

(** *** The queue *)

Lemma insertSorted_perm pr k l : insertSorted pr k l ≡ₚ k :: l.
Proof.
  induction l as [|k' l IH]; simpl.
  - reflexivity.
  - destruct (_ <=? _); [reflexivity|].
    rewrite IH. apply Permutation_swap.
Qed.

Lemma sortByPriority_perm pr l : sortByPriority pr l ≡ₚ l.
Proof.
  unfold sortByPriority. induction l as [|k l IH]; simpl.
  - reflexivity.
  - rewrite insertSorted_perm. now rewrite IH.
Qed.

Lemma enqueue_elements q k p :
  elements (enqueue q k p) ≡ₚ k :: elements q.
Proof.
  unfold enqueue; simpl. rewrite sortByPriority_perm.
  now rewrite Permutation_app_comm.
Qed.

(** *** The poses of the grid *)

Definition gridPoses (terrain : Terrain) : list Position :=
  c ← gridCells terrain; o ← directions; [mkPosition c.1 c.2 o].

Lemma gridCells_elem terrain x y :
  inBounds terrain x y -> (x, y) ∈ gridCells terrain.
Proof.
  intros [Hx Hy]. unfold gridCells.
  apply list_elem_of_bind. exists y. split; [|apply elem_of_seqZ; lia].
  apply list_elem_of_bind. exists x. split; [|apply elem_of_seqZ; lia].
  apply list_elem_of_singleton. reflexivity.
Qed.

Lemma gridPoses_elem terrain p :
  inBounds terrain (px p) (py p) -> p ∈ gridPoses terrain.
Proof.
  intros Hin. unfold gridPoses.
  apply list_elem_of_bind. exists (px p, py p).
  split; [|now apply gridCells_elem].
  apply list_elem_of_bind. exists (facing p). split.
  - apply list_elem_of_singleton. now destruct p.
  - unfold directions. destruct (facing p); set_solver.
Qed.

Lemma length_bind_const {A B} (f : A -> list B) (n : nat) (l : list A) :
  (forall a, length (f a) = n) -> length (l ≫= f) = (length l * n)%nat.
Proof.
  intros Hf. induction l as [|a l IH]; [reflexivity|].
  rewrite bind_cons, length_app, Hf, IH. simpl. lia.
Qed.

Lemma length_gridPoses terrain :
  length (gridPoses terrain)
  = (4 * (Z.to_nat (rows terrain) * Z.to_nat (cols terrain)))%nat.
Proof.
  unfold gridPoses. rewrite (length_bind_const _ 4) by reflexivity.
  unfold gridCells.
  rewrite (length_bind_const _ (Z.to_nat (cols terrain))).
  - rewrite length_seqZ. lia.
  - intros y. rewrite (length_bind_const _ 1) by reflexivity.
    rewrite length_seqZ. lia.
Qed.

Lemma size_list_to_set_le (l : list Position) :
  (size (list_to_set l : gset Position) <= length l)%nat.
Proof.
  induction l as [|k l IH].
  - rewrite list_to_set_nil, size_empty. reflexivity.
  - rewrite list_to_set_cons, size_union_alt, size_singleton. cbn [length].
    assert (size ((list_to_set l : gset Position) ∖ {[k]})
            <= size (list_to_set l : gset Position))%nat
      by (apply subseteq_size; intros x; rewrite elem_of_difference; tauto).
    lia.
Qed.

(** *** The invariant of the search loop *)

Section Completeness.
Variable terrain : Terrain.
Variable start : Position.
Variables tx ty : Z.

Hypothesis no_obstacle : forall x y, cellAt terrain x y <> Some "Obs"%string.
Hypothesis start_inBounds : inBounds terrain (px start) (py start).

Lemma free_iff x y : isObstacle terrain x y = false <-> inBounds terrain x y.
Proof.
  unfold isObstacle. rewrite <- outOfBounds_false.
  destruct (outOfBounds terrain x y); [split; discriminate|].
  split; [reflexivity|]. intros _. apply bool_decide_eq_false. apply no_obstacle.
Qed.

(** A pose is known once it has a g-score. *)
Definition known (st : Search) (k : Position) : Prop := is_Some (gScore st !! k).

(** The edges out of [cur] that the loop body has still to look at are
    [pending]; between two turns of the [while] loop there are none. *)
Record invariant (cur : Position) (pending : list (Position * Command))
  (st : Search) : Prop := mkInvariant {
  inv_nodup : NoDup (elements (openSet st));
  inv_priorities : forall k,
    k ∈ elements (openSet st) <-> is_Some (priorities (openSet st) !! k);
  inv_open : forall k, k ∈ elements (openSet st) -> k ∉ closedSet st;
  inv_known : forall k,
    known st k <-> k ∈ elements (openSet st) \/ k ∈ closedSet st;
  inv_data : forall k, known st k ->
    exists b cmds,
      batteryLevels st !! k = Some b /\ 0 < b
      /\ commandSequences st !! k = Some cmds
      /\ walk start cmds = k
      /\ inBounds terrain (px k) (py k);
  inv_start : known st start;
  inv_goal : forall k, k ∈ closedSet st -> ~ (px k = tx /\ py k = ty);
  inv_edges : forall k q c,
    k ∈ closedSet st -> (q, c) ∈ getPossibleMoves terrain k ->
    (k = cur /\ (q, c) ∈ pending) \/ known st q
}.

Lemma invariant_initial b0 cur :
  0 < b0 -> invariant cur [] (initialSearch start tx ty b0).
Proof.
  intros Hb. unfold initialSearch. constructor; simpl.
  - apply NoDup_singleton.
  - intros k. rewrite list_elem_of_singleton, lookup_insert_is_Some.
    rewrite lookup_empty. split; [intros ->; now left|].
    intros [->|[_ [? ?]]]; [reflexivity|discriminate].
  - intros k _. apply not_elem_of_empty.
  - intros k. unfold known; simpl. rewrite list_elem_of_singleton.
    rewrite lookup_singleton_is_Some. split; [intros ->; now left|].
    intros [->|H]; [reflexivity|]. now apply not_elem_of_empty in H.
  - intros k. unfold known; simpl. rewrite lookup_singleton_is_Some. intros <-.
    exists b0, []. rewrite !lookup_singleton_eq. repeat split; auto;
      apply start_inBounds.
  - unfold known; simpl. rewrite lookup_singleton_is_Some. reflexivity.
  - intros k Hk. now apply not_elem_of_empty in Hk.
  - intros k q c Hk. now apply not_elem_of_empty in Hk.
Qed.

Lemma invariant_drop cur mv pending st :
  invariant cur (mv :: pending) st -> known st mv.1 ->
  invariant cur pending st.
Proof.
  intros [] Hk. constructor; auto.
  intros k q c Hclosed Hedge.
  destruct (inv_edges0 k q c Hclosed Hedge) as [[-> Hin]|Hq]; [|now right].
  apply elem_of_cons in Hin as [<-|Hin]; [right; exact Hk|left; auto].
Qed.

Lemma known_insert st q g k :
  is_Some (<[q := g]> (gScore st) !! k) <-> k = q \/ known st k.
Proof.
  unfold known. rewrite lookup_insert_is_Some.
  destruct (decide (q = k)) as [->|Hne]; [tauto|].
  split; [intros [?|[_ ?]]; [congruence|now right]|].
  intros [->|?]; [congruence|right; auto].
Qed.

(** The loop body keeps the invariant and settles one pending edge. *)
Lemma relax_invariant cur mv pending st :
  invariant cur (mv :: pending) st ->
  cur ∈ closedSet st ->
  mv ∈ getPossibleMoves terrain cur ->
  invariant cur pending (relax tx ty cur st mv).
Proof.
  intros Hinv Hcur Hmv. destruct mv as [q c].
  assert (known st cur) as Hkc by (apply (inv_known _ _ _ Hinv); now right).
  destruct (inv_data _ _ _ Hinv cur Hkc)
    as (b & cmds & Hb & Hbpos & Hcmds & Hwalk & Hin).
  destruct (moves_inv _ _ _ _ Hmv) as [Hq Hc].
  unfold relax; simpl.
  case_bool_decide as Hclosed.
  { eapply invariant_drop; [exact Hinv|]. simpl.
    apply (inv_known _ _ _ Hinv). now right. }
  rewrite Hb, Hcmds; simpl.
  destruct (Z.leb_spec (b + commandCosts c) 0) as [Hle|Hgt].
  { exfalso. destruct Hc as [->|[->|[->|[[->| ->] _]]]]; simpl in Hle; try lia.
    apply Hclosed. rewrite Hq. simpl. exact Hcur. }
  match goal with |- invariant _ _ (if ?cond then _ else _) =>
    destruct cond eqn:Hbetter end.
  2:{ eapply invariant_drop; [exact Hinv|]. simpl. unfold known.
      destruct (gScore st !! q); [eauto|discriminate]. }
  assert (inBounds terrain (px q) (py q)) as Hqin.
  { destruct Hc as [->|[->|[->|[_ Hfree]]]]; try (rewrite Hq; exact Hin).
    now apply free_iff. }
  assert (q ∈ elements (if contains (openSet st) q then openSet st
                        else enqueue (openSet st) q
                               (default 0 (gScore st !! cur) + 1 + heuristic q tx ty))
          /\ (forall k, k ∈ elements (if contains (openSet st) q then openSet st
                        else enqueue (openSet st) q
                               (default 0 (gScore st !! cur) + 1 + heuristic q tx ty))
                        <-> k = q \/ k ∈ elements (openSet st))) as [Hqopen Hopen].
  { unfold contains. case_bool_decide as Hcont.
    - apply (inv_priorities _ _ _ Hinv) in Hcont. split; [assumption|].
      intros k. split; [now right|]. intros [->|H]; assumption.
    - split.
      + rewrite enqueue_elements. left.
      + intros k. now rewrite enqueue_elements, elem_of_cons. }
  destruct Hinv as [Hnd Hprio Hoc Hknown Hdata Hstart Hgoal Hedges].
  constructor; simpl.
  - unfold contains. case_bool_decide as Hcont; [assumption|].
    rewrite enqueue_elements. apply NoDup_cons. split; [|assumption].
    intros Hqin'. apply Hcont. now apply Hprio.
  - unfold contains. case_bool_decide as Hcont; [assumption|].
    intros k. rewrite enqueue_elements, elem_of_cons. simpl.
    rewrite lookup_insert_is_Some, Hprio.
    destruct (decide (q = k)) as [->|Hne]; [tauto|].
    split; [intros [?|?]; [congruence|right; auto]|].
    intros [?|[_ ?]]; [congruence|now right].
  - intros k Hk. apply Hopen in Hk as [->|Hk]; [assumption|now apply Hoc].
  - intros k. unfold known; simpl. rewrite known_insert, Hopen, Hknown. tauto.
  - intros k. unfold known; simpl. rewrite known_insert.
    destruct (decide (k = q)) as [->|Hne].
    + intros _. exists (b + commandCosts c), (cmds ++ [c]).
      rewrite !lookup_insert_eq. repeat split; try lia; try apply Hqin.
      rewrite walk_snoc, Hwalk. now symmetry.
    + intros [?|Hk]; [contradiction|].
      rewrite !lookup_insert_ne by congruence. now apply Hdata.
  - unfold known; simpl. rewrite known_insert. now right.
  - assumption.
  - intros k q' c' Hk Hedge.
    destruct (Hedges k q' c' Hk Hedge) as [[-> Hpend]|Hq'].
    + apply elem_of_cons in Hpend as [Heq|Hpend]; [|left; auto].
      inversion Heq; subst. right. unfold known; simpl.
      rewrite known_insert. now left.
    + right. unfold known; simpl. rewrite known_insert. now right.
Qed.

Lemma foldl_relax_invariant cur moves : forall st,
  invariant cur moves st ->
  cur ∈ closedSet st ->
  moves ⊆ getPossibleMoves terrain cur ->
  invariant cur [] (foldl (relax tx ty cur) st moves).
Proof.
  induction moves as [|mv moves IH]; intros st Hinv Hcur Hsub; simpl.
  - assumption.
  - apply IH.
    + apply relax_invariant; auto. apply Hsub. left.
    + now rewrite SearchFacts.relax_closedSet.
    + intros x Hx. apply Hsub. now right.
Qed.

(** Taking the head of the queue and closing it. *)
Lemma close_invariant cur0 st k rest :
  invariant cur0 [] st ->
  elements (openSet st) = k :: rest ->
  ~ (px k = tx /\ py k = ty) ->
  invariant k (getPossibleMoves terrain k)
    {| openSet := mkQueue rest (delete k (priorities (openSet st)));
       closedSet := {[ k ]} ∪ closedSet st;
       gScore := gScore st;
       batteryLevels := batteryLevels st;
       commandSequences := commandSequences st |}.
Proof.
  intros [Hnd Hprio Hoc Hknown Hdata Hstart Hgoal Hedges] Hq Hk.
  rewrite Hq in *. apply NoDup_cons in Hnd as [Hkrest Hnd].
  constructor; simpl.
  - assumption.
  - intros x. rewrite lookup_delete_is_Some, <- Hprio, elem_of_cons.
    split; [intros Hx; split; [intros ->; contradiction|now right]|].
    intros [Hne [?|?]]; [congruence|assumption].
  - intros x Hx. rewrite elem_of_union, elem_of_singleton.
    intros [->|Hc]; [contradiction|].
    eapply Hoc; [|exact Hc]. now right.
  - intros x. unfold known in *; simpl. rewrite Hknown, elem_of_cons.
    rewrite elem_of_union, elem_of_singleton. tauto.
  - assumption.
  - assumption.
  - intros x. rewrite elem_of_union, elem_of_singleton.
    intros [->|Hx]; [assumption|now apply Hgoal].
  - intros x q c. rewrite elem_of_union, elem_of_singleton.
    intros [->|Hx] Hedge; [left; auto|].
    destruct (Hedges x q c Hx Hedge) as [[_ Hnil]|Hq'];
      [now apply elem_of_nil in Hnil|now right].
Qed.

Lemma expand_invariant cur0 st k rest :
  invariant cur0 [] st ->
  elements (openSet st) = k :: rest ->
  ~ (px k = tx /\ py k = ty) ->
  invariant k []
    (expand terrain tx ty k
       {| openSet := mkQueue rest (delete k (priorities (openSet st)));
          closedSet := closedSet st;
          gScore := gScore st;
          batteryLevels := batteryLevels st;
          commandSequences := commandSequences st |}).
Proof.
  intros Hinv Hq Hk. unfold expand.
  cbn [openSet closedSet gScore batteryLevels commandSequences].
  apply foldl_relax_invariant.
  - eapply close_invariant; eauto.
  - simpl. set_solver.
  - reflexivity.
Qed.

(** *** Every cell can be reached *)

Definition edge (p q : Position) : Prop :=
  exists c, (q, c) ∈ getPossibleMoves terrain p.

Lemma edge_turn_left x y o :
  edge (mkPosition x y o) (mkPosition x y (getNewFacing o L)).
Proof. exists L. apply (moves_turn terrain (mkPosition x y o) L). now left. Qed.

Lemma reach_turn x y o o' :
  rtc edge (mkPosition x y o) (mkPosition x y o').
Proof.
  destruct o, o';
    repeat first [ apply rtc_refl
                 | eapply rtc_l; [apply edge_turn_left|]; simpl ].
Qed.

(** Moving [n] times with [c] while facing [o], when one such move
    shifts the pose by [(dx, dy)]. *)
Lemma reach_line o c dx dy :
  c = F \/ c = B ->
  (forall x y, step (mkPosition x y o) c = mkPosition (x + dx) (y + dy) o) ->
  forall (n : nat) x y,
    (forall i, 1 <= i <= Z.of_nat n ->
               inBounds terrain (x + i * dx) (y + i * dy)) ->
    rtc edge (mkPosition x y o)
        (mkPosition (x + Z.of_nat n * dx) (y + Z.of_nat n * dy) o).
Proof.
  intros Hc Hstep n. induction n as [|n IH]; intros x y Hin.
  - replace (x + Z.of_nat 0 * dx) with x by lia.
    replace (y + Z.of_nat 0 * dy) with y by lia. apply rtc_refl.
  - eapply rtc_l.
    + exists c. apply moves_move; [assumption|].
      rewrite Hstep. simpl. apply free_iff.
      specialize (Hin 1). replace (x + 1 * dx) with (x + dx) in Hin by lia.
      replace (y + 1 * dy) with (y + dy) in Hin by lia. apply Hin. lia.
    + rewrite Hstep.
      replace (x + Z.of_nat (Datatypes.S n) * dx)
        with (x + dx + Z.of_nat n * dx) by lia.
      replace (y + Z.of_nat (Datatypes.S n) * dy)
        with (y + dy + Z.of_nat n * dy) by lia.
      apply IH. intros i Hi. specialize (Hin (i + 1)).
      replace (x + dx + i * dx) with (x + (i + 1) * dx) by lia.
      replace (y + dy + i * dy) with (y + (i + 1) * dy) by lia.
      apply Hin. lia.
Qed.

Lemma reach_row x x' y :
  inBounds terrain x y -> inBounds terrain x' y ->
  rtc edge (mkPosition x y East) (mkPosition x' y East).
Proof.
  intros Hx Hx'. unfold inBounds in *.
  assert (forall c dx, c = F /\ dx = 1 \/ c = B /\ dx = -1 ->
          forall a b, step (mkPosition a b East) c = mkPosition (a + dx) (b + 0) East)
    as Hstep.
  { intros c dx [[-> ->]|[-> ->]] a b; unfold step, getNextPosition; simpl;
      f_equal; lia. }
  destruct (Z.le_gt_cases x x').
  - pose proof (reach_line East F 1 0 (or_introl eq_refl)
                  (Hstep F 1 (or_introl (conj eq_refl eq_refl))) (Z.to_nat (x' - x)) x y) as H1.
    replace (x + Z.of_nat (Z.to_nat (x' - x)) * 1) with x' in H1 by lia.
    replace (y + Z.of_nat (Z.to_nat (x' - x)) * 0) with y in H1 by lia.
    apply H1. intros i Hi. unfold inBounds. lia.
  - pose proof (reach_line East B (-1) 0 (or_intror eq_refl)
                  (Hstep B (-1) (or_intror (conj eq_refl eq_refl))) (Z.to_nat (x - x')) x y) as H1.
    replace (x + Z.of_nat (Z.to_nat (x - x')) * -1) with x' in H1 by lia.
    replace (y + Z.of_nat (Z.to_nat (x - x')) * 0) with y in H1 by lia.
    apply H1. intros i Hi. unfold inBounds. lia.
Qed.

Lemma reach_column x y y' :
  inBounds terrain x y -> inBounds terrain x y' ->
  rtc edge (mkPosition x y South) (mkPosition x y' South).
Proof.
  intros Hy Hy'. unfold inBounds in *.
  assert (forall c dy, c = F /\ dy = 1 \/ c = B /\ dy = -1 ->
          forall a b, step (mkPosition a b South) c = mkPosition (a + 0) (b + dy) South)
    as Hstep.
  { intros c dy [[-> ->]|[-> ->]] a b; unfold step, getNextPosition; simpl;
      f_equal; lia. }
  destruct (Z.le_gt_cases y y').
  - pose proof (reach_line South F 0 1 (or_introl eq_refl)
                  (Hstep F 1 (or_introl (conj eq_refl eq_refl))) (Z.to_nat (y' - y)) x y) as H1.
    replace (x + Z.of_nat (Z.to_nat (y' - y)) * 0) with x in H1 by lia.
    replace (y + Z.of_nat (Z.to_nat (y' - y)) * 1) with y' in H1 by lia.
    apply H1. intros i Hi. unfold inBounds. lia.
  - pose proof (reach_line South B 0 (-1) (or_intror eq_refl)
                  (Hstep B (-1) (or_intror (conj eq_refl eq_refl))) (Z.to_nat (y - y')) x y) as H1.
    replace (x + Z.of_nat (Z.to_nat (y - y')) * 0) with x in H1 by lia.
    replace (y + Z.of_nat (Z.to_nat (y - y')) * -1) with y' in H1 by lia.
    apply H1. intros i Hi. unfold inBounds. lia.
Qed.

Hypothesis target_inBounds : inBounds terrain tx ty.

Lemma target_reachable :
  exists q, rtc edge start q /\ px q = tx /\ py q = ty.
Proof.
  exists (mkPosition tx ty South). split; [|auto].
  destruct start as [x0 y0 o]. simpl in *.
  unfold inBounds in *.
  eapply rtc_trans; [apply (reach_turn x0 y0 o East)|].
  eapply rtc_trans; [apply (reach_row x0 tx y0); unfold inBounds; lia|].
  eapply rtc_trans; [apply (reach_turn tx y0 East South)|].
  apply reach_column; unfold inBounds; lia.
Qed.

(** When the queue runs empty, everything reachable has been closed. *)
Lemma empty_queue_closed cur0 st :
  invariant cur0 [] st ->
  elements (openSet st) = [] ->
  forall q, rtc edge start q -> q ∈ closedSet st.
Proof.
  intros Hinv Hempty.
  assert (forall k, known st k -> k ∈ closedSet st) as Hall.
  { intros k Hk. apply (inv_known _ _ _ Hinv) in Hk as [Hk|Hk]; [|assumption].
    rewrite Hempty in Hk. now apply elem_of_nil in Hk. }
  apply (rtc_ind_r (fun q => q ∈ closedSet st) start).
  - apply Hall. apply (inv_start _ _ _ Hinv).
  - intros y z Hy [c Hc] IH.
    destruct (inv_edges _ _ _ Hinv y z c IH Hc) as [[_ Hnil]|Hz];
      [now apply elem_of_nil in Hnil|now apply Hall].
Qed.

(** The loop returns, with success, a sequence that leads to the
    target. *)
Lemma search_complete b0 fuel : forall cur0 st,
  invariant cur0 [] st ->
  (size ((list_to_set (gridPoses terrain) : gset Position) ∖ closedSet st)
   < fuel)%nat ->
  exists path,
    search fuel terrain tx ty b0 st = Some path
    /\ success path = true
    /\ px (walk start (commands path)) = tx
    /\ py (walk start (commands path)) = ty.
Proof.
  induction fuel as [|fuel IH]; intros cur0 st Hinv Hsize; [lia|].
  simpl. unfold dequeue.
  destruct (elements (openSet st)) as [|k rest] eqn:Hq.
  - exfalso. destruct target_reachable as (q & Hreach & Hx & Hy).
    apply (inv_goal _ _ _ Hinv q); [|auto].
    eapply empty_queue_closed; eauto.
  - assert (known st k) as Hk.
    { apply (inv_known _ _ _ Hinv). left. rewrite Hq. left. }
    destruct (inv_data _ _ _ Hinv k Hk) as (b & cmds & Hb & _ & Hcmds & Hwalk & Hin).
    destruct (bool_decide (px k = tx) && bool_decide (py k = ty)) eqn:Hgoal.
    + apply andb_prop in Hgoal as [Hx Hy].
      apply bool_decide_eq_true in Hx, Hy.
      eexists. split; [reflexivity|]. simpl. rewrite Hcmds. simpl.
      rewrite Hwalk. auto.
    + assert (~ (px k = tx /\ py k = ty)) as Hng.
      { intros [Hx Hy]. apply andb_false_iff in Hgoal as [H|H];
          apply bool_decide_eq_false in H; contradiction. }
      eapply IH.
      * eapply expand_invariant; eauto.
      * unfold expand. rewrite SearchFacts.foldl_relax_closedSet. simpl.
        assert (k ∉ closedSet st) as Hkc.
        { apply (inv_open _ _ _ Hinv). rewrite Hq. left. }
        assert (k ∈ (list_to_set (gridPoses terrain) : gset Position)) as Hkg.
        { apply elem_of_list_to_set. now apply gridPoses_elem. }
        assert (size ((list_to_set (gridPoses terrain) : gset Position)
                        ∖ ({[k]} ∪ closedSet st))
                < size ((list_to_set (gridPoses terrain) : gset Position)
                          ∖ closedSet st))%nat as Hlt.
        { apply subset_size. split.
          - intros x. rewrite !elem_of_difference, elem_of_union. tauto.
          - intros Hsub. specialize (Hsub k).
            rewrite !elem_of_difference, elem_of_union, elem_of_singleton in Hsub.
            tauto. }
        lia.
Qed.

End Completeness.

Lemma findPath_complete fuel terrain start tx ty b0 :
  (forall x y, cellAt terrain x y <> Some "Obs"%string) ->
  inBounds terrain (px start) (py start) ->
  inBounds terrain tx ty ->
  0 < b0 ->
  (4 * (Z.to_nat (rows terrain) * Z.to_nat (cols terrain)) < fuel)%nat ->
  exists path,
    findPath fuel terrain start tx ty b0 = Some path
    /\ success path = true
    /\ px (walk start (commands path)) = tx
    /\ py (walk start (commands path)) = ty.
Proof.
  intros Hfree Hstart Htarget Hb Hfuel. unfold findPath.
  eapply (search_complete terrain start tx ty Hfree Hstart Htarget b0 fuel start).
  - now apply invariant_initial.
  - unfold initialSearch; simpl.
    pose proof (size_list_to_set_le (gridPoses terrain)) as Hle.
    rewrite length_gridPoses in Hle.
    assert (size ((list_to_set (gridPoses terrain) : gset Position) ∖ ∅)
            <= size (list_to_set (gridPoses terrain) : gset Position))%nat
      by (apply subseteq_size; intros x; rewrite elem_of_difference; tauto).
    lia.
Qed.

End OpenGrid.

(** ** Targets straight ahead or straight behind

    When the target lies on the line along which the robot faces, the
    search walks down that line: the next cell of the line always enters
    the queue with the least priority and is taken next. *)

Module StraightLine.
Import PathfindingService OpenGrid.

Lemma priorityOf_insert pr q p k :
  priorityOf (<[q := p]> pr) k = if decide (k = q) then p else priorityOf pr k.
Proof.
  unfold priorityOf. destruct (decide (k = q)) as [->|Hne].
  - now rewrite lookup_insert_eq.
  - now rewrite lookup_insert_ne by congruence.
Qed.

Lemma priorityOf_delete pr q k :
  k <> q -> priorityOf (delete q pr) k = priorityOf pr k.
Proof. intros Hne. unfold priorityOf. now rewrite lookup_delete_ne by congruence. Qed.

(** An element whose priority is strictly the least ends up in front. *)
Lemma sort_head_min pr l k :
  k ∈ l ->
  (forall x, x ∈ l -> x <> k -> priorityOf pr k < priorityOf pr x) ->
  exists rest, sortByPriority pr l = k :: rest.
Proof.
  unfold sortByPriority. induction l as [|a l IH]; intros Hin Hmin.
  - now apply elem_of_nil in Hin.
  - simpl. destruct (decide (a = k)) as [->|Hne].
    + destruct (foldr (insertSorted pr) [] l) as [|s S] eqn:HS; simpl; [eauto|].
      assert (s ∈ l) as Hs.
      { rewrite <- (sortByPriority_perm pr l). unfold sortByPriority.
        rewrite HS. left. }
      destruct (decide (s = k)) as [->|Hsk].
      * rewrite Z.leb_refl. eauto.
      * assert (priorityOf pr k < priorityOf pr s) as Hlt
            by (apply Hmin; [now right|assumption]).
        destruct (Z.leb_spec (priorityOf pr k) (priorityOf pr s)); [eauto|lia].
    + destruct IH as [rest Hrest].
      * apply elem_of_cons in Hin as [->|Hin]; [contradiction|assumption].
      * intros x Hx. apply Hmin. now right.
      * rewrite Hrest. simpl.
        assert (priorityOf pr k < priorityOf pr a) as Hlt
            by (apply Hmin; [left|assumption]).
        destruct (Z.leb_spec (priorityOf pr a) (priorityOf pr k)); [lia|eauto].
Qed.

Lemma replicate_snoc {A} (n : nat) (x : A) :
  replicate n x ++ [x] = replicate (Datatypes.S n) x.
Proof. induction n as [|n IH]; simpl; [reflexivity|now rewrite IH]. Qed.

Section Line.
Variable terrain : Terrain.
Variables x0 y0 : Z.
Variable o : Orientation.
Variable c : Command.
Variables dx dy : Z.
Variable d : nat.

Hypothesis no_obstacle : forall x y, cellAt terrain x y <> Some "Obs"%string.
Hypothesis c_move : c = F \/ c = B.
Hypothesis unit_step :
  (dx = 1 /\ dy = 0) \/ (dx = -1 /\ dy = 0) \/ (dx = 0 /\ dy = 1)
  \/ (dx = 0 /\ dy = -1).
Hypothesis step_along : forall x y,
  step (mkPosition x y o) c = mkPosition (x + dx) (y + dy) o.
Hypothesis step_against : forall x y cmd,
  cmd = F \/ cmd = B -> cmd <> c ->
  step (mkPosition x y o) cmd = mkPosition (x - dx) (y - dy) o.

(** The poses of the line, [node 0] being the start. *)
Definition node (i : Z) : Position :=
  mkPosition (x0 + i * dx) (y0 + i * dy) o.

Definition tx : Z := x0 + Z.of_nat d * dx.
Definition ty : Z := y0 + Z.of_nat d * dy.

Hypothesis line_inBounds : forall i, 0 <= i <= Z.of_nat d ->
  inBounds terrain (px (node i)) (py (node i)).

Lemma node_inj i j : node i = node j -> i = j.
Proof.
  unfold node. intros H. inversion H.
  destruct unit_step as [[-> ->]|[[-> ->]|[[-> ->]|[-> ->]]]]; lia.
Qed.

Lemma heuristic_node i : heuristic (node i) tx ty = Z.abs (Z.of_nat d - i).
Proof.
  unfold heuristic, manhattanDistance, node, tx, ty; simpl.
  destruct unit_step as [[-> ->]|[[-> ->]|[[-> ->]|[-> ->]]]]; lia.
Qed.

Lemma node_goal i : px (node i) = tx /\ py (node i) = ty <-> i = Z.of_nat d.
Proof.
  unfold node, tx, ty; simpl.
  destruct unit_step as [[-> ->]|[[-> ->]|[[-> ->]|[-> ->]]]]; lia.
Qed.

Lemma step_node i : step (node i) c = node (i + 1).
Proof.
  unfold node. rewrite step_along. f_equal; lia.
Qed.

(** The neighbours of a pose of the line: the next pose of the line, or
    a pose that is no pose of the line further on and no closer to the
    target. *)
Lemma classify i q cmd :
  0 <= i < Z.of_nat d ->
  (q, cmd) ∈ getPossibleMoves terrain (node i) ->
  (cmd = c /\ q = node (i + 1))
  \/ (q <> node (i + 1)
      /\ (forall j, i + 1 < j -> q <> node j)
      /\ Z.of_nat d - i <= heuristic q tx ty).
Proof.
  intros Hi Hmv. apply moves_inv in Hmv as [-> Hcmd].
  destruct (decide (cmd = c)) as [->|Hne].
  { left. split; [reflexivity|apply step_node]. }
  right.
  assert (forall j, i + 1 <= j ->
            (px (step (node i) cmd), py (step (node i) cmd))
            <> (px (node j), py (node j))
          /\ Z.of_nat d - i <= heuristic (step (node i) cmd) tx ty) as Hpos.
  { intros j Hj.
    assert (step (node i) cmd = mkPosition (px (node i)) (py (node i))
                                  (facing (step (node i) cmd))
            \/ step (node i) cmd = node (i - 1)) as [Heq|Heq].
    { destruct Hcmd as [->|[->|[->|[Hfb _]]]].
      - left. reflexivity.
      - left. reflexivity.
      - left. reflexivity.
      - right. unfold node. rewrite step_against by assumption.
        unfold node. f_equal; lia. }
    - rewrite Heq. unfold heuristic, manhattanDistance, node, tx, ty. simpl.
      destruct unit_step as [[-> ->]|[[-> ->]|[[-> ->]|[-> ->]]]];
        (split; [intros Hpq; inversion Hpq; lia|lia]).
    - rewrite Heq, heuristic_node. unfold node. simpl.
      destruct unit_step as [[-> ->]|[[-> ->]|[[-> ->]|[-> ->]]]];
        (split; [intros Hpq; inversion Hpq; lia|lia]). }
  split; [|split].
  - intros Heq. destruct (Hpos (i + 1)) as [Hp _]; [lia|]. apply Hp. now rewrite Heq.
  - intros j Hj Heq. destruct (Hpos j) as [Hp _]; [lia|]. apply Hp. now rewrite Heq.
  - destruct (Hpos (i + 1)) as [_ Hh]; [lia|exact Hh].
Qed.

(** What holds while the moves of [node i] are looked at: every queued
    pose other than [node (i + 1)] has a priority above [d]; once
    [node (i + 1)] is queued it is in front, with priority [d] and the
    straight command sequence; no pose further down the line is known. *)
Record onTrack (i : Z) (pending : list (Position * Command)) (st : Search)
  : Prop := mkOnTrack {
  trk_low : forall k,
    k ∈ elements (openSet st) -> k <> node (i + 1) ->
    Z.of_nat d + 1 <= priorityOf (priorities (openSet st)) k;
  trk_next :
    node (i + 1) ∈ elements (openSet st) ->
    (exists rest, elements (openSet st) = node (i + 1) :: rest)
    /\ priorityOf (priorities (openSet st)) (node (i + 1)) = Z.of_nat d
    /\ gScore st !! node (i + 1) = Some (i + 1)
    /\ commandSequences st !! node (i + 1)
       = Some (replicate (Z.to_nat (i + 1)) c);
  trk_far : forall j, i + 1 < j -> gScore st !! node j = None;
  trk_cur :
    gScore st !! node i = Some i
    /\ commandSequences st !! node i = Some (replicate (Z.to_nat i) c);
  trk_todo :
    node (i + 1) ∈ elements (openSet st)
    \/ (gScore st !! node (i + 1) = None /\ (node (i + 1), c) ∈ pending)
}.

Lemma relax_onTrack i mv pending st :
  0 <= i < Z.of_nat d ->
  invariant terrain (node 0) tx ty (node i) (mv :: pending) st ->
  onTrack i (mv :: pending) st ->
  node i ∈ closedSet st ->
  mv ∈ getPossibleMoves terrain (node i) ->
  onTrack i pending (relax tx ty (node i) st mv).
Proof.
  intros Hi Hinv Htrk Hcur Hmv. destruct mv as [q cmd].
  assert (known st (node i)) as Hkc by (apply (inv_known _ _ _ _ _ _ _ Hinv); now right).
  destruct (inv_data _ _ _ _ _ _ _ Hinv (node i) Hkc)
    as (b & cmds & Hb & Hbpos & Hcmds & _ & _).
  destruct Htrk as [Hlow Hnext Hfar [Hgcur Hccur] Htodo].
  pose proof (classify i q cmd Hi Hmv) as Hclass.
  destruct (moves_inv _ _ _ _ Hmv) as [Hq Hcmd].
  assert (known st q -> onTrack i pending st) as Hdrop.
  { intros [g Hg]. constructor; auto.
    destruct Htodo as [?|[Hnone Hpend]]; [now left|right].
    split; [assumption|].
    apply elem_of_cons in Hpend as [Heq|?]; [|assumption].
    inversion Heq; subst. congruence. }
  unfold relax; simpl.
  case_bool_decide as Hclosed.
  { apply Hdrop. apply (inv_known _ _ _ _ _ _ _ Hinv). now right. }
  rewrite Hb, Hccur, Hgcur; simpl.
  destruct (Z.leb_spec (b + commandCosts cmd) 0) as [Hle|Hgt].
  { exfalso. destruct Hcmd as [->|[->|[->|[[->| ->] _]]]]; simpl in Hle; try lia.
    apply Hclosed. rewrite Hq. simpl. exact Hcur. }
  match goal with |- onTrack _ _ (if ?cond then _ else _) =>
    destruct cond eqn:Hbetter end.
  2:{ apply Hdrop. unfold known. destruct (gScore st !! q); [eauto|discriminate]. }
  assert (q <> node i) as Hqi by (intros ->; contradiction).
  destruct Hclass as [[-> ->]|(Hq1 & Hqfar & Hh)].
  - (* the next pose of the line *)
    assert (gScore st !! node (i + 1) = None) as Hnone.
    { destruct Htodo as [Hin|[Hnone _]]; [|assumption].
      destruct (Hnext Hin) as (_ & _ & Hg & _). rewrite Hg in Hbetter.
      apply Z.ltb_lt in Hbetter. lia. }
    assert (node (i + 1) ∉ elements (openSet st)) as Hnotin.
    { intros Hin.
      assert (known st (node (i + 1))) as [g Hg]
          by (apply (inv_known _ _ _ _ _ _ _ Hinv); now left).
      congruence. }
    assert (contains (openSet st) (node (i + 1)) = false) as ->.
    { unfold contains. apply bool_decide_eq_false. intros Hs.
      apply Hnotin. now apply (inv_priorities _ _ _ _ _ _ _ Hinv). }
    rewrite heuristic_node.
    replace (i + 1 + Z.abs (Z.of_nat d - (i + 1))) with (Z.of_nat d) by lia.
    constructor; simpl.
    + intros k Hk Hne. rewrite priorityOf_insert.
      destruct (decide (k = node (i + 1))); [contradiction|].
      apply Hlow; [|assumption].
      rewrite sortByPriority_perm, elem_of_app, list_elem_of_singleton in Hk.
      destruct Hk; [assumption|contradiction].
    + intros _. split; [|split; [|split]].
      * apply sort_head_min.
        -- rewrite elem_of_app, list_elem_of_singleton. now right.
        -- intros x Hx Hne. rewrite !priorityOf_insert.
           destruct (decide (node (i + 1) = node (i + 1))); [|contradiction].
           destruct (decide (x = node (i + 1))); [contradiction|].
           rewrite elem_of_app, list_elem_of_singleton in Hx.
           destruct Hx as [Hx|Hx]; [|contradiction].
           specialize (Hlow x Hx Hne). lia.
      * rewrite priorityOf_insert.
        destruct (decide (node (i + 1) = node (i + 1))); [reflexivity|contradiction].
      * apply lookup_insert_eq.
      * rewrite lookup_insert_eq, replicate_snoc. do 2 f_equal. lia.
    + intros j Hj. rewrite lookup_insert_ne; [now apply Hfar|].
      intros Heq. apply node_inj in Heq. lia.
    + split; rewrite lookup_insert_ne; auto.
    + left. rewrite sortByPriority_perm, elem_of_app, list_elem_of_singleton. now right.
  - (* some other neighbour *)
    assert (forall k, k ∈ elements
              (if contains (openSet st) q then openSet st
               else enqueue (openSet st) q (i + 1 + heuristic q tx ty))
            <-> k ∈ elements (openSet st)
                \/ (k = q /\ contains (openSet st) q = false)) as Hel.
    { intros k. destruct (contains (openSet st) q) eqn:Hcont.
      - split; [now left|]. intros [?|[_ ?]]; [assumption|discriminate].
      - rewrite enqueue_elements, elem_of_cons. split.
        + intros [->|?]; [right; auto|now left].
        + intros [?|[-> _]]; [now right|now left]. }
    assert (forall k, k <> q ->
              priorityOf (priorities
                (if contains (openSet st) q then openSet st
                 else enqueue (openSet st) q (i + 1 + heuristic q tx ty))) k
              = priorityOf (priorities (openSet st)) k) as Hpr.
    { intros k Hk. destruct (contains (openSet st) q); [reflexivity|]. simpl.
      rewrite priorityOf_insert. destruct (decide (k = q)); [contradiction|reflexivity]. }
    assert (forall k, k ∈ elements
              (if contains (openSet st) q then openSet st
               else enqueue (openSet st) q (i + 1 + heuristic q tx ty)) ->
            k <> node (i + 1) ->
            Z.of_nat d + 1 <= priorityOf (priorities
                (if contains (openSet st) q then openSet st
                 else enqueue (openSet st) q (i + 1 + heuristic q tx ty))) k)
      as Hlow'.
    { intros k Hk Hne. apply Hel in Hk as [Hk|[-> Hcont]].
      - destruct (decide (k = q)) as [->|Hkq].
        + destruct (contains (openSet st) q); [now apply Hlow|]. simpl.
          rewrite priorityOf_insert. destruct (decide (q = q)); [lia|contradiction].
        + rewrite Hpr by assumption. now apply Hlow.
      - rewrite Hcont. simpl. rewrite priorityOf_insert.
        destruct (decide (q = q)); [lia|contradiction]. }
    constructor; simpl.
    + exact Hlow'.
    + intros Hin.
      assert (node (i + 1) ∈ elements (openSet st)) as Hin0.
      { apply Hel in Hin as [?|[Heq _]]; [assumption|]. now symmetry in Heq. }
      destruct (Hnext Hin0) as ([rest Hrest] & Hprio & Hg & Hc).
      split; [|split; [|split]].
      * destruct (contains (openSet st) q) eqn:Hcont; [eauto|].
        simpl. apply sort_head_min.
        -- rewrite elem_of_app. now left.
        -- intros x Hx Hne.
           assert (x ∈ elements (enqueue (openSet st) q
                                   (i + 1 + heuristic q tx ty))) as Hx'.
           { rewrite enqueue_elements, elem_of_cons.
             rewrite elem_of_app, list_elem_of_singleton in Hx. tauto. }
           specialize (Hlow' x Hx' Hne). simpl in Hlow'.
           rewrite (priorityOf_insert _ _ _ (node (i + 1))).
           destruct (decide (node (i + 1) = q)); [congruence|]. lia.
      * rewrite Hpr by congruence. exact Hprio.
      * rewrite lookup_insert_ne by congruence. exact Hg.
      * rewrite lookup_insert_ne by congruence. exact Hc.
    + intros j Hj. rewrite lookup_insert_ne; [now apply Hfar|].
      intros Heq. now apply (Hqfar j).
    + split; rewrite lookup_insert_ne; auto.
    + destruct Htodo as [Hin|[Hnone Hpend]].
      * left. apply Hel. now left.
      * right. split; [rewrite lookup_insert_ne; [assumption|congruence]|].
        apply elem_of_cons in Hpend as [Heq|?]; [|assumption].
        inversion Heq. congruence.
Qed.

Lemma foldl_relax_onTrack i moves : forall st,
  0 <= i < Z.of_nat d ->
  invariant terrain (node 0) tx ty (node i) moves st ->
  onTrack i moves st ->
  node i ∈ closedSet st ->
  moves ⊆ getPossibleMoves terrain (node i) ->
  invariant terrain (node 0) tx ty (node i) [] (foldl (relax tx ty (node i)) st moves)
  /\ onTrack i [] (foldl (relax tx ty (node i)) st moves).
Proof.
  induction moves as [|mv moves IH]; intros st Hi Hinv Htrk Hcur Hsub; simpl.
  - auto.
  - apply IH; auto.
    + apply relax_invariant; auto. apply Hsub. left.
    + apply relax_onTrack; auto. apply Hsub. left.
    + now rewrite SearchFacts.relax_closedSet.
    + intros x Hx. apply Hsub. now right.
Qed.

(** The state at the head of the loop when [node i] is about to be
    taken from the queue. *)
Definition atNode (i : Z) (st : Search) : Prop :=
  (exists cur0, invariant terrain (node 0) tx ty cur0 [] st)
  /\ (exists rest,
        elements (openSet st) = node i :: rest
        /\ forall k, k ∈ rest ->
             Z.of_nat d + 1 <= priorityOf (priorities (openSet st)) k)
  /\ gScore st !! node i = Some i
  /\ commandSequences st !! node i = Some (replicate (Z.to_nat i) c)
  /\ forall j, i < j -> gScore st !! node j = None.

Lemma atNode_expand i st rest :
  0 <= i < Z.of_nat d ->
  atNode i st ->
  elements (openSet st) = node i :: rest ->
  atNode (i + 1)
    (expand terrain tx ty (node i)
       {| openSet := mkQueue rest (delete (node i) (priorities (openSet st)));
          closedSet := closedSet st;
          gScore := gScore st;
          batteryLevels := batteryLevels st;
          commandSequences := commandSequences st |}).
Proof.
  intros Hi ([cur0 Hinv] & (rest0 & Hq0 & Hlow) & Hg & Hc & Hfar) Hq.
  rewrite Hq in Hq0. inversion Hq0; subst rest0. clear Hq0.
  assert (~ (px (node i) = tx /\ py (node i) = ty)) as Hng.
  { rewrite node_goal. lia. }
  pose proof (close_invariant terrain (node 0) tx ty cur0 st (node i) rest
                Hinv Hq Hng) as Hinv1.
  assert (NoDup (node i :: rest)) as Hnd.
  { rewrite <- Hq. apply (inv_nodup _ _ _ _ _ _ _ Hinv). }
  apply NoDup_cons in Hnd as [Hnotin Hnd].
  unfold expand. cbn [openSet closedSet gScore batteryLevels commandSequences].
  destruct (foldl_relax_onTrack i (getPossibleMoves terrain (node i))
              {| openSet := mkQueue rest (delete (node i) (priorities (openSet st)));
                 closedSet := {[node i]} ∪ closedSet st;
                 gScore := gScore st;
                 batteryLevels := batteryLevels st;
                 commandSequences := commandSequences st |})
    as [Hinv2 Htrk2]; auto.
  - constructor; simpl.
    + intros k Hk Hne. rewrite priorityOf_delete.
      * apply Hlow. assumption.
      * intros ->. contradiction.
    + intros Hin. exfalso.
      assert (known st (node (i + 1))) as [g Hk].
      { apply (inv_known _ _ _ _ _ _ _ Hinv). left. rewrite Hq. now right. }
      rewrite Hfar in Hk by lia. discriminate.
    + intros j Hj. apply Hfar. lia.
    + auto.
    + right. split; [apply Hfar; lia|].
      rewrite <- step_node. apply moves_move; [exact c_move|].
      rewrite step_node. apply (free_iff terrain no_obstacle).
      apply line_inBounds. lia.
  - simpl. apply elem_of_union. left. now apply elem_of_singleton.
  - destruct Htrk2 as [Hlow2 Hnext2 Hfar2 _ Htodo2].
    destruct Htodo2 as [Hin|[_ Hnil]]; [|now apply elem_of_nil in Hnil].
    destruct (Hnext2 Hin) as ([rest' Hrest'] & Hprio & Hg' & Hc').
    split; [eauto|]. split; [|split; [exact Hg'|split; [exact Hc'|]]].
    + exists rest'. split; [exact Hrest'|].
      intros k Hk. apply Hlow2.
      * rewrite Hrest'. now right.
      * intros ->.
        pose proof (inv_nodup _ _ _ _ _ _ _ Hinv2) as Hnd2.
        rewrite Hrest' in Hnd2. apply NoDup_cons in Hnd2 as [Hn _]. contradiction.
    + intros j Hj. apply Hfar2. lia.
Qed.

Lemma search_unfold fuel b0 st :
  search (Datatypes.S fuel) terrain tx ty b0 st =
  match dequeue (openSet st) with
  | None => Some (mkPath [] b0 false)
  | Some (currentKey, q) =>
      if bool_decide (px currentKey = tx) && bool_decide (py currentKey = ty)
      then Some (mkPath (default [] (commandSequences st !! currentKey))
                        (default 0 (batteryLevels st !! currentKey)) true)
      else search fuel terrain tx ty b0
             (expand terrain tx ty currentKey
                {| openSet := q;
                   closedSet := closedSet st;
                   gScore := gScore st;
                   batteryLevels := batteryLevels st;
                   commandSequences := commandSequences st |})
  end.
Proof. reflexivity. Qed.

(** From [node i] the loop takes [d - i] more turns and returns [d]
    times the command [c]. *)
Lemma search_line b0 (n : nat) : forall i st fuel,
  0 <= i -> i + Z.of_nat n = Z.of_nat d ->
  atNode i st ->
  (n < fuel)%nat ->
  exists b,
    search fuel terrain tx ty b0 st = Some (mkPath (replicate d c) b true).
Proof.
  induction n as [|n IH]; intros i st fuel Hi Hn Hat Hfuel.
  - destruct fuel as [|fuel]; [lia|].
    destruct Hat as (_ & (rest & Hq & _) & _ & Hc & _).
    rewrite search_unfold. unfold dequeue. rewrite Hq.
    assert (i = Z.of_nat d) as -> by lia.
    destruct (proj2 (node_goal (Z.of_nat d)) eq_refl) as [Hx Hy].
    rewrite !bool_decide_eq_true_2 by assumption. simpl.
    rewrite Hc, Nat2Z.id. simpl. eauto.
  - destruct fuel as [|fuel]; [lia|].
    pose proof Hat as (_ & (rest & Hq & _) & _).
    rewrite search_unfold. unfold dequeue. rewrite Hq.
    assert (bool_decide (px (node i) = tx) && bool_decide (py (node i) = ty) = false)
      as ->.
    { apply andb_false_iff.
      destruct (decide (px (node i) = tx)) as [Hx|Hx];
        [|left; now apply bool_decide_eq_false].
      right. apply bool_decide_eq_false. intros Hy.
      assert (i = Z.of_nat d) by (apply node_goal; auto). lia. }
    apply (IH (i + 1)); try lia.
    apply atNode_expand; auto. lia.
Qed.

Lemma findPath_line b0 fuel :
  0 < b0 -> (d < fuel)%nat ->
  exists b,
    findPath fuel terrain (node 0) tx ty b0
    = Some (mkPath (replicate d c) b true).
Proof.
  intros Hb Hfuel. unfold findPath.
  apply (search_line b0 d 0); try lia.
  assert (inBounds terrain (px (node 0)) (py (node 0))) as Hstart
      by (apply line_inBounds; lia).
  split; [exists (node 0); now apply invariant_initial|].
  unfold initialSearch; simpl.
  split; [|split; [|split]].
  - exists []. split; [reflexivity|]. intros k Hk. now apply elem_of_nil in Hk.
  - apply lookup_singleton_eq.
  - apply lookup_singleton_eq.
  - intros j Hj. apply lookup_singleton_ne. intros Heq. apply node_inj in Heq. lia.
Qed.

End Line.

(** The displacement of one move, by facing. *)
Definition heading (o : Orientation) (c : Command) : Z * Z :=
  match o, c with
  | East, F | West, B => (1, 0)
  | East, B | West, F => (-1, 0)
  | South, F | North, B => (0, 1)
  | South, B | North, F => (0, -1)
  | _, _ => (0, 0)
  end.

Lemma findPath_along terrain x0 y0 o c (d : nat) b0 fuel :
  (forall x y, cellAt terrain x y <> Some "Obs"%string) ->
  c = F \/ c = B ->
  inBounds terrain x0 y0 ->
  inBounds terrain (x0 + Z.of_nat d * (heading o c).1)
                   (y0 + Z.of_nat d * (heading o c).2) ->
  0 < b0 -> (d < fuel)%nat ->
  exists b,
    findPath fuel terrain (mkPosition x0 y0 o)
      (x0 + Z.of_nat d * (heading o c).1) (y0 + Z.of_nat d * (heading o c).2) b0
    = Some (mkPath (replicate d c) b true).
Proof.
  intros Hfree Hc Hstart Htarget Hb Hfuel.
  pose proof (findPath_line terrain x0 y0 o c (heading o c).1 (heading o c).2 d
                Hfree Hc) as Hline.
  unfold tx, ty in Hline.
  replace (node x0 y0 o (heading o c).1 (heading o c).2 0)
    with (mkPosition x0 y0 o) in Hline by (unfold node; f_equal; lia).
  apply Hline; auto.
  - destruct o, Hc as [->| ->]; simpl; auto.
  - intros x y. destruct o, Hc as [->| ->]; unfold step, getNextPosition; simpl;
      f_equal; lia.
  - intros x y cmd [->| ->] Hne; destruct o, Hc as [->| ->];
      try contradiction; unfold step, getNextPosition; simpl; f_equal; lia.
  - intros i Hi. unfold node, inBounds in *. simpl.
    destruct o, Hc as [->| ->]; simpl in *; lia.
Qed.

(** The target is on the line along which the robot faces. *)
Definition onAxis (start : Position) (tx ty : Z) : Prop :=
  match facing start with
  | East | West => py start = ty
  | North | South => px start = tx
  end.

Global Instance onAxis_dec start tx ty : Decision (onAxis start tx ty).
Proof. unfold onAxis. destruct (facing start); apply _. Defined.

Lemma findPath_straight fuel terrain start tx ty b0 :
  (forall x y, cellAt terrain x y <> Some "Obs"%string) ->
  inBounds terrain (px start) (py start) ->
  inBounds terrain tx ty ->
  0 < b0 ->
  onAxis start tx ty ->
  (Z.to_nat (manhattanDistance (px start) (py start) tx ty) < fuel)%nat ->
  exists cmds b,
    findPath fuel terrain start tx ty b0 = Some (mkPath cmds b true)
    /\ Z.of_nat (length cmds) = manhattanDistance (px start) (py start) tx ty.
Proof.
  intros Hfree Hstart Htarget Hb Haxis Hfuel.
  destruct start as [x0 y0 o]. unfold onAxis, manhattanDistance in *. simpl in *.
  assert (exists c (d : nat),
            (c = F \/ c = B)
            /\ tx = x0 + Z.of_nat d * (heading o c).1
            /\ ty = y0 + Z.of_nat d * (heading o c).2
            /\ Z.of_nat d = Z.abs (x0 - tx) + Z.abs (y0 - ty))
    as (c & d & Hc & Hx & Hy & Hd).
  { destruct o; subst.
    - destruct (Z.le_gt_cases ty y0);
        [exists F, (Z.to_nat (y0 - ty))|exists B, (Z.to_nat (ty - y0))];
        simpl; repeat split; auto; lia.
    - destruct (Z.le_gt_cases x0 tx);
        [exists F, (Z.to_nat (tx - x0))|exists B, (Z.to_nat (x0 - tx))];
        simpl; repeat split; auto; lia.
    - destruct (Z.le_gt_cases y0 ty);
        [exists F, (Z.to_nat (ty - y0))|exists B, (Z.to_nat (y0 - ty))];
        simpl; repeat split; auto; lia.
    - destruct (Z.le_gt_cases tx x0);
        [exists F, (Z.to_nat (x0 - tx))|exists B, (Z.to_nat (tx - x0))];
        simpl; repeat split; auto; lia. }
  destruct (findPath_along terrain x0 y0 o c d b0 fuel) as [b Hpath]; auto.
  - now rewrite <- Hx, <- Hy.
  - lia.
  - rewrite <- Hx, <- Hy in Hpath. exists (replicate d c), b.
    split; [exact Hpath|]. rewrite length_replicate. lia.
Qed.

(** Without a turn the robot stays on that line; every turn is one
    command more than the distance covered. *)
Definition countTurns (cmds : list Command) : nat :=
  length (filter (fun cmd => cmd = L \/ cmd = R) cmds).

Lemma heuristic_turns cmds : forall p tx ty,
  heuristic p tx ty + Z.of_nat (countTurns cmds)
  <= Z.of_nat (length cmds) + heuristic (walk p cmds) tx ty.
Proof.
  unfold walk, countTurns. induction cmds as [|cmd cmds IH]; intros p tx ty.
  - simpl. lia.
  - specialize (IH (step p cmd) tx ty). cbn [foldl length].
    rewrite filter_cons. destruct (decide (cmd = L \/ cmd = R)) as [Ht|Ht].
    + assert (heuristic (step p cmd) tx ty = heuristic p tx ty) as Heq
          by (destruct Ht as [->| ->]; reflexivity).
      cbn [length]. lia.
    + pose proof (heuristic_step p cmd tx ty). lia.
Qed.

Lemma walk_straight cmds : forall p tx ty,
  countTurns cmds = 0%nat ->
  onAxis (walk p cmds) tx ty -> onAxis p tx ty.
Proof.
  unfold walk, countTurns. induction cmds as [|cmd cmds IH]; intros p tx ty Hno Hax.
  - exact Hax.
  - cbn [foldl] in Hax. rewrite filter_cons in Hno.
    destruct (decide (cmd = L \/ cmd = R)) as [Ht|Ht]; [discriminate|].
    apply IH in Hax; [|assumption].
    unfold onAxis, step, getNextPosition in *.
    destruct cmd; try (exfalso; apply Ht; auto; fail);
      destruct (facing p); simpl in *; auto.
Qed.

Lemma off_axis_needs_turn cmds p tx ty :
  px (walk p cmds) = tx -> py (walk p cmds) = ty ->
  ~ onAxis p tx ty ->
  manhattanDistance (px p) (py p) tx ty < Z.of_nat (length cmds).
Proof.
  intros Hx Hy Hoff.
  pose proof (heuristic_turns cmds p tx ty) as Hh.
  assert (heuristic (walk p cmds) tx ty = 0) as H0.
  { unfold heuristic, manhattanDistance. rewrite Hx, Hy. lia. }
  assert (countTurns cmds <> 0%nat) as Hturn.
  { intros Hno. apply Hoff. apply (walk_straight cmds); [assumption|].
    unfold onAxis. destruct (facing (walk p cmds)); assumption. }
  unfold heuristic in *. lia.
Qed.

End StraightLine.

Definition square : Terrain := [["Fe"; "Fe"]; ["Fe"; "Fe"]]%string.

Lemma square_open x y : cellAt square x y <> Some "Obs"%string.
Proof.
  unfold cellAt, square.
  destruct ((x <? 0) || (y <? 0)); [discriminate|].
  destruct (Z.to_nat y) as [|[|[|n]]]; simpl; try discriminate;
    destruct (Z.to_nat x) as [|[|[|m]]]; simpl; discriminate.
Qed.

Lemma square_inBounds x y : 0 <= x < 2 -> 0 <= y < 2 -> OpenGrid.inBounds square x y.
Proof. unfold OpenGrid.inBounds, cols, rows, square; cbn. lia. Qed.

(** The claim C7 as it is worded fails whenever the robot has to turn:
    on the obstacle-free two-by-two grid, from (0,0) facing East to
    (0,1), with battery 100, the answer is [L,B], two commands for a
    Manhattan distance of one. *)
Lemma findPath_counts_turns :
  (forall x y, cellAt square x y <> Some "Obs"%string)
  /\ OpenGrid.inBounds square 0 0 /\ OpenGrid.inBounds square 0 1
  /\ PathfindingService.findPath 32 square (mkPosition 0 0 East) 0 1 100
     = Some (PathfindingService.mkPath [L; B] 105 true)
  /\ Z.of_nat (length [L; B]) <> PathfindingService.manhattanDistance 0 0 0 1.
Proof.
  split; [|split; [|split; [|split]]].
  - apply square_open.
  - apply square_inBounds; lia.
  - apply square_inBounds; lia.
  - vm_compute. reflexivity.
  - vm_compute. discriminate.
Qed.

(** ** Invariants of the robot's record of its run *)

Module RobotInvariants.
Import Robot RobotFacts.

(** The cell the robot stands on. *)
Definition here (r : t) : Cell := mkCell (px (position r)) (py (position r)).

(** A cell the robot may enter: [isObstacle] answers [false]. *)
Definition free (tr : Terrain) (c : Cell) : Prop :=
  outOfBounds tr (cX c) (cY c) = false
  /\ cellAt tr (cX c) (cY c) <> Some "Obs"%string.

Lemma isObstacle_free r x y :
  isObstacle r x y = false <-> free (terrain r) (mkCell x y).
Proof.
  unfold isObstacle, free; simpl.
  destruct (outOfBounds (terrain r) x y).
  - split; [discriminate|]. intros [? _]. discriminate.
  - rewrite bool_decide_eq_false. tauto.
Qed.

Lemma addVisitedCell_elem cells x y c :
  c ∈ addVisitedCell cells x y <-> c ∈ cells \/ c = mkCell x y.
Proof.
  unfold addVisitedCell.
  destruct (existsb _ cells) eqn:Hex.
  - split; [now left|]. intros [H| ->]; [assumption|].
    apply existsb_exists in Hex as (c' & Hin & Hc).
    apply andb_prop in Hc as [Hx Hy].
    apply bool_decide_eq_true in Hx, Hy. destruct c'; simpl in *; subst.
    now apply list_elem_of_In.
  - rewrite elem_of_app, list_elem_of_singleton. tauto.
Qed.

Lemma addVisitedCell_NoDup cells x y :
  NoDup cells -> NoDup (addVisitedCell cells x y).
Proof.
  intros Hnd. unfold addVisitedCell.
  destruct (existsb _ cells) eqn:Hex; [assumption|].
  apply NoDup_app. split; [assumption|]. split; [|apply NoDup_singleton].
  intros c Hc Hc'. apply list_elem_of_singleton in Hc'. subst c.
  assert (existsb (fun c => bool_decide (cX c = x) && bool_decide (cY c = y)) cells
          = true) as Htrue; [|congruence].
  apply existsb_exists. exists (mkCell x y). split.
  - now apply list_elem_of_In.
  - simpl. now rewrite !bool_decide_eq_true_2.
Qed.

Lemma addVisitedCell_prefix cells x y : cells `prefix_of` addVisitedCell cells x y.
Proof.
  unfold addVisitedCell. destruct (existsb _ cells); [reflexivity|].
  now apply prefix_app_r.
Qed.

(** What the log of a run looks like, relative to the cell [c0] the run
    started on. *)
Record logged (c0 : Cell) (r : t) : Prop := mkLogged {
  log_head : head (visitedCells r) = Some c0;
  log_here : here r ∈ visitedCells r;
  log_nodup : NoDup (visitedCells r);
  log_free : forall c, c ∈ visitedCells r -> c = c0 \/ free (terrain r) c;
  log_samples : forall s, s ∈ samplesCollected r ->
    s <> "Obs"%string /\ s <> EmptyString
    /\ exists c, c ∈ visitedCells r /\ cellAt (terrain r) (cX c) (cY c) = Some s
}.

Lemma logged_new tr b p : logged (mkCell (px p) (py p)) (new tr b p).
Proof.
  constructor; simpl.
  - reflexivity.
  - unfold here; simpl. left.
  - apply NoDup_singleton.
  - intros c Hc. apply list_elem_of_singleton in Hc. now left.
  - intros s Hs. now apply elem_of_nil in Hs.
Qed.

Lemma head_prefix {A} (l l' : list A) x :
  head l = Some x -> l `prefix_of` l' -> head l' = Some x.
Proof.
  intros Hh [k ->]. destruct l; [discriminate|]. exact Hh.
Qed.

Lemma exec_logged c0 n c r ok r' :
  logged c0 r -> executeCommand n c r = Some (ok, r') -> logged c0 r'.
Proof.
  apply (exec_preserves (logged c0)).
  - intros r0 []. constructor; auto.
  - intros r0 _ []. constructor; auto.
  - intros r0 _ []. constructor; auto.
  - intros r0 _ [Hh Hhere Hnd Hfree Hs]. constructor; simpl; auto.
    intros s. unfold getTerrainType.
    destruct (sampleable _) eqn:Hsamp; [|apply Hs].
    rewrite elem_of_app, list_elem_of_singleton.
    intros [Hin| ->]; [now apply Hs|].
    destruct (outOfBounds _ _ _); [discriminate|].
    destruct (cellAt _ _ _) as [s|] eqn:Hcell; [|discriminate].
    simpl in *. apply andb_prop in Hsamp as [Hne Hno].
    apply negb_true_iff in Hne, Hno.
    apply bool_decide_eq_false in Hne, Hno.
    repeat split; auto. exists (here r0). split; [assumption|exact Hcell].
  - intros r0 _ []. constructor; auto.
  - intros r0 c1 _ [Hh Hhere Hnd Hfree Hs] Hobs. constructor; simpl.
    + eapply head_prefix; [exact Hh|apply addVisitedCell_prefix].
    + unfold here; simpl. apply addVisitedCell_elem. now right.
    + now apply addVisitedCell_NoDup.
    + intros c2 Hc2. apply addVisitedCell_elem in Hc2 as [Hc2| ->]; [auto|].
      right. now apply isObstacle_free.
    + intros s Hin. destruct (Hs s Hin) as (H1 & H2 & c2 & Hc2 & Hcell).
      repeat split; auto. exists c2. split; [|assumption].
      apply addVisitedCell_elem. now left.
Qed.

Lemma runCommands_logged c0 n cmds : forall r r',
  logged c0 r -> runCommands n cmds r = Some r' -> logged c0 r'.
Proof.
  induction cmds as [|c cmds IH]; intros r r' Hl H; simpl in H.
  - congruence.
  - destruct (executeCommand n c r) as [[[] r1]|] eqn:Hc; try discriminate.
    + eapply IH; [|exact H]. eapply exec_logged; eauto.
    + inversion H; subst. eapply exec_logged; eauto.
Qed.

(** The log only grows at its end. *)
Definition extends (r r' : t) : Prop :=
  visitedCells r `prefix_of` visitedCells r'
  /\ samplesCollected r `prefix_of` samplesCollected r'
  /\ terrain r' = terrain r.

Lemma exec_extends n c r ok r' :
  executeCommand n c r = Some (ok, r') -> extends r r'.
Proof.
  intros H.
  refine (exec_preserves (extends r) _ _ _ _ _ _ n c r ok r' _ H);
    unfold extends; simpl; try tauto.
  - intros r0 _ (Hv & Hs & Ht). repeat split; auto.
    destruct (sampleable _); [|assumption].
    etrans; [exact Hs|]. now apply prefix_app_r.
  - intros r0 c1 _ (Hv & Hs & Ht) _. repeat split; auto.
    etrans; [exact Hv|]. apply addVisitedCell_prefix.
  - repeat split; reflexivity.
Qed.

Lemma runCommands_extends n cmds : forall r r',
  runCommands n cmds r = Some r' -> extends r r'.
Proof.
  induction cmds as [|c cmds IH]; intros r r' H; simpl in H.
  - inversion H; subst. repeat split; reflexivity.
  - destruct (executeCommand n c r) as [[[] r1]|] eqn:Hc; try discriminate.
    + apply exec_extends in Hc as (Hv & Hs & Ht).
      apply IH in H as (Hv' & Hs' & Ht').
      repeat split; [etrans; eauto|etrans; eauto|congruence].
    + inversion H; subst. eapply exec_extends; eauto.
Qed.

End RobotInvariants.

Module RobotOutcomes.
Import Robot RobotFacts.

(** *** Why a command fails *)

(** Nothing is left to try: the battery is below one unit, or all seven
    strategies have been used. *)
Definition exhausted (r : t) : Prop :=
  battery r < 1 \/ currentBackoffStrategy r = length backoffStrategies.

Definition indexInRange (r : t) : Prop :=
  (currentBackoffStrategy r <= length backoffStrategies)%nat.

Lemma runStrategy_outcome exec :
  (forall c r ok r', indexInRange r -> exec c r = Some (ok, r') ->
                     indexInRange r' /\ (ok = false -> exhausted r')) ->
  forall cmds r ok r',
    indexInRange r -> runStrategy exec cmds r = Some (ok, r') ->
    indexInRange r' /\ (ok = false -> exhausted r').
Proof.
  intros Hexec cmds. induction cmds as [|c cmds IH]; intros r ok r' Hi H; simpl in H.
  - inversion H; subst. split; [assumption|discriminate].
  - destruct (exec c r) as [[[] r1]|] eqn:Hc; try discriminate.
    + eapply IH; [|exact H]. eapply Hexec; eauto.
    + inversion H; subst. eapply Hexec; eauto.
Qed.

Lemma exec_outcome n : forall c r ok r',
  indexInRange r -> executeCommand n c r = Some (ok, r') ->
  indexInRange r' /\ (ok = false -> exhausted r').
Proof.
  induction n as [|n IH]; intros c r ok r' Hi H; [discriminate|].
  destruct (Z.lt_ge_cases (battery r) (getBatteryConsumption c)) as [Hlow|Hok].
  - destruct (Z.lt_ge_cases (battery r) 1) as [H0|H1].
    + rewrite exec_low_fail in H by assumption. inversion H; subst.
      split; [assumption|]. intros _. now left.
    + rewrite exec_low_subst in H by assumption. eauto.
  - rewrite exec_dispatch in H by assumption.
    assert (forall r0 ok0 r0', indexInRange r0 ->
              applyBackoffStrategy (executeCommand n) r0 = Some (ok0, r0') ->
              indexInRange r0' /\ (ok0 = false -> exhausted r0')) as Hback.
    { intros r0 ok0 r0' Hi0 H0. unfold applyBackoffStrategy in H0.
      destruct (decide _) as [Hge|Hlt].
      - inversion H0; subst. split; [assumption|]. intros _. right.
        unfold indexInRange in Hi0. lia.
      - eapply (runStrategy_outcome (executeCommand n) IH); [|exact H0].
        unfold indexInRange in *. simpl in *. lia. }
    destruct c; simpl in H.
    + unfold moveForward in H. destruct (isObstacle r _ _); [eauto|].
      inversion H; subst. split; [unfold indexInRange; simpl; lia|discriminate].
    + unfold moveBackward in H. destruct (isObstacle r _ _); [eauto|].
      inversion H; subst. split; [unfold indexInRange; simpl; lia|discriminate].
    + inversion H; subst. split; [assumption|discriminate].
    + inversion H; subst. split; [assumption|discriminate].
    + inversion H; subst. split; [assumption|discriminate].
    + inversion H; subst. split; [assumption|discriminate].
Qed.

(** *** Samples *)

Definition sampleCount (c : Command) : nat :=
  match c with S => 1 | _ => 0 end.

Lemma runStrategy_samples exec :
  (forall c r ok r', c <> S -> exec c r = Some (ok, r') ->
                     samplesCollected r' = samplesCollected r) ->
  forall cmds r ok r',
    S ∉ cmds -> runStrategy exec cmds r = Some (ok, r') ->
    samplesCollected r' = samplesCollected r.
Proof.
  intros Hexec cmds. induction cmds as [|c cmds IH]; intros r ok r' Hno H; simpl in H.
  - congruence.
  - apply not_elem_of_cons in Hno as [Hc Hno].
    destruct (exec c r) as [[[] r1]|] eqn:Hx; try discriminate.
    + erewrite IH; [|exact Hno|exact H]. eapply Hexec; eauto.
    + inversion H; subst. eapply Hexec; eauto.
Qed.

Lemma strategies_never_sample :
  Forall (fun strategy => S ∉ strategy) backoffStrategies.
Proof.
  unfold backoffStrategies.
  repeat (constructor; [intros H; repeat (apply elem_of_cons in H as [H|H];
                                           [discriminate|]);
                        now apply elem_of_nil in H|]).
  constructor.
Qed.

(** Only a dispatched [S] touches the samples. *)
Lemma exec_samples n : forall c r ok r',
  c <> S -> executeCommand n c r = Some (ok, r') ->
  samplesCollected r' = samplesCollected r.
Proof.
  induction n as [|n IH]; intros c r ok r' Hc H; [discriminate|].
  destruct (exec_cases n c r) as [Hf|[(Hlow & H1 & Hs)|(Hok & Hd)]].
  - rewrite Hf in H. congruence.
  - rewrite Hs in H. eapply IH; [|exact H]. discriminate.
  - rewrite Hd in H.
    assert (forall r0 ok0 r0',
              applyBackoffStrategy (executeCommand n) r0 = Some (ok0, r0') ->
              samplesCollected r0' = samplesCollected r0) as Hback.
    { intros r0 ok0 r0' H0. unfold applyBackoffStrategy in H0.
      destruct (decide _) as [Hge|Hlt]; [congruence|].
      change (samplesCollected r0) with (samplesCollected (nextStrategy r0)).
      eapply (runStrategy_samples (executeCommand n) IH); [|exact H0].
      pose proof strategies_never_sample as Hall.
      rewrite Forall_forall in Hall. apply Hall.
      apply list_elem_of_In, nth_In. lia. }
    destruct c; simpl in H; try congruence.
    + unfold moveForward in H. destruct (isObstacle r _ _); [eauto|].
      now inversion H.
    + unfold moveBackward in H. destruct (isObstacle r _ _); [eauto|].
      now inversion H.
    + now inversion H.
    + now inversion H.
    + now inversion H.
Qed.

Lemma exec_sample_count n c r ok r' :
  executeCommand n c r = Some (ok, r') ->
  (length (samplesCollected r') <= length (samplesCollected r) + sampleCount c)%nat.
Proof.
  intros H. destruct (decide (c = S)) as [->|Hc].
  - destruct n as [|n]; [discriminate|].
    destruct (exec_cases n S r) as [Hf|[(Hlow & H1 & Hs)|(Hok & Hd)]].
    + rewrite Hf in H. inversion H; subst. simpl. lia.
    + rewrite Hs in H. apply exec_samples in H; [|discriminate].
      rewrite H. simpl. lia.
    + rewrite Hd in H. simpl in H. inversion H; subst; simpl.
      destruct (sampleable _); [rewrite length_app|]; simpl; lia.
  - apply exec_samples in H; [|assumption]. rewrite H. lia.
Qed.

Lemma runCommands_sample_count n cmds : forall r r',
  runCommands n cmds r = Some r' ->
  (length (samplesCollected r')
   <= length (samplesCollected r) + length (filter (fun c => c = S) cmds))%nat.
Proof.
  induction cmds as [|c cmds IH]; intros r r' H; simpl in H.
  - inversion H; subst. lia.
  - assert (length (filter (fun c => c = S) (c :: cmds))
            = (sampleCount c + length (filter (fun c => c = S) cmds))%nat) as Hlen.
    { rewrite filter_cons. destruct (decide (c = S)) as [->|Hc]; simpl; [reflexivity|].
      destruct c; try reflexivity. contradiction. }
    rewrite Hlen.
    destruct (executeCommand n c r) as [[[] r1]|] eqn:Hc; try discriminate.
    + apply exec_sample_count in Hc. apply IH in H. lia.
    + inversion H; subst. apply exec_sample_count in Hc. lia.
Qed.

(** *** Turning and stepping back *)

Lemma turn_tables_inverse o :
  turnRightFacing (turnLeftFacing o) = o
  /\ turnLeftFacing (turnRightFacing o) = o
  /\ turnLeftFacing (turnLeftFacing o) = turnRightFacing (turnRightFacing o)
  /\ turnLeftFacing (turnLeftFacing (turnLeftFacing (turnLeftFacing o))) = o.
Proof. destruct o; repeat split. Qed.

End RobotOutcomes.

(** A request that passes [validateInput] is run to its end. *)
Lemma runSimulation_valid fuel input :
  (callDepth <= fuel)%nat ->
  SimulationService.validateInput input = None ->
  exists b cmds o r_end,
    SimulationService.battery input = Some b /\ 0 <= b
    /\ mapM SimulationService.parseCommand (SimulationService.commands input) = Some cmds
    /\ SimulationService.parseFacing (SimulationService.facingName input) = Some o
    /\ Robot.runCommands fuel cmds
         (Robot.new (SimulationService.terrain input) b
            (mkPosition (SimulationService.locationX input)
                        (SimulationService.locationY input) o)) = Some r_end
    /\ SimulationService.runSimulation fuel input
       = SimulationService.Returned (Robot.getResult r_end).
Proof.
  intros Hfuel Hv.
  pose proof (Validation.validate_None _ Hv)
    as (_ & _ & _ & (b & Hb & Hb0) & _ & Hcmds & [o Ho] & _).
  apply mapM_is_Some in Hcmds as [cmds Hcmds].
  destruct (runCommands_total fuel cmds
              (Robot.new (SimulationService.terrain input) b
                 (mkPosition (SimulationService.locationX input)
                             (SimulationService.locationY input) o)) Hfuel)
    as [r_end Hrun].
  exists b, cmds, o, r_end. repeat split; try assumption.
  unfold SimulationService.runSimulation, Robot.executeCommands.
  rewrite Hv, Hb, Hcmds, Ho, Hrun. reflexivity.
Qed.

(** ** Properties of the robot's run

    X1. Whatever the terrain, the battery, the pose and the commands,
    [executeCommands] returns, and the VisitedCells of its result begin
    with the cell the robot was built on, hold no cell twice, and
    contain the final location. *)
Theorem visited_cells_log k tr b p cmds :
  exists res,
    Robot.executeCommands (callDepth + k) cmds (Robot.new tr b p) = Some res
    /\ head (Robot.VisitedCells res) = Some (mkCell (px p) (py p))
    /\ NoDup (Robot.VisitedCells res)
    /\ Robot.FinalLocation res ∈ Robot.VisitedCells res.
Proof.
  destruct (runCommands_total (callDepth + k) cmds (Robot.new tr b p)) as [r' Hrun];
    [lia|].
  exists (Robot.getResult r'). unfold Robot.executeCommands. rewrite Hrun.
  split; [reflexivity|].
  destruct (RobotInvariants.runCommands_logged _ _ _ _ _
              (RobotInvariants.logged_new tr b p) Hrun) as [Hh Hhere Hnd _ _].
  simpl. auto.
Qed.

(** X2. A simulation whose input passes [validateInput] returns a
    result in which every visited cell, and the final location, is
    inside the terrain and is not an obstacle. *)
Theorem simulation_stays_on_free_cells k input :
  SimulationService.validateInput input = None ->
  exists res,
    SimulationService.runSimulation (callDepth + k) input
    = SimulationService.Returned res
    /\ Forall (RobotInvariants.free (SimulationService.terrain input))
              (Robot.VisitedCells res)
    /\ RobotInvariants.free (SimulationService.terrain input)
                            (Robot.FinalLocation res).
Proof.
  intros Hv.
  destruct (runSimulation_valid (callDepth + k) input) as
    (b & cmds & o & r_end & Hb & Hb0 & Hcmds & Ho & Hrun & Hret); [lia|assumption|].
  exists (Robot.getResult r_end). split; [exact Hret|].
  pose proof (Validation.validate_None _ Hv) as (_ & _ & _ & _ & _ & _ & _ & Hoob & Hobs).
  destruct (RobotInvariants.runCommands_logged _ _ _ _ _
              (RobotInvariants.logged_new _ b _) Hrun) as [_ Hhere _ Hfree _].
  destruct (RobotInvariants.runCommands_extends _ _ _ _ Hrun) as (_ & _ & Hterrain).
  simpl in Hterrain. rewrite Hterrain in Hfree.
  assert (forall c, c ∈ Robot.visitedCells r_end ->
                    RobotInvariants.free (SimulationService.terrain input) c) as Hall.
  { intros c Hc. destruct (Hfree c Hc) as [->|H]; [|exact H].
    split; simpl; assumption. }
  simpl. split.
  - apply Forall_forall. exact Hall.
  - apply Hall. exact Hhere.
Qed.

Lemma simulation_stays_on_free_cells_witness :
  exists res,
    SimulationService.runSimulation callDepth inputA = SimulationService.Returned res
    /\ Forall (RobotInvariants.free terrainA) (Robot.VisitedCells res)
    /\ RobotInvariants.free terrainA (Robot.FinalLocation res).
Proof.
  refine (simulation_stays_on_free_cells 0 inputA _). vm_compute. reflexivity.
Defined.

(** X3. Every entry of SamplesCollected is the terrain type of a
    visited cell, is not "Obs" and is not the empty string, and there
    are at most as many entries as there are [S] commands in the
    sequence: the backoff strategies never sample. *)
Theorem samples_come_from_visited_cells k tr b p cmds :
  exists res,
    Robot.executeCommands (callDepth + k) cmds (Robot.new tr b p) = Some res
    /\ Forall (fun s =>
         s <> "Obs"%string /\ s <> EmptyString
         /\ exists c, c ∈ Robot.VisitedCells res /\ cellAt tr (cX c) (cY c) = Some s)
         (Robot.SamplesCollected res)
    /\ (length (Robot.SamplesCollected res)
        <= length (filter (fun c => c = S) cmds))%nat.
Proof.
  destruct (runCommands_total (callDepth + k) cmds (Robot.new tr b p)) as [r' Hrun];
    [lia|].
  exists (Robot.getResult r'). unfold Robot.executeCommands. rewrite Hrun.
  split; [reflexivity|].
  destruct (RobotInvariants.runCommands_logged _ _ _ _ _
              (RobotInvariants.logged_new tr b p) Hrun) as [_ _ _ _ Hs].
  destruct (RobotInvariants.runCommands_extends _ _ _ _ Hrun) as (_ & _ & Hterrain).
  simpl in Hterrain. rewrite Hterrain in Hs. simpl. split.
  - apply Forall_forall. exact Hs.
  - apply RobotOutcomes.runCommands_sample_count in Hrun. simpl in Hrun. lia.
Qed.

(** X4. A call of [executeCommand], successful or not, only appends
    to [visitedCells] and [samplesCollected] and leaves the terrain as
    it is. *)
Theorem commands_only_append_to_the_log k c r :
  exists ok r',
    Robot.executeCommand (callDepth + k) c r = Some (ok, r')
    /\ Robot.visitedCells r `prefix_of` Robot.visitedCells r'
    /\ Robot.samplesCollected r `prefix_of` Robot.samplesCollected r'
    /\ Robot.terrain r' = Robot.terrain r.
Proof.
  destruct (executeCommand_total (callDepth + k) c r) as [[ok r'] H]; [lia|].
  exists ok, r'. split; [exact H|]. now apply RobotInvariants.exec_extends in H.
Qed.

(** X5. From a state whose strategy index is at most 7, the index
    stays at most 7, and a call of [executeCommand] that returns false
    leaves the robot with less than one unit of battery or with all
    seven backoff strategies used. *)
Theorem failure_means_exhausted k c r :
  (Robot.currentBackoffStrategy r <= 7)%nat ->
  exists ok r',
    Robot.executeCommand (callDepth + k) c r = Some (ok, r')
    /\ (Robot.currentBackoffStrategy r' <= 7)%nat
    /\ (ok = false ->
        Robot.battery r' < 1 \/ Robot.currentBackoffStrategy r' = 7%nat).
Proof.
  intros Hi.
  destruct (executeCommand_total (callDepth + k) c r) as [[ok r'] H]; [lia|].
  exists ok, r'. split; [exact H|].
  now apply RobotOutcomes.exec_outcome in H.
Qed.

Lemma failure_means_exhausted_witness :
  exists ok r',
    Robot.executeCommand callDepth F robotStuck = Some (ok, r')
    /\ (Robot.currentBackoffStrategy r' <= 7)%nat
    /\ (ok = false ->
        Robot.battery r' < 1 \/ Robot.currentBackoffStrategy r' = 7%nat).
Proof.
  refine (failure_means_exhausted 0 F robotStuck _). simpl. lia.
Defined.

Module RobotMoves.
Import Robot RobotFacts.

(** The robot with another battery level and pose, the rest as it was. *)
Definition withPose (r : t) (b : Z) (p : Position) : t :=
  mk (terrain r) b p (visitedCells r) (samplesCollected r) (currentBackoffStrategy r).

Lemma exec_turn n c r :
  isTurn c = true -> 2 <= battery r ->
  executeCommand (Datatypes.S n) c r =
  Some (true, withPose r (battery r - 2)
                (mkPosition (px (position r)) (py (position r))
                   (match c with
                    | L => turnLeftFacing (facing (position r))
                    | _ => turnRightFacing (facing (position r))
                    end))).
Proof.
  intros Hc Hb. rewrite exec_dispatch by (destruct c; simpl in *; lia).
  destruct c; try discriminate; reflexivity.
Qed.

Lemma runCommands_turns n (turns : list Command) : forall r,
  forallb isTurn turns = true ->
  2 * Z.of_nat (length turns) <= battery r ->
  runCommands (Datatypes.S n) turns r =
  Some (withPose r (battery r - 2 * Z.of_nat (length turns))
          (mkPosition (px (position r)) (py (position r))
             (foldl (fun o c => match c with
                                | L => turnLeftFacing o
                                | _ => turnRightFacing o
                                end) (facing (position r)) turns))).
Proof.
  induction turns as [|c turns IH]; intros r Ht Hb.
  - simpl. destruct r as [tr b [x y o] v s i]. unfold withPose; simpl.
    f_equal; f_equal; lia.
  - cbn [forallb] in Ht. apply andb_prop in Ht as [Hc Ht].
    cbn [length] in Hb. cbn [runCommands].
    rewrite exec_turn by (auto; lia).
    rewrite IH by (auto; simpl; lia).
    unfold withPose; simpl. f_equal; f_equal; lia.
Qed.

End RobotMoves.

(** X6. With eight units of battery or more, a left turn followed by
    a right turn (or a right turn followed by a left turn) restores the
    pose for 4 units, two left turns lead where two right turns lead,
    and four turns to the same side restore the pose for 8 units;
    nothing else changes. *)
Theorem turns_compose k r :
  8 <= Robot.battery r ->
  Robot.runCommands (callDepth + k) [L; R] r
  = Some (RobotMoves.withPose r (Robot.battery r - 4) (Robot.position r))
  /\ Robot.runCommands (callDepth + k) [R; L] r
     = Some (RobotMoves.withPose r (Robot.battery r - 4) (Robot.position r))
  /\ Robot.runCommands (callDepth + k) [L; L] r
     = Robot.runCommands (callDepth + k) [R; R] r
  /\ Robot.runCommands (callDepth + k) [L; L; L; L] r
     = Some (RobotMoves.withPose r (Robot.battery r - 8) (Robot.position r))
  /\ Robot.runCommands (callDepth + k) [R; R; R; R] r
     = Some (RobotMoves.withPose r (Robot.battery r - 8) (Robot.position r)).
Proof.
  intros Hb. change (callDepth + k)%nat with (Datatypes.S (15 + k)).
  rewrite !RobotMoves.runCommands_turns by (try reflexivity; simpl; lia).
  destruct r as [tr b [x y o] v s i]. unfold RobotMoves.withPose. simpl.
  destruct o; repeat split.
Qed.

Lemma turns_compose_witness :
  Robot.runCommands callDepth [L; R] (Robot.new terrainA 50 (mkPosition 0 0 East))
  = Some (RobotMoves.withPose (Robot.new terrainA 50 (mkPosition 0 0 East)) 46
            (mkPosition 0 0 East)).
Proof.
  refine (proj1 (turns_compose 0 (Robot.new terrainA 50 (mkPosition 0 0 East)) _)).
  simpl. lia.
Defined.

(** X7. On a cell that is not an obstacle and with six units of
    battery or more, a step forward into a free cell followed by a step
    backward (or a step backward followed by a step forward) brings the
    robot back to its pose for 6 units, with the strategy index at 0. *)
Theorem forward_and_backward_cancel k r :
  6 <= Robot.battery r ->
  Robot.isObstacle r (px (Robot.position r)) (py (Robot.position r)) = false ->
  (RobotFacts.blocked r F = false ->
   exists r', Robot.runCommands (callDepth + k) [F; B] r = Some r'
     /\ Robot.position r' = Robot.position r
     /\ Robot.battery r' = Robot.battery r - 6
     /\ Robot.samplesCollected r' = Robot.samplesCollected r
     /\ Robot.currentBackoffStrategy r' = 0%nat)
  /\ (RobotFacts.blocked r B = false ->
      exists r', Robot.runCommands (callDepth + k) [B; F] r = Some r'
        /\ Robot.position r' = Robot.position r
        /\ Robot.battery r' = Robot.battery r - 6
        /\ Robot.samplesCollected r' = Robot.samplesCollected r
        /\ Robot.currentBackoffStrategy r' = 0%nat).
Proof.
  intros Hb Hhere. change (callDepth + k)%nat with (Datatypes.S (15 + k)).
  assert (forall c c', (c = F /\ c' = B) \/ (c = B /\ c' = F) ->
            RobotFacts.blocked r c = false ->
            exists r', Robot.runCommands (Datatypes.S (15 + k)) [c; c'] r = Some r'
              /\ Robot.position r' = Robot.position r
              /\ Robot.battery r' = Robot.battery r - 6
              /\ Robot.samplesCollected r' = Robot.samplesCollected r
              /\ Robot.currentBackoffStrategy r' = 0%nat) as Hgen.
  { intros c c' Hcc Hfree. cbn [Robot.runCommands].
    rewrite RobotFacts.exec_move_free;
      [|destruct Hcc as [[-> _]|[-> _]]; reflexivity|lia|assumption].
    cbn [Robot.moveTo].
    match goal with |- context [Robot.executeCommand _ c' ?x] => set (r1 := x) end.
    assert (Robot.getNextPosition r1 c'
            = (px (Robot.position r), py (Robot.position r))) as Hback.
    { subst r1. unfold Robot.getNextPosition. simpl.
      destruct Hcc as [[-> ->]|[-> ->]]; simpl;
        destruct (facing (Robot.position r)); simpl; f_equal; lia. }
    rewrite RobotFacts.exec_move_free.
    - rewrite Hback. eexists. split; [reflexivity|]. subst r1. simpl.
      repeat split; try lia. now destruct (Robot.position r).
    - destruct Hcc as [[_ ->]|[_ ->]]; reflexivity.
    - subst r1; simpl; lia.
    - unfold RobotFacts.blocked. rewrite Hback. simpl.
      unfold Robot.isObstacle in *. subst r1. simpl. exact Hhere. }
  split; intros Hfree; apply Hgen; auto.
Qed.

Lemma forward_and_backward_cancel_witness :
  exists r',
    Robot.runCommands callDepth [F; B] (Robot.new terrainA 50 (mkPosition 0 0 East))
    = Some r'
    /\ Robot.position r' = mkPosition 0 0 East
    /\ Robot.battery r' = 50 - 6
    /\ Robot.samplesCollected r' = []
    /\ Robot.currentBackoffStrategy r' = 0%nat.
Proof.
  refine (proj1 (forward_and_backward_cancel 0
                   (Robot.new terrainA 50 (mkPosition 0 0 East)) _ _) _).
  - simpl. lia.
  - vm_compute. reflexivity.
  - vm_compute. reflexivity.
Defined.

(** ** The pathfinder on any terrain *)

Module GridSearch.
Import PathfindingService.

(** A command the search may append at pose [p]: a turn, or a move into
    a cell for which [isObstacle] answers [false]. *)
Definition legal (terrain : Terrain) (p : Position) (c : Command) : bool :=
  match c with
  | L | R => true
  | F | B =>
      negb (isObstacle terrain (px (OpenGrid.step p c)) (py (OpenGrid.step p c)))
  | S | E => false
  end.

(** Every command of the sequence is legal where it is issued. *)
Fixpoint legalPath (terrain : Terrain) (p : Position) (cmds : list Command) : bool :=
  match cmds with
  | [] => true
  | c :: rest => legal terrain p c && legalPath terrain (OpenGrid.step p c) rest
  end.

(** The sum of [commandCosts] over a sequence. *)
Definition cost (cmds : list Command) : Z :=
  foldr Z.add 0 (commandCosts <$> cmds).

Lemma cost_snoc cmds c : cost (cmds ++ [c]) = cost cmds + commandCosts c.
Proof.
  unfold cost. rewrite fmap_app, foldr_app. simpl.
  induction cmds as [|c' cmds IH]; [simpl; lia|].
  rewrite fmap_cons. cbn [foldr]. lia.
Qed.

Lemma legalPath_snoc terrain cmds : forall p c,
  legalPath terrain p (cmds ++ [c])
  = legalPath terrain p cmds && legal terrain (OpenGrid.walk p cmds) c.
Proof.
  induction cmds as [|c' cmds IH]; intros p c; simpl.
  - now rewrite andb_true_r.
  - rewrite IH. unfold OpenGrid.walk. simpl. now rewrite andb_assoc.
Qed.

Lemma legal_cost terrain p c : legal terrain p c = true -> 2 <= commandCosts c.
Proof. destruct c; simpl; intros; try discriminate; lia. Qed.

Lemma legalPath_cost terrain cmds : forall p,
  legalPath terrain p cmds = true -> 0 <= cost cmds.
Proof.
  unfold cost.
  induction cmds as [|c cmds IH]; intros p H; [simpl; lia|].
  cbn [legalPath] in H. rewrite fmap_cons. cbn [foldr].
  apply andb_prop in H as [Hc H]. apply legal_cost in Hc. apply IH in H. lia.
Qed.

Lemma legal_move terrain p q c :
  (q, c) ∈ getPossibleMoves terrain p -> c <> E ->
  q = OpenGrid.step p c /\ legal terrain p c = true.
Proof.
  intros Hmv Hc. destruct (OpenGrid.moves_inv _ _ _ _ Hmv) as [Hq Hcase].
  split; [exact Hq|].
  destruct Hcase as [->|[->|[->|[[->| ->] Hfree]]]]; try reflexivity;
    try contradiction; simpl; rewrite Hq in Hfree; simpl in Hfree;
    now rewrite Hfree.
Qed.

Lemma move_legal terrain p c :
  legal terrain p c = true -> (OpenGrid.step p c, c) ∈ getPossibleMoves terrain p.
Proof.
  intros H. destruct c; try discriminate.
  - apply OpenGrid.moves_move; [now left|]. simpl in H. now apply negb_true_iff in H.
  - apply OpenGrid.moves_move; [now right|]. simpl in H. now apply negb_true_iff in H.
  - apply OpenGrid.moves_turn. now left.
  - apply OpenGrid.moves_turn. now right.
Qed.

Section Search.
Variable terrain : Terrain.
Variable start : Position.
Variables tx ty : Z.
Variable b0 : Z.

(** The poses the search can ever hold: those of the grid and, should
    the start lie outside, those on the start cell. *)
Definition startPoses : list Position :=
  (fun o => mkPosition (px start) (py start) o) <$> directions.

Definition universe : gset Position :=
  list_to_set (OpenGrid.gridPoses terrain ++ startPoses).

Definition inUniverse (k : Position) : Prop :=
  (px k = px start /\ py k = py start)
  \/ OpenGrid.inBounds terrain (px k) (py k).

Lemma inUniverse_elem k : inUniverse k -> k ∈ universe.
Proof.
  intros [[Hx Hy]|Hin]; unfold universe; apply elem_of_list_to_set, elem_of_app.
  - right. unfold startPoses. apply list_elem_of_fmap. exists (facing k). split.
    + destruct k; simpl in *; now subst.
    + unfold directions. destruct (facing k); set_solver.
  - left. now apply OpenGrid.gridPoses_elem.
Qed.

Lemma size_universe :
  (size universe
   <= 4 * (Z.to_nat (rows terrain) * Z.to_nat (cols terrain)) + 4)%nat.
Proof.
  unfold universe.
  etrans; [apply OpenGrid.size_list_to_set_le|].
  rewrite length_app, OpenGrid.length_gridPoses. unfold startPoses.
  rewrite length_fmap. simpl. lia.
Qed.

Definition goal (k : Position) : Prop := px k = tx /\ py k = ty.

(** A pose is live when it waits in the queue or has been closed. *)
Definition live (st : Search) (k : Position) : Prop :=
  k ∈ elements (openSet st) \/ k ∈ closedSet st.

(** What the maps hold for a pose. *)
Definition recorded (st : Search) (k : Position) : Prop :=
  exists cmds,
    commandSequences st !! k = Some cmds
    /\ batteryLevels st !! k = Some (b0 + cost cmds)
    /\ gScore st !! k = Some (Z.of_nat (length cmds))
    /\ OpenGrid.walk start cmds = k
    /\ legalPath terrain start cmds = true
    /\ inUniverse k.

Record sound (st : Search) : Prop := mkSound {
  snd_nodup : NoDup (elements (openSet st));
  snd_priorities : forall k,
    k ∈ elements (openSet st) <-> is_Some (priorities (openSet st) !! k);
  snd_open : forall k, k ∈ elements (openSet st) -> k ∉ closedSet st;
  snd_data : forall k, live st k -> recorded st k
}.

Lemma sound_initial : sound (initialSearch start tx ty b0).
Proof.
  unfold initialSearch. constructor; simpl.
  - apply NoDup_singleton.
  - intros k. rewrite list_elem_of_singleton, lookup_insert_is_Some.
    rewrite lookup_empty. split; [intros ->; now left|].
    intros [->|[_ [? ?]]]; [reflexivity|discriminate].
  - intros k _. apply not_elem_of_empty.
  - intros k [Hk|Hk]; [|now apply not_elem_of_empty in Hk].
    simpl in Hk. apply list_elem_of_singleton in Hk. subst k.
    exists []. unfold recorded; simpl. rewrite !lookup_singleton_eq.
    unfold cost; simpl. repeat split; try (f_equal; lia).
    left. auto.
Qed.

Lemma step_inUniverse k q c :
  inUniverse k -> (q, c) ∈ getPossibleMoves terrain k -> inUniverse q.
Proof.
  intros Hk Hmv. destruct (OpenGrid.moves_inv _ _ _ _ Hmv) as [Hq Hcase].
  destruct Hcase as [->|[->|[->|[_ Hfree]]]];
    try (rewrite Hq; simpl; exact Hk).
  right. unfold isObstacle in Hfree.
  destruct (outOfBounds terrain (px q) (py q)) eqn:Hoob; [discriminate|].
  now apply OpenGrid.outOfBounds_false.
Qed.

(** The queue after the loop body has looked at [q]. *)
Lemma relax_queue st q (p : Z) :
  sound st ->
  let queue := if contains (openSet st) q then openSet st
               else enqueue (openSet st) q p in
  NoDup (elements queue)
  /\ (forall k, k ∈ elements queue <-> is_Some (priorities queue !! k))
  /\ (forall k, k ∈ elements queue <-> k = q \/ k ∈ elements (openSet st)).
Proof.
  intros [Hnd Hprio _ _]. unfold contains. case_bool_decide as Hcont; cbv zeta.
  - split; [assumption|]. split; [assumption|].
    intros k. split; [now right|]. intros [->|H]; [|assumption].
    now apply Hprio.
  - split; [|split].
    + rewrite OpenGrid.enqueue_elements. apply NoDup_cons. split; [|assumption].
      intros Hin. apply Hcont. now apply Hprio.
    + intros k. rewrite OpenGrid.enqueue_elements, elem_of_cons.
      cbn [priorities enqueue].
      rewrite lookup_insert_is_Some, Hprio.
      destruct (decide (q = k)) as [->|Hne]; [tauto|].
      split; [intros [?|?]; [congruence|right; auto]|].
      intros [?|[_ ?]]; [congruence|now right].
    + intros k. now rewrite OpenGrid.enqueue_elements, elem_of_cons.
Qed.

(** What [relax] does once the data of the current pose is known. *)
Lemma relax_unfold cur st q c cmds :
  recorded st cur ->
  commandSequences st !! cur = Some cmds ->
  relax tx ty cur st (q, c) =
  if bool_decide (q ∈ closedSet st) then st
  else if b0 + cost cmds + commandCosts c <=? 0 then st
  else if match gScore st !! q with
          | None => true
          | Some g => Z.of_nat (length cmds) + 1 <? g
          end
  then {| openSet :=
            (if contains (openSet st) q then openSet st
             else enqueue (openSet st) q
                    (Z.of_nat (length cmds) + 1 + heuristic q tx ty));
          closedSet := closedSet st;
          gScore := <[q := Z.of_nat (length cmds) + 1]> (gScore st);
          batteryLevels := <[q := b0 + cost cmds + commandCosts c]> (batteryLevels st);
          commandSequences := <[q := cmds ++ [c]]> (commandSequences st) |}
  else st.
Proof.
  intros (cmds' & Hc & Hb & Hg & _) Hcmds.
  assert (cmds' = cmds) as -> by congruence.
  unfold relax. simpl. rewrite Hc, Hb, Hg. reflexivity.
Qed.

Lemma relax_sound cur st mv :
  sound st -> cur ∈ closedSet st ->
  mv ∈ getPossibleMoves terrain cur ->
  sound (relax tx ty cur st mv).
Proof.
  intros Hs Hcur Hmv. destruct mv as [q c].
  assert (recorded st cur) as Hrec by (apply (snd_data _ Hs); now right).
  destruct Hrec as (cmds & Hc & Hb & Hg & Hwalk & Hlegal & Huni).
  rewrite (relax_unfold cur st q c cmds);
    [|exists cmds; repeat split; assumption|assumption].
  case_bool_decide as Hclosed; [assumption|].
  destruct (_ <=? 0); [assumption|].
  match goal with |- sound (if ?cond then _ else _) => destruct cond end;
    [|assumption].
  assert (c <> E) as HcE.
  { intros ->. apply SearchFacts.moves_E in Hmv. subst q. contradiction. }
  destruct (legal_move _ _ _ _ Hmv HcE) as [Hq Hlc].
  destruct (relax_queue st q (Z.of_nat (length cmds) + 1 + heuristic q tx ty) Hs)
    as (Hnd' & Hprio' & Helem').
  destruct Hs as [Hnd Hprio Hopen Hdata].
  constructor; cbn [openSet closedSet gScore batteryLevels commandSequences].
  - exact Hnd'.
  - exact Hprio'.
  - intros k Hk. apply Helem' in Hk as [->|Hk]; [assumption|now apply Hopen].
  - intros k Hk. unfold live in Hk.
    cbn [openSet closedSet] in Hk. rewrite Helem' in Hk.
    unfold recorded. cbn [gScore batteryLevels commandSequences].
    destruct (decide (k = q)) as [->|Hne].
    + exists (cmds ++ [c]). rewrite !lookup_insert_eq.
      rewrite cost_snoc, length_app, OpenGrid.walk_snoc, legalPath_snoc.
      rewrite Hwalk, Hlegal, Hlc. simpl.
      repeat split; try (f_equal; lia); [now symmetry|].
      eapply step_inUniverse; eauto.
    + rewrite !lookup_insert_ne by congruence.
      apply Hdata. unfold live. destruct Hk as [[?|?]|?]; [contradiction|auto|auto].
Qed.

Lemma foldl_relax_sound cur moves : forall st,
  sound st -> cur ∈ closedSet st ->
  moves ⊆ getPossibleMoves terrain cur ->
  sound (foldl (relax tx ty cur) st moves).
Proof.
  induction moves as [|mv moves IH]; intros st Hs Hcur Hsub; simpl.
  - assumption.
  - apply IH.
    + apply relax_sound; auto. apply Hsub. left.
    + now rewrite SearchFacts.relax_closedSet.
    + intros x Hx. apply Hsub. now right.
Qed.

(** The state in which the loop body starts: head of the queue taken
    and closed. *)
Definition closeHead (st : Search) (k : Position) (rest : list Position) : Search :=
  {| openSet := mkQueue rest (delete k (priorities (openSet st)));
     closedSet := {[ k ]} ∪ closedSet st;
     gScore := gScore st;
     batteryLevels := batteryLevels st;
     commandSequences := commandSequences st |}.

Lemma expand_closeHead st k rest :
  expand terrain tx ty k
    {| openSet := mkQueue rest (delete k (priorities (openSet st)));
       closedSet := closedSet st;
       gScore := gScore st;
       batteryLevels := batteryLevels st;
       commandSequences := commandSequences st |}
  = foldl (relax tx ty k) (closeHead st k rest) (getPossibleMoves terrain k).
Proof. reflexivity. Qed.

Lemma live_closeHead st k rest x :
  elements (openSet st) = k :: rest ->
  live (closeHead st k rest) x <-> live st x.
Proof.
  intros Hq. unfold live, closeHead; simpl. rewrite Hq, elem_of_cons.
  rewrite elem_of_union, elem_of_singleton. tauto.
Qed.

Lemma closeHead_sound st k rest :
  sound st -> elements (openSet st) = k :: rest -> sound (closeHead st k rest).
Proof.
  intros [Hnd Hprio Hopen Hdata] Hq.
  rewrite Hq in Hnd. apply NoDup_cons in Hnd as [Hkrest Hnd].
  constructor.
  - exact Hnd.
  - intros x. simpl. rewrite lookup_delete_is_Some, <- Hprio, Hq, elem_of_cons.
    split; [intros Hx; split; [intros ->; contradiction|now right]|].
    intros [Hne [?|?]]; [congruence|assumption].
  - intros x Hx. simpl in *. rewrite elem_of_union, elem_of_singleton.
    intros [->|Hc]; [contradiction|].
    eapply Hopen; [|exact Hc]. rewrite Hq. now right.
  - intros x Hx. apply (live_closeHead _ _ _ _ Hq) in Hx.
    apply Hdata in Hx. exact Hx.
Qed.

Lemma expand_sound st k rest :
  sound st -> elements (openSet st) = k :: rest ->
  sound (foldl (relax tx ty k) (closeHead st k rest) (getPossibleMoves terrain k)).
Proof.
  intros Hs Hq. apply foldl_relax_sound.
  - now apply closeHead_sound.
  - simpl. set_solver.
  - reflexivity.
Qed.

Lemma search_step fuel st k rest :
  elements (openSet st) = k :: rest ->
  search (Datatypes.S fuel) terrain tx ty b0 st =
  if bool_decide (px k = tx) && bool_decide (py k = ty)
  then Some (mkPath (default [] (commandSequences st !! k))
                    (default 0 (batteryLevels st !! k)) true)
  else search fuel terrain tx ty b0
         (foldl (relax tx ty k) (closeHead st k rest) (getPossibleMoves terrain k)).
Proof.
  intros Hq. simpl. unfold dequeue. rewrite Hq. reflexivity.
Qed.

Lemma search_empty fuel st :
  elements (openSet st) = [] ->
  search (Datatypes.S fuel) terrain tx ty b0 st = Some (mkPath [] b0 false).
Proof.
  intros Hq. simpl. unfold dequeue. rewrite Hq. reflexivity.
Qed.

Lemma closed_grows st k rest :
  sound st -> elements (openSet st) = k :: rest ->
  (size (universe ∖ closedSet
           (foldl (relax tx ty k) (closeHead st k rest) (getPossibleMoves terrain k)))
   < size (universe ∖ closedSet st))%nat.
Proof.
  intros Hs Hq. rewrite SearchFacts.foldl_relax_closedSet. simpl.
  assert (k ∉ closedSet st) as Hkc.
  { apply (snd_open _ Hs). rewrite Hq. left. }
  assert (k ∈ universe) as Hku.
  { apply inUniverse_elem.
    destruct (snd_data _ Hs k) as (? & _ & _ & _ & _ & _ & Hu); [|exact Hu].
    left. rewrite Hq. left. }
  apply subset_size. split.
  - intros x. rewrite !elem_of_difference, elem_of_union. tauto.
  - intros Hsub. specialize (Hsub k).
    rewrite !elem_of_difference, elem_of_union, elem_of_singleton in Hsub.
    tauto.
Qed.

(** The loop ends, and what it returns is a legal way to the target or
    the failure record. *)
Lemma search_sound fuel : forall st,
  sound st ->
  (size (universe ∖ closedSet st) < fuel)%nat ->
  exists path,
    search fuel terrain tx ty b0 st = Some path
    /\ battery path = b0 + cost (commands path)
    /\ (success path = true ->
        goal (OpenGrid.walk start (commands path))
        /\ legalPath terrain start (commands path) = true)
    /\ (success path = false ->
        commands path = []
        /\ exists st', sound st' /\ elements (openSet st') = []
             /\ closedSet st ⊆ closedSet st').
Proof.
  induction fuel as [|fuel IH]; intros st Hs Hsize; [lia|].
  destruct (elements (openSet st)) as [|k rest] eqn:Hq.
  - rewrite search_empty by assumption. eexists. split; [reflexivity|].
    simpl. split; [unfold cost; simpl; lia|]. split; [discriminate|].
    intros _. split; [reflexivity|]. exists st. auto.
  - rewrite (search_step _ _ _ _ Hq).
    destruct (bool_decide (px k = tx) && bool_decide (py k = ty)) eqn:Hgoal.
    + apply andb_prop in Hgoal as [Hx Hy].
      apply bool_decide_eq_true in Hx, Hy.
      destruct (snd_data _ Hs k) as (cmds & Hc & Hb & _ & Hwalk & Hlegal & _).
      { left. rewrite Hq. left. }
      eexists. split; [reflexivity|]. simpl. rewrite Hc, Hb. simpl.
      split; [reflexivity|]. split; [|discriminate].
      intros _. rewrite Hwalk. unfold goal. auto.
    + pose proof (closed_grows _ _ _ Hs Hq) as Hlt.
      destruct (IH _ (expand_sound _ _ _ Hs Hq)) as (path & Hp & Hbat & Hok & Hfail);
        [lia|].
      exists path. split; [exact Hp|]. split; [exact Hbat|]. split; [exact Hok|].
      intros Hf. destruct (Hfail Hf) as (Hnil & st' & Hs' & Hq' & Hsub).
      split; [exact Hnil|]. exists st'. split; [exact Hs'|]. split; [exact Hq'|].
      rewrite SearchFacts.foldl_relax_closedSet in Hsub. simpl in Hsub.
      intros x Hx. apply Hsub. apply elem_of_union. now right.
Qed.

(** *** Every reachable target is found *)

Definition edge (p q : Position) : Prop :=
  exists c, (q, c) ∈ getPossibleMoves terrain p.

Lemma legalPath_reach cmds : forall p,
  legalPath terrain p cmds = true -> rtc edge p (OpenGrid.walk p cmds).
Proof.
  induction cmds as [|c cmds IH]; intros p H; simpl in H.
  - apply rtc_refl.
  - apply andb_prop in H as [Hc H]. eapply rtc_l.
    + exists c. now apply move_legal.
    + apply (IH _ H).
Qed.

Hypothesis battery_level : -2 < b0.

(** The edges out of the pose being expanded that the loop body has
    still to look at are [pending]. *)
Record saturated (cur : Position) (pending : list (Position * Command))
  (st : Search) : Prop := mkSaturated {
  sat_start : live st start;
  sat_known : forall k, is_Some (gScore st !! k) -> live st k;
  sat_goal : forall k, k ∈ closedSet st -> ~ goal k;
  sat_edges : forall k q c,
    k ∈ closedSet st -> (q, c) ∈ getPossibleMoves terrain k ->
    (k = cur /\ (q, c) ∈ pending) \/ live st q
}.

Lemma saturated_initial cur : saturated cur [] (initialSearch start tx ty b0).
Proof.
  unfold initialSearch. constructor; unfold live; simpl.
  - left. left.
  - intros k Hk. apply lookup_singleton_is_Some in Hk. subst k. left. left.
  - intros k Hk. now apply not_elem_of_empty in Hk.
  - intros k q c Hk. now apply not_elem_of_empty in Hk.
Qed.

Lemma saturated_drop cur mv pending st :
  saturated cur (mv :: pending) st -> live st mv.1 ->
  saturated cur pending st.
Proof.
  intros [Hstart Hknown Hgoal Hedges] Hlive. constructor; auto.
  intros k q c Hclosed Hedge.
  destruct (Hedges k q c Hclosed Hedge) as [[-> Hin]|Hq]; [|now right].
  apply elem_of_cons in Hin as [<-|Hin]; [right; exact Hlive|left; auto].
Qed.

Lemma relax_saturated cur mv pending st :
  sound st -> saturated cur (mv :: pending) st ->
  cur ∈ closedSet st ->
  mv ∈ getPossibleMoves terrain cur ->
  saturated cur pending (relax tx ty cur st mv).
Proof.
  intros Hs Hsat Hcur Hmv. destruct mv as [q c].
  assert (recorded st cur) as Hrec by (apply (snd_data _ Hs); now right).
  destruct Hrec as (cmds & Hc & Hb & Hg & Hwalk & Hlegal & Huni).
  rewrite (relax_unfold cur st q c cmds);
    [|exists cmds; repeat split; assumption|assumption].
  case_bool_decide as Hclosed.
  { eapply saturated_drop; [exact Hsat|]. now right. }
  assert (c <> E) as HcE.
  { intros ->. apply SearchFacts.moves_E in Hmv. subst q. contradiction. }
  destruct (legal_move _ _ _ _ Hmv HcE) as [Hq Hlc].
  destruct (Z.leb_spec (b0 + cost cmds + commandCosts c) 0) as [Hle|_].
  { exfalso. apply legal_cost in Hlc. apply legalPath_cost in Hlegal. lia. }
  destruct (gScore st !! q) as [g|] eqn:Hgq.
  - destruct (_ <? g).
    2:{ eapply saturated_drop; [exact Hsat|].
        apply (sat_known _ _ _ Hsat). simpl. rewrite Hgq. eauto. }
    assert (live st q) as Hlq by (apply (sat_known _ _ _ Hsat); rewrite Hgq; eauto).
    destruct (relax_queue st q (Z.of_nat (length cmds) + 1 + heuristic q tx ty) Hs)
      as (_ & _ & Helem').
    destruct Hsat as [Hstart Hknown Hgoal Hedges].
    assert (forall x, live st x ->
              x ∈ elements (if contains (openSet st) q then openSet st
                            else enqueue (openSet st) q
                                   (Z.of_nat (length cmds) + 1 + heuristic q tx ty))
              \/ x ∈ closedSet st) as Hlive.
    { intros x [Hx|Hx]; [left; apply Helem'; now right|now right]. }
    constructor; unfold live;
      cbn [openSet closedSet gScore batteryLevels commandSequences].
    + now apply Hlive.
    + intros x Hx. apply lookup_insert_is_Some in Hx as [<-|[_ Hx]];
        [left; apply Helem'; now left|auto].
    + exact Hgoal.
    + intros x q' c' Hx Hedge.
      destruct (Hedges x q' c' Hx Hedge) as [[-> Hpend]|Hq']; [|right; auto].
      apply elem_of_cons in Hpend as [Heq|Hpend]; [|left; auto].
      inversion Heq; subst. right. auto.
  - destruct (relax_queue st q (Z.of_nat (length cmds) + 1 + heuristic q tx ty) Hs)
      as (_ & _ & Helem').
    destruct Hsat as [Hstart Hknown Hgoal Hedges].
    assert (forall x, live st x ->
              x ∈ elements (if contains (openSet st) q then openSet st
                            else enqueue (openSet st) q
                                   (Z.of_nat (length cmds) + 1 + heuristic q tx ty))
              \/ x ∈ closedSet st) as Hlive.
    { intros x [Hx|Hx]; [left; apply Helem'; now right|now right]. }
    constructor; unfold live;
      cbn [openSet closedSet gScore batteryLevels commandSequences].
    + now apply Hlive.
    + intros x Hx. apply lookup_insert_is_Some in Hx as [<-|[_ Hx]];
        [left; apply Helem'; now left|auto].
    + exact Hgoal.
    + intros x q' c' Hx Hedge.
      destruct (Hedges x q' c' Hx Hedge) as [[-> Hpend]|Hq']; [|right; auto].
      apply elem_of_cons in Hpend as [Heq|Hpend]; [|left; auto].
      inversion Heq; subst. right. left. apply Helem'. now left.
Qed.

Lemma foldl_relax_saturated cur moves : forall st,
  sound st -> saturated cur moves st -> cur ∈ closedSet st ->
  moves ⊆ getPossibleMoves terrain cur ->
  saturated cur [] (foldl (relax tx ty cur) st moves).
Proof.
  induction moves as [|mv moves IH]; intros st Hs Hsat Hcur Hsub; simpl.
  - assumption.
  - apply IH.
    + apply relax_sound; auto. apply Hsub. left.
    + apply relax_saturated; auto. apply Hsub. left.
    + now rewrite SearchFacts.relax_closedSet.
    + intros x Hx. apply Hsub. now right.
Qed.

Lemma closeHead_saturated cur0 st k rest :
  saturated cur0 [] st ->
  elements (openSet st) = k :: rest ->
  ~ goal k ->
  saturated k (getPossibleMoves terrain k) (closeHead st k rest).
Proof.
  intros [Hstart Hknown Hgoal Hedges] Hq Hk. constructor.
  - now apply (live_closeHead _ _ _ _ Hq).
  - intros x Hx. apply (live_closeHead _ _ _ _ Hq). now apply Hknown.
  - intros x. simpl. rewrite elem_of_union, elem_of_singleton.
    intros [->|Hx]; [assumption|now apply Hgoal].
  - intros x q c. simpl. rewrite elem_of_union, elem_of_singleton.
    intros [->|Hx] Hedge; [left; auto|].
    destruct (Hedges x q c Hx Hedge) as [[_ Hnil]|Hq'];
      [now apply elem_of_nil in Hnil|].
    right. now apply (live_closeHead _ _ _ _ Hq).
Qed.

Lemma drained_queue_closed cur0 st :
  saturated cur0 [] st ->
  elements (openSet st) = [] ->
  forall q, rtc edge start q -> q ∈ closedSet st.
Proof.
  intros Hsat Hempty.
  assert (forall k, live st k -> k ∈ closedSet st) as Hall.
  { intros k [Hk|Hk]; [|assumption].
    rewrite Hempty in Hk. now apply elem_of_nil in Hk. }
  apply (rtc_ind_r (fun q => q ∈ closedSet st) start).
  - apply Hall. apply (sat_start _ _ _ Hsat).
  - intros y z Hy [c Hc] IH.
    destruct (sat_edges _ _ _ Hsat y z c IH Hc) as [[_ Hnil]|Hz];
      [now apply elem_of_nil in Hnil|now apply Hall].
Qed.

Lemma search_reaches fuel : forall cur0 st,
  sound st -> saturated cur0 [] st ->
  (exists q, rtc edge start q /\ goal q) ->
  (size (universe ∖ closedSet st) < fuel)%nat ->
  exists path,
    search fuel terrain tx ty b0 st = Some path /\ success path = true.
Proof.
  induction fuel as [|fuel IH]; intros cur0 st Hs Hsat Hreach Hsize; [lia|].
  destruct (elements (openSet st)) as [|k rest] eqn:Hq.
  - exfalso. destruct Hreach as (q & Hreach & Hgoal).
    apply (sat_goal _ _ _ Hsat q); [|assumption].
    eapply drained_queue_closed; eauto.
  - rewrite (search_step _ _ _ _ Hq).
    destruct (bool_decide (px k = tx) && bool_decide (py k = ty)) eqn:Hgoal.
    + eexists. split; reflexivity.
    + assert (~ goal k) as Hng.
      { intros [Hx Hy]. apply andb_false_iff in Hgoal as [H|H];
          apply bool_decide_eq_false in H; contradiction. }
      pose proof (closed_grows _ _ _ Hs Hq) as Hlt.
      apply (IH k).
      * now apply expand_sound.
      * apply foldl_relax_saturated.
        -- now apply closeHead_sound.
        -- now apply (closeHead_saturated cur0).
        -- simpl. apply elem_of_union. left. now apply elem_of_singleton.
        -- reflexivity.
      * assumption.
      * lia.
Qed.

End Search.

(** A number of turns of the [while] loop that always suffices. *)
Definition searchBound (terrain : Terrain) : nat :=
  4 * (Z.to_nat (rows terrain) * Z.to_nat (cols terrain)) + 5.

Lemma findPath_sound terrain start tx ty b0 k :
  exists path,
    findPath (searchBound terrain + k) terrain start tx ty b0 = Some path
    /\ battery path = b0 + cost (commands path)
    /\ (success path = true ->
        goal tx ty (OpenGrid.walk start (commands path))
        /\ legalPath terrain start (commands path) = true)
    /\ (success path = false -> commands path = []).
Proof.
  destruct (search_sound terrain start tx ty b0 (searchBound terrain + k)
              (initialSearch start tx ty b0)) as (path & Hp & Hb & Hok & Hfail).
  - apply sound_initial.
  - pose proof (size_universe terrain start) as Hle.
    assert (size (universe terrain start ∖ closedSet (initialSearch start tx ty b0))
            <= size (universe terrain start))%nat
      by (apply subseteq_size; intros x; rewrite elem_of_difference; tauto).
    unfold searchBound. lia.
  - exists path. split; [exact Hp|]. split; [exact Hb|]. split; [exact Hok|].
    intros Hf. now destruct (Hfail Hf).
Qed.

Lemma findPath_reaches terrain start tx ty b0 k cmds :
  -2 < b0 ->
  legalPath terrain start cmds = true ->
  goal tx ty (OpenGrid.walk start cmds) ->
  exists path,
    findPath (searchBound terrain + k) terrain start tx ty b0 = Some path
    /\ success path = true.
Proof.
  intros Hb Hlegal Hgoal.
  apply (search_reaches terrain start tx ty b0 Hb (searchBound terrain + k) start).
  - apply sound_initial.
  - now apply saturated_initial.
  - exists (OpenGrid.walk start cmds). split; [|assumption].
    now apply legalPath_reach.
  - pose proof (size_universe terrain start) as Hle.
    assert (size (universe terrain start ∖ closedSet (initialSearch start tx ty b0))
            <= size (universe terrain start))%nat
      by (apply subseteq_size; intros x; rewrite elem_of_difference; tauto).
    unfold searchBound. lia.
Qed.

End GridSearch.

(** ** The robot on a path of the pathfinder *)

Module Replay.
Import Robot RobotFacts.

Lemma facing_tables o :
  PathfindingService.getNewFacing o L = turnLeftFacing o
  /\ PathfindingService.getNewFacing o R = turnRightFacing o.
Proof. destruct o; split; reflexivity. Qed.

Lemma next_position r c :
  PathfindingService.getNextPosition (position r) c
  = mkPosition (fst (getNextPosition r c)) (snd (getNextPosition r c))
               (facing (position r)).
Proof.
  unfold PathfindingService.getNextPosition, getNextPosition.
  destruct (facing (position r)); reflexivity.
Qed.

(** One legal command on a robot that can pay for it. *)
Lemma exec_legal n c r :
  GridSearch.legal (terrain r) (position r) c = true ->
  PathfindingService.commandCosts c <= battery r ->
  executeCommand (Datatypes.S n) c r =
  Some (true,
        mk (terrain r) (battery r - PathfindingService.commandCosts c)
           (OpenGrid.step (position r) c)
           (match c with
            | F | B => addVisitedCell (visitedCells r)
                         (px (OpenGrid.step (position r) c))
                         (py (OpenGrid.step (position r) c))
            | _ => visitedCells r
            end)
           (samplesCollected r)
           (match c with
            | F | B => 0%nat
            | _ => currentBackoffStrategy r
            end)).
Proof.
  intros Hlegal Hcost.
  destruct c; try discriminate; simpl in Hlegal, Hcost.
  - apply negb_true_iff in Hlegal.
    rewrite exec_move_free; [|reflexivity|lia|].
    + unfold moveTo. cbn [OpenGrid.step]. rewrite next_position. reflexivity.
    + unfold blocked, isObstacle. rewrite next_position in Hlegal. exact Hlegal.
  - apply negb_true_iff in Hlegal.
    rewrite exec_move_free; [|reflexivity|lia|].
    + unfold moveTo. cbn [OpenGrid.step]. rewrite next_position. reflexivity.
    + unfold blocked, isObstacle. rewrite next_position in Hlegal. exact Hlegal.
  - rewrite exec_dispatch by (simpl; lia). cbn [dispatch OpenGrid.step].
    unfold turnLeft. now rewrite (proj1 (facing_tables _)).
  - rewrite exec_dispatch by (simpl; lia). cbn [dispatch OpenGrid.step].
    unfold turnRight. now rewrite (proj2 (facing_tables _)).
Qed.

Lemma runCommands_legal n cmds : forall r,
  GridSearch.legalPath (terrain r) (position r) cmds = true ->
  GridSearch.cost cmds <= battery r ->
  exists r',
    runCommands (Datatypes.S n) cmds r = Some r'
    /\ position r' = OpenGrid.walk (position r) cmds
    /\ battery r' = battery r - GridSearch.cost cmds
    /\ samplesCollected r' = samplesCollected r
    /\ terrain r' = terrain r.
Proof.
  induction cmds as [|c cmds IH]; intros r Hlegal Hcost.
  - exists r. unfold GridSearch.cost. simpl. repeat split; lia.
  - cbn [GridSearch.legalPath] in Hlegal. apply andb_prop in Hlegal as [Hc Hlegal].
    unfold GridSearch.cost in Hcost. rewrite fmap_cons in Hcost. cbn [foldr] in Hcost.
    fold (GridSearch.cost cmds) in Hcost.
    pose proof (GridSearch.legalPath_cost _ _ _ Hlegal) as Hpos.
    cbn [runCommands]. rewrite exec_legal by (auto; lia).
    match goal with |- context [runCommands _ _ ?x] => set (r1 := x) end.
    destruct (IH r1) as (r' & Hrun & Hp & Hb & Hs & Ht).
    + subst r1; simpl. exact Hlegal.
    + subst r1; simpl. lia.
    + exists r'. split; [exact Hrun|]. subst r1. simpl in *.
      repeat split; auto.
      unfold GridSearch.cost. rewrite fmap_cons. cbn [foldr].
      fold (GridSearch.cost cmds). lia.
Qed.

End Replay.

(** ** Properties of [findPath] on any terrain *)

(** X8. [findPath] returns after at most [searchBound] turns of its loop.
    A successful answer is a sequence of turns and moves that leads from
    the start to the target and enters only cells for which [isObstacle]
    answers [false]; the failure answer holds no command and the initial
    battery. *)
Theorem findPath_returns_legal_path terrain start tx ty b0 k :
  exists path,
    PathfindingService.findPath (GridSearch.searchBound terrain + k)
      terrain start tx ty b0 = Some path
    /\ (PathfindingService.success path = true ->
        px (OpenGrid.walk start (PathfindingService.commands path)) = tx
        /\ py (OpenGrid.walk start (PathfindingService.commands path)) = ty
        /\ GridSearch.legalPath terrain start (PathfindingService.commands path) = true)
    /\ (PathfindingService.success path = false ->
        PathfindingService.commands path = []
        /\ PathfindingService.battery path = b0).
Proof.
  destruct (GridSearch.findPath_sound terrain start tx ty b0 k)
    as (path & Hp & Hb & Hok & Hfail).
  exists path. split; [exact Hp|]. split.
  - intros Hs. destruct (Hok Hs) as [[Hx Hy] Hl]. auto.
  - intros Hf. specialize (Hfail Hf). split; [exact Hfail|].
    rewrite Hb, Hfail. unfold GridSearch.cost. simpl. lia.
Qed.

(** X9. The battery that [findPath] reports is the initial battery plus the
    summed [commandCosts] of the commands it returns, so it is never
    below the initial battery. *)
Theorem findPath_adds_cost_to_battery terrain start tx ty b0 k :
  exists path,
    PathfindingService.findPath (GridSearch.searchBound terrain + k)
      terrain start tx ty b0 = Some path
    /\ PathfindingService.battery path
       = b0 + GridSearch.cost (PathfindingService.commands path)
    /\ b0 <= PathfindingService.battery path.
Proof.
  destruct (GridSearch.findPath_sound terrain start tx ty b0 k)
    as (path & Hp & Hb & Hok & Hfail).
  exists path. split; [exact Hp|]. split; [exact Hb|].
  rewrite Hb. destruct (PathfindingService.success path) eqn:Hs.
  - destruct (Hok eq_refl) as [_ Hl]. apply GridSearch.legalPath_cost in Hl. lia.
  - rewrite (Hfail eq_refl). unfold GridSearch.cost. simpl. lia.
Qed.

(** X10. With a battery that is not negative, [findPath] succeeds exactly
    when some sequence of turns and moves through free cells leads from
    the start to the target. *)
Theorem findPath_succeeds_iff_reachable terrain start tx ty b0 k :
  0 <= b0 ->
  exists path,
    PathfindingService.findPath (GridSearch.searchBound terrain + k)
      terrain start tx ty b0 = Some path
    /\ (PathfindingService.success path = true <->
        exists cmds,
          GridSearch.legalPath terrain start cmds = true
          /\ px (OpenGrid.walk start cmds) = tx
          /\ py (OpenGrid.walk start cmds) = ty).
Proof.
  intros Hb0.
  destruct (GridSearch.findPath_sound terrain start tx ty b0 k)
    as (path & Hp & Hb & Hok & Hfail).
  exists path. split; [exact Hp|]. split.
  - intros Hs. destruct (Hok Hs) as [[Hx Hy] Hl]. eauto.
  - intros (cmds & Hl & Hx & Hy).
    destruct (GridSearch.findPath_reaches terrain start tx ty b0 k cmds)
      as (path' & Hp' & Hs'); [lia|assumption|split; assumption|].
    congruence.
Qed.

Lemma findPath_succeeds_iff_reachable_witness :
  exists path,
    PathfindingService.findPath (GridSearch.searchBound terrainA) terrainA
      (mkPosition 0 0 East) 2 1 50 = Some path
    /\ (PathfindingService.success path = true <->
        exists cmds,
          GridSearch.legalPath terrainA (mkPosition 0 0 East) cmds = true
          /\ px (OpenGrid.walk (mkPosition 0 0 East) cmds) = 2
          /\ py (OpenGrid.walk (mkPosition 0 0 East) cmds) = 1).
Proof.
  refine (findPath_succeeds_iff_reachable terrainA (mkPosition 0 0 East) 2 1 50 0 _).
  lia.
Defined.

(** X11. A search from a pose that is already on the target cell returns the
    empty sequence with success at once, whatever the terrain says about
    that cell. *)
Theorem findPath_start_on_target fuel terrain start b0 :
  PathfindingService.findPath (Datatypes.S fuel) terrain start (px start) (py start) b0
  = Some (PathfindingService.mkPath [] b0 true).
Proof.
  unfold PathfindingService.findPath.
  rewrite (GridSearch.search_step terrain (px start) (py start) b0 fuel _ start []);
    [|reflexivity].
  rewrite !bool_decide_eq_true_2 by reflexivity. simpl.
  now rewrite !lookup_singleton_eq.
Qed.

(** X12. A robot that stands where the search started, on the same terrain,
    and whose battery covers the summed costs of a path that [findPath]
    found, executes the path command by command without a backoff and
    ends on the target cell, its battery lowered by that sum. *)
Theorem robot_follows_found_path k r tx ty b0 :
  exists path,
    PathfindingService.findPath (GridSearch.searchBound (Robot.terrain r) + k)
      (Robot.terrain r) (Robot.position r) tx ty b0 = Some path
    /\ (PathfindingService.success path = true ->
        GridSearch.cost (PathfindingService.commands path) <= Robot.battery r ->
        exists r',
          Robot.runCommands (callDepth + k) (PathfindingService.commands path) r
          = Some r'
          /\ px (Robot.position r') = tx /\ py (Robot.position r') = ty
          /\ Robot.battery r'
             = Robot.battery r - GridSearch.cost (PathfindingService.commands path)
          /\ Robot.samplesCollected r' = Robot.samplesCollected r).
Proof.
  destruct (GridSearch.findPath_sound (Robot.terrain r) (Robot.position r) tx ty b0 k)
    as (path & Hp & Hb & Hok & Hfail).
  exists path. split; [exact Hp|]. intros Hs Hcost.
  destruct (Hok Hs) as [[Hx Hy] Hl].
  change (callDepth + k)%nat with (Datatypes.S (15 + k)).
  destruct (Replay.runCommands_legal (15 + k) _ r Hl Hcost)
    as (r' & Hrun & Hpos & Hbat & Hsam & _).
  exists r'. rewrite Hpos. auto.
Qed.

(** ** The priority queue *)

Module QueueFacts.
Import PathfindingService.

(** The queues [findPath] holds: the empty queue, a queue to which an
    element it does not contain has been added, a queue from which the
    head has been taken. *)
Inductive built : PriorityQueue -> Prop :=
| built_empty : built emptyQueue
| built_enqueue q k p :
    built q -> contains q k = false -> built (enqueue q k p)
| built_dequeue q k q' :
    built q -> dequeue q = Some (k, q') -> built q'.

Definition before (pr : gmap Position Z) (a b : Position) : Prop :=
  priorityOf pr a <= priorityOf pr b.

Record ordered (q : PriorityQueue) : Prop := mkOrdered {
  ord_nodup : NoDup (elements q);
  ord_keys : forall k, k ∈ elements q <-> is_Some (priorities q !! k);
  ord_sorted : StronglySorted (before (priorities q)) (elements q)
}.

Lemma sorted_ext (pr pr' : gmap Position Z) (l : list Position) :
  (forall x, x ∈ l -> priorityOf pr' x = priorityOf pr x) ->
  StronglySorted (before pr) l -> StronglySorted (before pr') l.
Proof.
  intros Hext Hs. induction Hs as [|a l Hs IH Ha]; constructor.
  - apply IH. intros x Hx. apply Hext. now right.
  - rewrite Forall_forall in *. intros x Hx. unfold before.
    rewrite (Hext a), (Hext x); [now apply Ha|now right|left].
Qed.

(** Where the stable sort puts an element that was pushed at the end of
    a sorted array: behind everything that is not greater, in front of
    everything that is. *)
Lemma sort_pushed pr k l :
  StronglySorted (before pr) l ->
  exists l1 l2,
    l = l1 ++ l2
    /\ sortByPriority pr (l ++ [k]) = l1 ++ k :: l2
    /\ Forall (fun x => priorityOf pr x <= priorityOf pr k) l1
    /\ Forall (fun x => priorityOf pr k < priorityOf pr x) l2.
Proof.
  unfold sortByPriority. induction 1 as [|a l Hs IH Ha].
  - exists [], []. repeat split; constructor.
  - destruct IH as (l1 & l2 & Hl & Hsort & H1 & H2).
    cbn [app foldr]. rewrite Hsort.
    destruct (Z.le_gt_cases (priorityOf pr a) (priorityOf pr k)) as [Hle|Hgt].
    + exists (a :: l1), l2. split; [now rewrite Hl|]. split.
      * destruct l1 as [|y l1]; simpl.
        -- destruct (Z.leb_spec (priorityOf pr a) (priorityOf pr k)); [reflexivity|lia].
        -- assert (priorityOf pr a <= priorityOf pr y) as Hay.
           { rewrite Forall_forall in Ha. apply Ha. rewrite Hl. left. }
           destruct (Z.leb_spec (priorityOf pr a) (priorityOf pr y)); [reflexivity|lia].
      * split; [constructor; assumption|assumption].
    + assert (l1 = []) as ->.
      { destruct l1 as [|y l1]; [reflexivity|]. exfalso.
        apply Forall_cons in H1 as [Hy _].
        rewrite Forall_forall in Ha. specialize (Ha y). unfold before in Ha.
        rewrite Hl in Ha. specialize (Ha (list_elem_of_here _ _)). lia. }
      simpl in Hl. subst l2. exists [], (a :: l). split; [reflexivity|]. split.
      * simpl. destruct (Z.leb_spec (priorityOf pr a) (priorityOf pr k)); [lia|].
        f_equal. destruct l as [|y l]; simpl; [reflexivity|].
        assert (priorityOf pr a <= priorityOf pr y) as Hay.
        { rewrite Forall_forall in Ha. apply Ha. left. }
        destruct (Z.leb_spec (priorityOf pr a) (priorityOf pr y)); [reflexivity|lia].
      * split; [constructor|]. constructor; [lia|exact H2].
Qed.

Lemma enqueue_position q k p :
  ordered q -> contains q k = false ->
  exists l1 l2,
    elements q = l1 ++ l2
    /\ elements (enqueue q k p) = l1 ++ k :: l2
    /\ Forall (fun x => priorityOf (priorities q) x <= p) l1
    /\ Forall (fun x => p < priorityOf (priorities q) x) l2.
Proof.
  intros [Hnd Hkeys Hsorted] Hk.
  apply bool_decide_eq_false in Hk.
  assert (k ∉ elements q) as Hnotin by (intros Hin; apply Hk; now apply Hkeys).
  assert (forall x, x ∈ elements q ->
            priorityOf (<[k := p]> (priorities q)) x = priorityOf (priorities q) x)
    as Hext.
  { intros x Hx. rewrite StraightLine.priorityOf_insert.
    destruct (decide (x = k)) as [->|]; [contradiction|reflexivity]. }
  destruct (sort_pushed (<[k := p]> (priorities q)) k (elements q))
    as (l1 & l2 & Hl & Hsort & H1 & H2).
  { eapply sorted_ext; [|exact Hsorted]. exact Hext. }
  exists l1, l2. split; [exact Hl|]. split; [exact Hsort|].
  rewrite StraightLine.priorityOf_insert in H1, H2.
  destruct (decide (k = k)) as [_|]; [|contradiction].
  split.
  - rewrite Forall_forall in *. intros x Hx. rewrite <- Hext; [now apply H1|].
    rewrite Hl. apply elem_of_app. now left.
  - rewrite Forall_forall in *. intros x Hx. rewrite <- Hext; [now apply H2|].
    rewrite Hl. apply elem_of_app. now right.
Qed.

Lemma enqueue_ordered q k p :
  ordered q -> contains q k = false -> ordered (enqueue q k p).
Proof.
  intros Hq Hk.
  destruct (enqueue_position q k p Hq Hk) as (l1 & l2 & Hl & Hen & H1 & H2).
  destruct Hq as [Hnd Hkeys Hsorted].
  apply bool_decide_eq_false in Hk.
  assert (k ∉ elements q) as Hnotin by (intros Hin; apply Hk; now apply Hkeys).
  constructor.
  - rewrite OpenGrid.enqueue_elements. apply NoDup_cons. auto.
  - intros x. rewrite OpenGrid.enqueue_elements, elem_of_cons.
    cbn [priorities enqueue]. rewrite lookup_insert_is_Some, Hkeys.
    destruct (decide (k = x)) as [->|Hne]; [tauto|].
    split; [intros [?|?]; [congruence|right; auto]|].
    intros [?|[_ ?]]; [congruence|now right].
  - rewrite Hen. cbn [priorities enqueue].
    assert (forall x, x ∈ elements q ->
              priorityOf (<[k := p]> (priorities q)) x = priorityOf (priorities q) x)
      as Hext.
    { intros x Hx. rewrite StraightLine.priorityOf_insert.
      destruct (decide (x = k)) as [->|]; [contradiction|reflexivity]. }
    assert (priorityOf (<[k := p]> (priorities q)) k = p) as Hpk.
    { rewrite StraightLine.priorityOf_insert.
      destruct (decide (k = k)); [reflexivity|contradiction]. }
    apply (sorted_ext (priorities q) (<[k := p]> (priorities q))) in Hsorted;
      [|exact Hext].
    rewrite Hl in Hsorted, Hext.
    apply StronglySorted_app in Hsorted as (H12 & Hs1 & Hs2).
    rewrite Forall_forall in H1, H2.
    apply StronglySorted_app. split; [|split; [exact Hs1|]].
    + intros x y Hx Hy. apply elem_of_cons in Hy as [->|Hy]; [|now apply H12].
      unfold before. rewrite Hpk, Hext by (apply elem_of_app; auto).
      now apply H1.
    + apply StronglySorted_cons. split; [|exact Hs2].
      apply Forall_forall. intros y Hy. unfold before.
      rewrite Hpk, Hext by (apply elem_of_app; auto).
      specialize (H2 y Hy). lia.
Qed.

Lemma dequeue_ordered q k q' :
  ordered q -> dequeue q = Some (k, q') ->
  ordered q'
  /\ elements q = k :: elements q'
  /\ priorities q' = delete k (priorities q)
  /\ Forall (before (priorities q) k) (elements q').
Proof.
  intros [Hnd Hkeys Hsorted] Hd. unfold dequeue in Hd.
  destruct (elements q) as [|k0 rest] eqn:Hq; [discriminate|].
  inversion Hd; subst k0 q'. clear Hd. simpl.
  apply NoDup_cons in Hnd as [Hk Hnd].
  apply StronglySorted_cons in Hsorted as [Hmin Hsorted].
  split; [|auto].
  constructor; simpl.
  - exact Hnd.
  - intros x. rewrite lookup_delete_is_Some, <- Hkeys, elem_of_cons.
    split; [intros Hx; split; [intros ->; contradiction|now right]|].
    intros [Hne [?|?]]; [congruence|assumption].
  - eapply sorted_ext; [|exact Hsorted].
    intros x Hx. apply StraightLine.priorityOf_delete. intros ->. contradiction.
Qed.

Lemma built_ordered q : built q -> ordered q.
Proof.
  induction 1 as [|q k p _ IH Hk|q k q' _ IH Hd].
  - constructor; simpl.
    + constructor.
    + intros k. rewrite lookup_empty. split; [intros H; now apply elem_of_nil in H|].
      intros [? ?]; discriminate.
    + constructor.
  - now apply enqueue_ordered.
  - now apply (dequeue_ordered q k q').
Qed.

End QueueFacts.

(** X13. In a queue that was built from the empty queue by enqueueing
    elements it did not contain and by dequeueing, [dequeue] takes the
    head of [elements], an element whose stored priority is not greater
    than that of any element left; it removes the element's priority,
    so [contains] no longer finds it, and leaves the others as they
    were. *)
Theorem dequeue_takes_least_priority q k q' :
  QueueFacts.built q ->
  PathfindingService.dequeue q = Some (k, q') ->
  PathfindingService.elements q = k :: PathfindingService.elements q'
  /\ PathfindingService.contains q' k = false
  /\ (exists p, PathfindingService.priorities q !! k = Some p
        /\ forall k' p', PathfindingService.priorities q' !! k' = Some p' ->
                         PathfindingService.priorities q !! k' = Some p' /\ p <= p').
Proof.
  intros Hb Hd. apply QueueFacts.built_ordered in Hb as Hq.
  destruct (QueueFacts.dequeue_ordered q k q' Hq Hd) as (Hq' & Hel & Hpr & Hmin).
  split; [exact Hel|]. split.
  - apply bool_decide_eq_false. rewrite Hpr, lookup_delete_eq. intros [? ?]; discriminate.
  - assert (is_Some (PathfindingService.priorities q !! k)) as [p Hp].
    { apply (QueueFacts.ord_keys _ Hq). rewrite Hel. left. }
    exists p. split; [exact Hp|]. intros k' p' Hk'.
    rewrite Hpr in Hk'. apply lookup_delete_Some in Hk' as [Hne Hk'].
    split; [exact Hk'|].
    assert (k' ∈ PathfindingService.elements q') as Hin.
    { assert (k' ∈ PathfindingService.elements q) as Hin'
        by (apply (QueueFacts.ord_keys _ Hq); eauto).
      rewrite Hel in Hin'. apply elem_of_cons in Hin' as [->|H]; [contradiction|exact H]. }
    rewrite Forall_forall in Hmin. specialize (Hmin k' Hin).
    unfold QueueFacts.before, PathfindingService.priorityOf in Hmin.
    now rewrite Hp, Hk' in Hmin.
Qed.

Lemma dequeue_takes_least_priority_witness :
  PathfindingService.elements
    (PathfindingService.enqueue
       (PathfindingService.enqueue PathfindingService.emptyQueue
          (mkPosition 0 0 East) 5) (mkPosition 1 0 East) 3)
  = mkPosition 1 0 East
    :: PathfindingService.elements
         (PathfindingService.enqueue PathfindingService.emptyQueue
            (mkPosition 0 0 East) 5).
Proof.
  refine (proj1 (dequeue_takes_least_priority
                   (PathfindingService.enqueue
                      (PathfindingService.enqueue PathfindingService.emptyQueue
                         (mkPosition 0 0 East) 5) (mkPosition 1 0 East) 3)
                   (mkPosition 1 0 East) _ _ _)).
  - apply QueueFacts.built_enqueue; [|vm_compute; reflexivity].
    apply QueueFacts.built_enqueue; [|vm_compute; reflexivity].
    apply QueueFacts.built_empty.
  - vm_compute. reflexivity.
Defined.

(** X14. In such a queue, [enqueue] of an element the queue does not
    contain keeps every element, in the order they had, and puts the
    new one behind all elements whose priority is not greater than its
    own and in front of all elements whose priority is greater: among
    equal priorities the queue is first in, first out. *)
Theorem enqueue_is_stable q k p :
  QueueFacts.built q ->
  PathfindingService.contains q k = false ->
  PathfindingService.contains (PathfindingService.enqueue q k p) k = true
  /\ exists l1 l2,
       PathfindingService.elements q = l1 ++ l2
       /\ PathfindingService.elements (PathfindingService.enqueue q k p)
          = l1 ++ k :: l2
       /\ Forall (fun x => exists px, PathfindingService.priorities q !! x = Some px
                                       /\ px <= p) l1
       /\ Forall (fun x => exists px, PathfindingService.priorities q !! x = Some px
                                       /\ p < px) l2.
Proof.
  intros Hb Hk. apply QueueFacts.built_ordered in Hb as Hq. split.
  - apply bool_decide_eq_true. cbn [PathfindingService.priorities PathfindingService.enqueue].
    rewrite lookup_insert_eq. eauto.
  - destruct (QueueFacts.enqueue_position q k p Hq Hk) as (l1 & l2 & Hl & Hen & H1 & H2).
    exists l1, l2. split; [exact Hl|]. split; [exact Hen|].
    rewrite Forall_forall in H1, H2. split; apply Forall_forall; intros x Hx.
    + assert (is_Some (PathfindingService.priorities q !! x)) as [px Hpx].
      { apply (QueueFacts.ord_keys _ Hq). rewrite Hl. apply elem_of_app. now left. }
      exists px. split; [exact Hpx|]. specialize (H1 x Hx).
      unfold PathfindingService.priorityOf in H1. now rewrite Hpx in H1.
    + assert (is_Some (PathfindingService.priorities q !! x)) as [px Hpx].
      { apply (QueueFacts.ord_keys _ Hq). rewrite Hl. apply elem_of_app. now right. }
      exists px. split; [exact Hpx|]. specialize (H2 x Hx).
      unfold PathfindingService.priorityOf in H2. now rewrite Hpx in H2.
Qed.

Lemma enqueue_is_stable_witness :
  PathfindingService.contains
    (PathfindingService.enqueue
       (PathfindingService.enqueue PathfindingService.emptyQueue
          (mkPosition 0 0 East) 5) (mkPosition 1 0 East) 5)
    (mkPosition 1 0 East) = true.
Proof.
  refine (proj1 (enqueue_is_stable
                   (PathfindingService.enqueue PathfindingService.emptyQueue
                      (mkPosition 0 0 East) 5) (mkPosition 1 0 East) 5 _ _)).
  - apply QueueFacts.built_enqueue; [|vm_compute; reflexivity].
    apply QueueFacts.built_empty.
  - vm_compute. reflexivity.
Defined.

(** ** The legs of a mission plan *)

Module PlanFacts.
Import PathfindingService.

Definition samples (cmds : list Command) : nat :=
  length (filter (fun c => c = S) cmds).

Lemma samples_app a b : samples (a ++ b) = (samples a + samples b)%nat.
Proof. unfold samples. now rewrite filter_app, length_app. Qed.

Lemma legal_no_sample terrain cmds : forall p,
  GridSearch.legalPath terrain p cmds = true -> samples cmds = 0%nat.
Proof.
  induction cmds as [|c cmds IH]; intros p H; [reflexivity|].
  cbn [GridSearch.legalPath] in H. apply andb_prop in H as [Hc H].
  change (c :: cmds) with ([c] ++ cmds). rewrite samples_app, (IH _ H).
  destruct c; try discriminate; reflexivity.
Qed.

(** What [findPath] answers once its loop has turns enough. *)
Lemma findPath_answer terrain start tx ty b0 k :
  exists path,
    findPath (GridSearch.searchBound terrain + k) terrain start tx ty b0 = Some path
    /\ b0 <= battery path
    /\ samples (commands path) = 0%nat.
Proof.
  destruct (GridSearch.findPath_sound terrain start tx ty b0 k)
    as (path & Hp & Hb & Hok & Hfail).
  exists path. split; [exact Hp|].
  destruct (success path) eqn:Hs.
  - destruct (Hok eq_refl) as [_ Hl]. split.
    + apply GridSearch.legalPath_cost in Hl. lia.
    + eapply legal_no_sample; eauto.
  - rewrite Hb, (Hfail eq_refl). unfold GridSearch.cost. simpl. split; [lia|reflexivity].
Qed.

(** The inner loop: the candidate it keeps. *)
Definition candidate (fuel : nat) (terrain : Terrain) (pos : Position) (b : Z)
  (locs : list (Z * Z)) (best : option ((Z * Z) * Path)) : Prop :=
  match best with
  | None =>
      forall loc path, loc ∈ locs ->
        findPath fuel terrain pos loc.1 loc.2 b = Some path -> success path = false
  | Some (loc, path) =>
      loc ∈ locs
      /\ findPath fuel terrain pos loc.1 loc.2 b = Some path
      /\ success path = true
      /\ forall loc' path', loc' ∈ locs ->
           findPath fuel terrain pos loc'.1 loc'.2 b = Some path' ->
           success path' = true ->
           (length (commands path) <= length (commands path'))%nat
  end.

Lemma bestPathTo_candidate terrain pos b k (locs : list (Z * Z)) :
  forall seen best,
    candidate (GridSearch.searchBound terrain + k) terrain pos b seen best ->
    exists best',
      bestPathTo (GridSearch.searchBound terrain + k) terrain pos b locs best
      = Some best'
      /\ candidate (GridSearch.searchBound terrain + k) terrain pos b
           (seen ++ locs) best'.
Proof.
  induction locs as [|loc locs IH]; intros seen best Hc.
  - exists best. rewrite app_nil_r. auto.
  - cbn [bestPathTo].
    destruct (GridSearch.findPath_sound terrain pos loc.1 loc.2 b k)
      as (path & Hp & _).
    rewrite Hp.
    replace (seen ++ loc :: locs) with ((seen ++ [loc]) ++ locs)
      by now rewrite <- app_assoc.
    apply IH. clear IH.
    destruct (success path) eqn:Hs; simpl.
    + destruct best as [[bl bp]|].
      * destruct Hc as (Hin & Hbp & Hbs & Hmin).
        case_bool_decide as Hlt.
        -- split; [apply elem_of_app; right; left|].
           split; [exact Hp|]. split; [exact Hs|].
           intros loc' path' Hin' Hp' Hs'.
           apply elem_of_app in Hin' as [Hin'|Hin'].
           ++ specialize (Hmin loc' path' Hin' Hp' Hs'). lia.
           ++ apply list_elem_of_singleton in Hin'. subst loc'.
              assert (path' = path) as -> by congruence. lia.
        -- split; [apply elem_of_app; now left|].
           split; [exact Hbp|]. split; [exact Hbs|].
           intros loc' path' Hin' Hp' Hs'.
           apply elem_of_app in Hin' as [Hin'|Hin'].
           ++ now apply (Hmin loc' path').
           ++ apply list_elem_of_singleton in Hin'. subst loc'.
              assert (path' = path) as -> by congruence. lia.
      * split; [apply elem_of_app; right; left|].
        split; [exact Hp|]. split; [exact Hs|].
        intros loc' path' Hin' Hp' Hs'.
        apply elem_of_app in Hin' as [Hin'|Hin'].
        -- specialize (Hc loc' path' Hin' Hp'). congruence.
        -- apply list_elem_of_singleton in Hin'. subst loc'.
           assert (path' = path) as -> by congruence. lia.
    + destruct best as [[bl bp]|].
      * destruct Hc as (Hin & Hbp & Hbs & Hmin).
        split; [apply elem_of_app; now left|].
        split; [exact Hbp|]. split; [exact Hbs|].
        intros loc' path' Hin' Hp' Hs'.
        apply elem_of_app in Hin' as [Hin'|Hin'].
        -- now apply (Hmin loc' path').
        -- apply list_elem_of_singleton in Hin'. subst loc'.
           assert (path' = path) as -> by congruence. congruence.
      * intros loc' path' Hin' Hp'.
        apply elem_of_app in Hin' as [Hin'|Hin'].
        -- now apply (Hc loc' path').
        -- apply list_elem_of_singleton in Hin'. subst loc'.
           congruence.
Qed.

(** The outer loop. *)
Lemma planLoop_samples terrain k (targets : list Target) :
  forall pos b cmds,
    exists plan,
      planLoop (GridSearch.searchBound terrain + k) terrain targets pos b cmds
      = Some plan
      /\ (samples cmds <= samples (commands plan)
          <= samples cmds + length targets)%nat
      /\ (success plan = true ->
          samples (commands plan) = (samples cmds + length targets)%nat
          /\ (targets <> [] -> 0 <= battery plan)).
Proof.
  induction targets as [|target rest IH]; intros pos b cmds.
  - eexists. split; [reflexivity|]. simpl. split; [lia|].
    intros _. split; [lia|]. intros H. contradiction.
  - cbn [planLoop].
    destruct (bestPathTo_candidate terrain pos b k (locations target) [] None)
      as (best & Hbest & Hcand).
    { intros loc path Hin. now apply elem_of_nil in Hin. }
    rewrite Hbest. destruct best as [[loc path]|].
    2:{ eexists. split; [reflexivity|]. simpl. split; [lia|discriminate]. }
    destruct Hcand as (_ & Hp & Hs & _).
    destruct (findPath_answer terrain pos loc.1 loc.2 b k) as (path' & Hp' & Hb & Hns).
    assert (path' = path) as -> by congruence.
    destruct (Z.leb_spec 8 (battery path)) as [H8|H8].
    { destruct (IH (mkPosition loc.1 loc.2 (facing pos)) (battery path - 8)
                  ((cmds ++ commands path) ++ [S])) as (plan & Hplan & Hcount & Hok).
      exists plan. split; [exact Hplan|].
      rewrite !samples_app, Hns in Hcount, Hok. cbn [length].
      change (samples [S]) with 1%nat in *.
      split; [lia|]. intros Hsucc. destruct (Hok Hsucc) as [Hn Hbat].
      split; [lia|]. intros _.
      destruct rest as [|t rest]; [|apply Hbat; discriminate].
      simpl in Hplan. inversion Hplan; subst; simpl. lia. }
    destruct (Z.leb_spec 1 (battery path)) as [H1|H1].
    { destruct (IH (mkPosition loc.1 loc.2 (facing pos)) (battery path + 9 - 8)
                  ((cmds ++ commands path) ++ [E; S])) as (plan & Hplan & Hcount & Hok).
      exists plan. split; [exact Hplan|].
      rewrite !samples_app, Hns in Hcount, Hok. cbn [length].
      change (samples [E; S]) with 1%nat in *.
      split; [lia|]. intros Hsucc. destruct (Hok Hsucc) as [Hn Hbat].
      split; [lia|]. intros _.
      destruct rest as [|t rest]; [|apply Hbat; discriminate].
      simpl in Hplan. inversion Hplan; subst; simpl. lia. }
    eexists. split; [reflexivity|]. simpl.
    rewrite samples_app, Hns. split; [lia|discriminate].
Qed.

End PlanFacts.

(** X15. The inner loop of [generateMissionPlan] over the locations of
    one terrain type returns.  It keeps no path only when [findPath]
    fails for every location; otherwise it keeps a location of the list
    together with the successful answer of [findPath] for it, and no
    location of the list has a successful answer with fewer commands. *)
Theorem planner_picks_a_shortest_leg terrain pos b k locs :
  exists best,
    PathfindingService.bestPathTo (GridSearch.searchBound terrain + k)
      terrain pos b locs None = Some best
    /\ match best with
       | None =>
           forall loc path, loc ∈ locs ->
             PathfindingService.findPath (GridSearch.searchBound terrain + k)
               terrain pos loc.1 loc.2 b = Some path ->
             PathfindingService.success path = false
       | Some (loc, path) =>
           loc ∈ locs
           /\ PathfindingService.findPath (GridSearch.searchBound terrain + k)
                terrain pos loc.1 loc.2 b = Some path
           /\ PathfindingService.success path = true
           /\ forall loc' path', loc' ∈ locs ->
                PathfindingService.findPath (GridSearch.searchBound terrain + k)
                  terrain pos loc'.1 loc'.2 b = Some path' ->
                PathfindingService.success path' = true ->
                (length (PathfindingService.commands path)
                 <= length (PathfindingService.commands path'))%nat
       end.
Proof.
  destruct (PlanFacts.bestPathTo_candidate terrain pos b k locs [] None)
    as (best & Hbest & Hcand).
  { intros loc path Hin. now apply elem_of_nil in Hin. }
  exists best. split; [exact Hbest|]. exact Hcand.
Qed.

(** X16. [generateMissionPlan] returns on every input.  Its plan holds at
    most one [S] per distinct terrain type other than "Obs"; a plan
    reported as successful holds exactly one per type, and when there is
    a type to sample its reported battery is not negative. *)
Theorem mission_plan_samples_each_type_once terrain start b0 k :
  exists plan,
    PathfindingService.generateMissionPlan (GridSearch.searchBound terrain + k)
      terrain start b0 = Some plan
    /\ (PlanFacts.samples (PathfindingService.commands plan)
        <= length (PathfindingService.terrainTypes terrain))%nat
    /\ (PathfindingService.success plan = true ->
        PlanFacts.samples (PathfindingService.commands plan)
        = length (PathfindingService.terrainTypes terrain)
        /\ (PathfindingService.terrainTypes terrain <> [] ->
            0 <= PathfindingService.battery plan)).
Proof.
  unfold PathfindingService.generateMissionPlan.
  destruct (PlanFacts.planLoop_samples terrain k
              (PathfindingService.sortTargets start
                 (PathfindingService.collectTargets terrain)) start b0 [])
    as (plan & Hplan & Hcount & Hok).
  assert (length (PathfindingService.sortTargets start
                    (PathfindingService.collectTargets terrain))
          = length (PathfindingService.terrainTypes terrain)) as Hlen.
  { rewrite (PlannerFacts.sortTargets_perm start).
    rewrite <- (proj1 (PlannerFacts.collectTargets_types terrain)).
    now rewrite length_fmap. }
  rewrite Hlen in Hcount, Hok.
  exists plan. split; [exact Hplan|]. simpl in Hcount. split; [lia|].
  intros Hs. destruct (Hok Hs) as [Hn Hbat]. split; [simpl in Hn; lia|].
  intros Hne. apply Hbat. intros Hnil. apply Hne.
  apply length_zero_iff_nil. rewrite <- Hlen, Hnil. reflexivity.
Qed.

(** ** The legs of a mission plan, in the order of the sorted targets *)

Module PlanLegs.
Import PathfindingService.

(** One turn of the loop over the targets that reached its end: the
    target, the location chosen for it, the path there, and whether a
    recharge was planned before the sample. *)
Record Leg := mkLeg {
  legTarget : Target;
  legLocation : Z * Z;
  legPath : list Command;
  legRecharge : bool
}.

(** What such a turn appends to [allCommands]. *)
Definition legCommands (l : Leg) : list Command :=
  legPath l ++ (if legRecharge l then [E; S] else [S]).

(** The legs follow one another: each path is a legal way from the pose
    the planner holds to a location of the leg's target, and the pose
    held for the next leg is that location with the facing kept. *)
Fixpoint wellLed (terrain : Terrain) (pos : Position) (legs : list Leg) : Prop :=
  match legs with
  | [] => True
  | l :: rest =>
      legLocation l ∈ locations (legTarget l)
      /\ GridSearch.legalPath terrain pos (legPath l) = true
      /\ px (OpenGrid.walk pos (legPath l)) = (legLocation l).1
      /\ py (OpenGrid.walk pos (legPath l)) = (legLocation l).2
      /\ wellLed terrain
           (mkPosition (legLocation l).1 (legLocation l).2 (facing pos)) rest
  end.

Lemma legal_plain terrain cmds : forall p,
  GridSearch.legalPath terrain p cmds = true -> (S ∉ cmds) /\ (E ∉ cmds).
Proof.
  induction cmds as [|c cmds IH]; intros p H.
  - split; apply not_elem_of_nil.
  - cbn [GridSearch.legalPath] in H. apply andb_prop in H as [Hc H].
    destruct (IH _ H) as [HS HE].
    split; apply not_elem_of_cons; (split; [|assumption]);
      intros Heq; subst c; discriminate.
Qed.

(** The loop over the targets, from any of its turns on. *)
Lemma planLoop_legs terrain k (targets : list Target) :
  forall pos b cmds,
    exists plan legs tail,
      planLoop (GridSearch.searchBound terrain + k) terrain targets pos b cmds
      = Some plan
      /\ commands plan = cmds ++ concat (legCommands <$> legs) ++ tail
      /\ legTarget <$> legs `prefix_of` targets
      /\ wellLed terrain pos legs
      /\ (S ∉ tail) /\ (E ∉ tail)
      /\ (success plan = true -> legTarget <$> legs = targets /\ tail = [])
      /\ (success plan = false -> legTarget <$> legs <> targets).
Proof.
  induction targets as [|target rest IH]; intros pos b cmds.
  - exists (mkPath cmds b true), [], []. simpl.
    rewrite app_nil_r.
    repeat split; auto using not_elem_of_nil; try discriminate.
  - cbn [planLoop].
    destruct (PlanFacts.bestPathTo_candidate terrain pos b k (locations target) [] None)
      as (best & Hbest & Hcand).
    { intros loc path Hin. now apply elem_of_nil in Hin. }
    rewrite Hbest. destruct best as [[loc path]|].
    2:{ exists (mkPath cmds b false), [], []. simpl. rewrite app_nil_r.
        repeat split; auto using not_elem_of_nil, prefix_nil; try discriminate. }
    destruct Hcand as (Hin & Hp & Hs & _). simpl in Hin.
    destruct (GridSearch.findPath_sound terrain pos loc.1 loc.2 b k)
      as (path' & Hp' & _ & Hok & _).
    assert (path' = path) as -> by congruence.
    destruct (Hok Hs) as [[Hx Hy] Hlegal].
    destruct (legal_plain _ _ _ Hlegal) as [HnoS HnoE].
    assert (forall (recharge : bool) (b' : Z) (plan : Path) (legs : list Leg)
                   (tail : list Command),
              planLoop (GridSearch.searchBound terrain + k) terrain rest
                (mkPosition loc.1 loc.2 (facing pos)) b'
                ((cmds ++ commands path) ++ (if recharge then [E; S] else [S]))
              = Some plan ->
              commands plan
              = ((cmds ++ commands path) ++ (if recharge then [E; S] else [S]))
                ++ concat (legCommands <$> legs) ++ tail ->
              legTarget <$> legs `prefix_of` rest ->
              wellLed terrain (mkPosition loc.1 loc.2 (facing pos)) legs ->
              (success plan = true -> legTarget <$> legs = rest /\ tail = []) ->
              (success plan = false -> legTarget <$> legs <> rest) ->
              commands plan
              = cmds ++ concat (legCommands <$> mkLeg target loc (commands path) recharge :: legs)
                ++ tail
              /\ legTarget <$> (mkLeg target loc (commands path) recharge :: legs)
                 `prefix_of` target :: rest
              /\ wellLed terrain pos (mkLeg target loc (commands path) recharge :: legs)
              /\ (success plan = true ->
                  legTarget <$> (mkLeg target loc (commands path) recharge :: legs)
                  = target :: rest /\ tail = [])
              /\ (success plan = false ->
                  legTarget <$> (mkLeg target loc (commands path) recharge :: legs)
                  <> target :: rest)) as Hcons.
    { intros recharge b' plan legs tail _ Hcmds Hpre Hled Hsucc Hfail.
      split; [|split; [|split; [|split]]].
      - rewrite Hcmds, fmap_cons. cbn [concat]. unfold legCommands at 2. simpl.
        now rewrite <- !app_assoc.
      - rewrite fmap_cons. simpl. now apply prefix_cons.
      - simpl. auto.
      - intros Ht. destruct (Hsucc Ht) as [Heq ->]. rewrite fmap_cons, Heq. auto.
      - intros Hf Heq. rewrite fmap_cons in Heq. simpl in Heq.
        inversion Heq. now apply (Hfail Hf). }
    destruct (Z.leb_spec 8 (battery path)) as [H8|H8].
    { destruct (IH (mkPosition loc.1 loc.2 (facing pos)) (battery path - 8)
                  ((cmds ++ commands path) ++ [S]))
        as (plan & legs & tail & Hplan & Hcmds & Hpre & Hled & HtS & HtE & Hsucc & Hfail).
      exists plan, (mkLeg target loc (commands path) false :: legs), tail.
      split; [exact Hplan|].
      destruct (Hcons false _ _ _ _ Hplan Hcmds Hpre Hled Hsucc Hfail)
        as (H1 & H2 & H3 & H4 & H5).
      repeat split; auto; try apply H4; try apply H5; auto. }
    destruct (Z.leb_spec 1 (battery path)) as [H1|H1].
    { destruct (IH (mkPosition loc.1 loc.2 (facing pos)) (battery path + 9 - 8)
                  ((cmds ++ commands path) ++ [E; S]))
        as (plan & legs & tail & Hplan & Hcmds & Hpre & Hled & HtS & HtE & Hsucc & Hfail).
      exists plan, (mkLeg target loc (commands path) true :: legs), tail.
      split; [exact Hplan|].
      destruct (Hcons true _ _ _ _ Hplan Hcmds Hpre Hled Hsucc Hfail)
        as (H1' & H2 & H3 & H4 & H5).
      repeat split; auto; try apply H4; try apply H5; auto. }
    exists (mkPath (cmds ++ commands path) (battery path) false), [], (commands path).
    simpl. repeat split; auto using prefix_nil; try discriminate.
Qed.

End PlanLegs.

(** C8. [generateMissionPlan] lists the distinct terrain types other
    than Obs, each with all its locations, computes for each the least
    Manhattan distance from the initial start pose to one of its
    locations, and runs its loop over the types in ascending order of
    that distance.  The order is fixed before the loop starts and the
    plan that is returned follows it: the commands of the plan are, one
    after the other, the legs of the first targets of that sorted list,
    in the order of the list, each leg a legal path from the pose the
    planner holds to a location of its target followed by the sample
    (after a recharge or not); all targets when the plan is successful,
    and in a failed plan what may follow the last leg is a path without
    a sample.  On the strip B S S A S C from (2,0) the plan samples S,
    A, B, C in that order, although from (3,0), where A is sampled, C is
    nearer than B. *)
Theorem mission_plan_order fuel terrain start b0 :
  PathfindingService.generateMissionPlan fuel terrain start b0
  = PathfindingService.planLoop fuel terrain
      (PathfindingService.sortTargets start (PathfindingService.collectTargets terrain))
      start b0 []
  /\ PathfindingService.sortTargets start (PathfindingService.collectTargets terrain)
     ≡ₚ PathfindingService.collectTargets terrain
  /\ PathfindingService.type <$> PathfindingService.collectTargets terrain
     = PathfindingService.terrainTypes terrain
  /\ NoDup (PathfindingService.terrainTypes terrain)
  /\ (forall ty, ty ∈ PathfindingService.terrainTypes terrain <->
        ty <> Some "Obs"%string /\ PlannerFacts.occurs terrain ty)
  /\ StronglySorted (PlannerFacts.closerFrom start)
       (PathfindingService.sortTargets start (PathfindingService.collectTargets terrain))
  /\ Forall (fun t =>
        PathfindingService.locations t
        = PathfindingService.findTerrainLocations terrain (PathfindingService.type t)
        /\ (exists loc, loc ∈ PathfindingService.locations t
              /\ PlannerFacts.startDistance start t
                 = PathfindingService.manhattanDistance (px start) (py start) loc.1 loc.2)
        /\ Forall (fun loc =>
              PlannerFacts.startDistance start t
              <= PathfindingService.manhattanDistance (px start) (py start) loc.1 loc.2)
             (PathfindingService.locations t))
       (PathfindingService.sortTargets start (PathfindingService.collectTargets terrain))
  /\ (forall k, exists plan legs tail,
        PathfindingService.generateMissionPlan (GridSearch.searchBound terrain + k)
          terrain start b0 = Some plan
        /\ PathfindingService.commands plan
           = concat (PlanLegs.legCommands <$> legs) ++ tail
        /\ PlanLegs.legTarget <$> legs
           `prefix_of` PathfindingService.sortTargets start
                         (PathfindingService.collectTargets terrain)
        /\ PlanLegs.wellLed terrain start legs
        /\ (S ∉ tail) /\ (E ∉ tail)
        /\ (PathfindingService.success plan = true <->
            PlanLegs.legTarget <$> legs
            = PathfindingService.sortTargets start
                (PathfindingService.collectTargets terrain))
        /\ (PathfindingService.success plan = true -> tail = []))
  /\ (PathfindingService.type <$>
        PathfindingService.sortTargets (mkPosition 2 0 East)
          (PathfindingService.collectTargets strip)
      = [Some "S"; Some "A"; Some "B"; Some "C"]%string
      /\ PathfindingService.generateMissionPlan 32 strip (mkPosition 2 0 East) 100
         = Some (PathfindingService.mkPath
                   [S; F; S; B; B; B; S; F; F; F; F; F; S] 95 true)
      /\ PathfindingService.nearestDistance (mkPosition 3 0 East) [(5, 0)]
         < PathfindingService.nearestDistance (mkPosition 3 0 East) [(0, 0)]).
Proof.
  split; [reflexivity|]. split; [apply PlannerFacts.sortTargets_perm|].
  destruct (PlannerFacts.collectTargets_types terrain) as [Htypes Hlocs].
  split; [exact Htypes|]. split; [apply PlannerFacts.terrainTypes_NoDup|].
  split; [apply PlannerFacts.terrainTypes_spec|].
  split; [apply PlannerFacts.sortTargets_sorted|]. split; [|split].
  - rewrite PlannerFacts.sortTargets_perm.
    eapply Forall_impl; [exact Hlocs|]. intros t [Hloc Hne].
    split; [exact Hloc|]. split.
    + now apply PlannerFacts.nearestDistance_attained.
    + apply Forall_forall. intros loc Hin.
      now apply PlannerFacts.nearestDistance_least.
  - intros k. unfold PathfindingService.generateMissionPlan.
    destruct (PlanLegs.planLoop_legs terrain k
                (PathfindingService.sortTargets start
                   (PathfindingService.collectTargets terrain)) start b0 [])
      as (plan & legs & tail & Hplan & Hcmds & Hpre & Hled & HS & HE & Hok & Hfail).
    exists plan, legs, tail. split; [exact Hplan|]. split; [exact Hcmds|].
    split; [exact Hpre|]. split; [exact Hled|]. split; [exact HS|].
    split; [exact HE|]. split; [split|].
    + intros Hs. now destruct (Hok Hs).
    + intros Heq. destruct (PathfindingService.success plan) eqn:Hs; [reflexivity|].
      exfalso. now apply (Hfail eq_refl).
    + intros Hs. now destruct (Hok Hs).
  - split; [|split]; vm_compute; reflexivity.
Qed.

(** ** Walks that waste nothing

    A command sequence from the start is tight when its length plus the
    Manhattan distance that is left does not exceed the distance from
    the start by more than one: it holds at most one turn and every
    move brings the robot nearer to the target. *)

Module TightWalks.
Import PathfindingService.

Definition turns (w : list Command) : Z := Z.of_nat (StraightLine.countTurns w).

Lemma turns_snoc w c :
  turns (w ++ [c]) = turns w + (if decide (c = L \/ c = R) then 1 else 0).
Proof.
  unfold turns, StraightLine.countTurns. rewrite filter_app, length_app.
  rewrite filter_cons, filter_nil. destruct (decide (c = L \/ c = R)); simpl; lia.
Qed.

(** Sequences of turns and moves. *)
Definition plain (w : list Command) : Prop := (S ∉ w) /\ (E ∉ w).

Lemma plain_snoc w c : plain (w ++ [c]) <-> plain w /\ c <> S /\ c <> E.
Proof.
  unfold plain. rewrite !elem_of_app, !list_elem_of_singleton. split.
  - intros [H1 H2]. repeat split; auto; intros ->; auto.
  - intros ([H1 H2] & H3 & H4). split; intros [?|?]; auto.
Qed.

Lemma legalPath_plain terrain w p : GridSearch.legalPath terrain p w = true -> plain w.
Proof. apply PlanLegs.legal_plain. Qed.

Section Geometry.
Variable start : Position.
Variables tx ty : Z.

(** The distance covered from the start. *)
Definition covered (p : Position) : Z :=
  Z.abs (px p - px start) + Z.abs (py p - py start).

(** Facing along the line the robot faced at the start. *)
Definition parallel (o : Orientation) : bool :=
  match facing start, o with
  | (East | West), (East | West) => true
  | (North | South), (North | South) => true
  | _, _ => false
  end.

(** On the line the robot faced along at the start. *)
Definition onLine (p : Position) : Prop :=
  match facing start with
  | East | West => py p = py start
  | North | South => px p = px start
  end.

Definition tight (w : list Command) : Prop :=
  plain w
  /\ Z.of_nat (length w) + heuristic (OpenGrid.walk start w) tx ty
     <= heuristic start tx ty + 1.

Record shape (w : list Command) : Prop := mkShape {
  sh_turns : 0 <= turns w <= 1;
  sh_box : covered (OpenGrid.walk start w) + heuristic (OpenGrid.walk start w) tx ty
           = heuristic start tx ty;
  sh_length : Z.of_nat (length w) = covered (OpenGrid.walk start w) + turns w;
  sh_straight : turns w = 0 ->
    facing (OpenGrid.walk start w) = facing start /\ onLine (OpenGrid.walk start w);
  sh_turned : turns w = 1 -> parallel (facing (OpenGrid.walk start w)) = false
}.

Lemma tight_prefix w c : tight (w ++ [c]) -> tight w.
Proof.
  intros [Hp Ht]. apply plain_snoc in Hp as (Hp & _ & _). split; [exact Hp|].
  rewrite length_app, OpenGrid.walk_snoc in Ht. cbn [length] in Ht.
  pose proof (OpenGrid.heuristic_step (OpenGrid.walk start w) c tx ty). lia.
Qed.

Lemma move_cases p c :
  c = F \/ c = B ->
  facing (OpenGrid.step p c) = facing p
  /\ (((facing p = East \/ facing p = West)
       /\ py (OpenGrid.step p c) = py p
       /\ (px (OpenGrid.step p c) = px p + 1 \/ px (OpenGrid.step p c) = px p - 1))
      \/ ((facing p = North \/ facing p = South)
          /\ px (OpenGrid.step p c) = px p
          /\ (py (OpenGrid.step p c) = py p + 1 \/ py (OpenGrid.step p c) = py p - 1))).
Proof.
  intros [->| ->]; unfold OpenGrid.step, getNextPosition;
    destruct (facing p) eqn:Ho; simpl; rewrite ?Ho;
    (split; [reflexivity|]); first [left; split; [auto|split; [reflexivity|lia]]
                                   |right; split; [auto|split; [reflexivity|lia]]].
Qed.

Lemma turn_cases p c :
  c = L \/ c = R ->
  px (OpenGrid.step p c) = px p /\ py (OpenGrid.step p c) = py p
  /\ parallel (facing (OpenGrid.step p c)) = negb (parallel (facing p)).
Proof.
  intros [->| ->]; unfold OpenGrid.step, getNewFacing, parallel; simpl;
    (split; [reflexivity|split; [reflexivity|]]);
    destruct (facing start), (facing p); reflexivity.
Qed.

Lemma parallel_start : parallel (facing start) = true.
Proof. unfold parallel. destruct (facing start); reflexivity. Qed.

Lemma command_kind c : c <> S -> c <> E -> (c = F \/ c = B) \/ (c = L \/ c = R).
Proof. destruct c; intros; auto; contradiction. Qed.

Lemma tight_shape w : tight w -> shape w.
Proof.
  induction w as [|c w IH] using rev_ind; intros Ht.
  - constructor; unfold turns, StraightLine.countTurns, OpenGrid.walk, covered;
      rewrite ?filter_nil; simpl; try lia.
    intros _. split; [reflexivity|]. unfold onLine. destruct (facing start); reflexivity.
  - specialize (IH (tight_prefix _ _ Ht)).
    destruct Ht as [Hp Ht]. apply plain_snoc in Hp as (_ & HcS & HcE).
    destruct IH as [Hturns Hbox Hlen Hstraight Hturned].
    rewrite length_app, OpenGrid.walk_snoc in Ht. cbn [length] in Ht.
    remember (OpenGrid.walk start w) as p eqn:Hp.
    destruct (command_kind c HcS HcE) as [Hmove|Hturn].
    + assert (turns (w ++ [c]) = turns w) as Hsame.
      { rewrite turns_snoc. destruct (decide (c = L \/ c = R)) as [[->| ->]|]; [| |lia];
          destruct Hmove; discriminate. }
      destruct (move_cases p c Hmove) as [Hf Hcase].
      assert (covered (OpenGrid.step p c) + heuristic (OpenGrid.step p c) tx ty
              = heuristic start tx ty
              /\ covered (OpenGrid.step p c) = covered p + 1) as [Hbox' Hcov].
      { unfold covered, heuristic, manhattanDistance in *.
        destruct Hcase as [(_ & Hy & [Hx|Hx])|(_ & Hx & [Hy|Hy])];
          rewrite Hx, Hy in Ht; rewrite Hx, Hy; lia. }
      constructor; rewrite ?OpenGrid.walk_snoc, ?Hsame, ?length_app; cbn [length];
        rewrite <- ?Hp; try lia.
      * intros Hz. destruct (Hstraight Hz) as [Hfs Hline]. rewrite Hf. split; [exact Hfs|].
        unfold onLine in *. rewrite Hfs in Hcase.
        destruct (facing start); destruct Hcase as [([?|?] & Hy & _)|([?|?] & Hx & _)];
          try discriminate; congruence.
      * intros Hz. rewrite Hf. now apply Hturned.
    + assert (turns (w ++ [c]) = turns w + 1) as Hmore.
      { rewrite turns_snoc. destruct (decide (c = L \/ c = R)); [lia|contradiction]. }
      destruct (turn_cases p c Hturn) as (Hx & Hy & Hpar).
      assert (heuristic (OpenGrid.step p c) tx ty = heuristic p tx ty
              /\ covered (OpenGrid.step p c) = covered p) as [Hh Hcov].
      { unfold covered, heuristic, manhattanDistance. rewrite Hx, Hy. lia. }
      assert (turns w = 0) as Hz by lia.
      destruct (Hstraight Hz) as [Hfs Hline].
      constructor; rewrite ?OpenGrid.walk_snoc, ?Hmore, ?length_app; cbn [length];
        rewrite <- ?Hp; try lia.
      intros _. rewrite Hpar, Hfs, parallel_start. reflexivity.
Qed.

Lemma shape_cases (t : Z) (p : Position) :
  0 <= t <= 1 ->
  (t = 0 -> facing p = facing start /\ onLine p) ->
  (t = 1 -> parallel (facing p) = false) ->
  (t = 0 /\ facing p = facing start /\ onLine p)
  \/ (t = 1 /\ parallel (facing p) = false).
Proof.
  intros Ht H0 H1. destruct (decide (t = 0)) as [Hz|Hz]; [left|right].
  - split; [exact Hz|]. now apply H0.
  - assert (t = 1) as Ho by lia. split; [exact Ho|]. now apply H1.
Qed.

Lemma turns_snoc_move w c : c = F \/ c = B -> turns (w ++ [c]) = turns w.
Proof.
  intros Hc. rewrite turns_snoc.
  destruct (decide (c = L \/ c = R)) as [[->| ->]|]; [| |lia];
    destruct Hc; discriminate.
Qed.

Lemma turns_snoc_turn w c : c = L \/ c = R -> turns (w ++ [c]) = turns w + 1.
Proof.
  intros Hc. rewrite turns_snoc.
  destruct (decide (c = L \/ c = R)); [lia|contradiction].
Qed.

(** An edge out of the end of a tight walk that leads to a pose some
    tight walk reaches, and that costs more than a tight walk may, leads
    back to where the walk was one command earlier. *)
Lemma back_edge w c v :
  tight w -> tight v -> c <> S -> c <> E ->
  OpenGrid.walk start v = OpenGrid.step (OpenGrid.walk start w) c ->
  heuristic start tx ty + 1
  < Z.of_nat (length w) + 1
    + heuristic (OpenGrid.step (OpenGrid.walk start w) c) tx ty ->
  exists w0 c0,
    w = w0 ++ [c0]
    /\ OpenGrid.walk start w0 = OpenGrid.step (OpenGrid.walk start w) c.
Proof.
  intros Hw Hv HcS HcE Hend Hover.
  pose proof (tight_shape _ Hv) as [Hvt Hvbox _ Hvs Hvd]. rewrite Hend in *.
  clear Hend Hv.
  destruct w as [|c0 w0 _] using rev_ind.
  - exfalso. unfold OpenGrid.walk in *. simpl in *.
    destruct (command_kind c HcS HcE) as [Hmove|Hturn].
    + pose proof (OpenGrid.heuristic_step start c tx ty).
      unfold covered in Hvbox. lia.
    + destruct (turn_cases start c Hturn) as (Hx & Hy & _).
      unfold heuristic, manhattanDistance in Hover. rewrite Hx, Hy in Hover. lia.
  - exists w0, c0. split; [reflexivity|].
    pose proof (tight_shape _ (tight_prefix _ _ Hw)) as [H0t H0box H0len H0s H0d].
    pose proof (tight_shape _ Hw) as [H1t H1box H1len H1s H1d].
    destruct Hw as [Hplain _]. apply plain_snoc in Hplain as (_ & Hc0S & Hc0E).
    rewrite length_app, OpenGrid.walk_snoc in *. cbn [length] in *.
    remember (OpenGrid.walk start w0) as p0 eqn:Hp0. clear Hp0.
    remember (turns v) as tv eqn:Htv. clear Htv.
    destruct (command_kind c0 Hc0S Hc0E) as [Hc0|Hc0];
      [rewrite (turns_snoc_move _ _ Hc0) in *|rewrite (turns_snoc_turn _ _ Hc0) in *];
      remember (turns w0) as t0 eqn:Ht0; clear Ht0.
    all: destruct (shape_cases _ _ H0t H0s H0d) as [(Ht0 & Hf0 & Hl0)|(Ht0 & Hd0)];
      destruct (shape_cases _ _ H1t H1s H1d) as [(Ht1 & Hf1 & Hl1)|(Ht1 & Hd1)];
      try lia;
      destruct (shape_cases _ _ Hvt Hvs Hvd) as [(Ht2 & Hf2 & Hl2)|(Ht2 & Hd2)];
      subst t0 tv; clear H0t H0s H0d H1t H1s H1d Hvt Hvs Hvd;
      destruct p0 as [x y o];
      destruct Hc0 as [->| ->]; destruct c; try contradiction;
      unfold covered, heuristic, manhattanDistance, onLine, parallel,
        OpenGrid.step, getNextPosition, getNewFacing in *;
      destruct (facing start) eqn:Hfs; destruct o; simpl in *;
      try discriminate; try lia; first [exfalso; lia|f_equal; lia].
Qed.

End Geometry.
End TightWalks.
(** ** The length of the answer when a tight walk leads to the target *)

Module TightSearch.
Import PathfindingService.

Section Tidy.
Variable terrain : Terrain.
Variable start : Position.
Variables tx ty : Z.
Variable b0 : Z.

Hypothesis battery_level : -2 < b0.

Lemma tight_app u u' : TightWalks.tight start tx ty (u ++ u') -> TightWalks.tight start tx ty u.
Proof.
  induction u' as [|c u' IH] using rev_ind.
  - now rewrite app_nil_r.
  - rewrite app_assoc. intros H. apply IH. eapply TightWalks.tight_prefix. exact H.
Qed.

(** What the loop keeps true of its queue and maps beyond [sound]: the
    queue is sorted by the stored priorities; a stored priority is not
    below the present g-score plus the distance left; the closed poses
    were reached by tight walks; the sequence recorded for a pose
    extends the sequence of a closed pose; and a stored priority is the
    one that the closed pose which first saw the pose gave it. *)
Record tidy (st : Search) : Prop := mkTidy {
  td_sorted :
    StronglySorted (QueueFacts.before (priorities (openSet st)))
                   (elements (openSet st));
  td_bound : forall k p g,
    priorities (openSet st) !! k = Some p -> gScore st !! k = Some g ->
    g + heuristic k tx ty <= p;
  td_closed : forall k g,
    k ∈ closedSet st -> gScore st !! k = Some g ->
    g + heuristic k tx ty <= heuristic start tx ty + 1;
  td_tree : forall k w c,
    commandSequences st !! k = Some (w ++ [c]) ->
    OpenGrid.walk start w ∈ closedSet st;
  td_first : forall k p,
    priorities (openSet st) !! k = Some p ->
    p <= heuristic start tx ty + 1
    \/ exists k' c w,
         k' ∈ closedSet st /\ commandSequences st !! k' = Some w
         /\ k = OpenGrid.step k' c /\ c <> S /\ c <> E
         /\ p = Z.of_nat (length w) + 1 + heuristic k tx ty
}.

Lemma tidy_initial : tidy (initialSearch start tx ty b0).
Proof.
  unfold initialSearch. constructor; simpl.
  - repeat constructor.
  - intros k p g Hp Hg.
    apply lookup_insert_Some in Hp as [[<- <-]|[_ Hp]]; [|now rewrite lookup_empty in Hp].
    rewrite lookup_singleton_eq in Hg. inversion Hg. lia.
  - intros k g Hk. now apply not_elem_of_empty in Hk.
  - intros k w c Hk. apply lookup_singleton_Some in Hk as [_ Hk].
    now apply app_cons_not_nil in Hk.
  - intros k p Hp. left.
    apply lookup_insert_Some in Hp as [[<- <-]|[_ Hp]]; [lia|now rewrite lookup_empty in Hp].
Qed.

Lemma sound_ordered st : GridSearch.sound terrain start b0 st -> tidy st -> QueueFacts.ordered (openSet st).
Proof.
  intros [Hnd Hprio _ _] Ht. constructor; [exact Hnd|exact Hprio|apply (td_sorted _ Ht)].
Qed.

Lemma legal_kind p c : GridSearch.legal terrain p c = true -> c <> S /\ c <> E.
Proof. destruct c; simpl; intros; try discriminate; split; discriminate. Qed.

Lemma relax_tidy cur st mv :
  GridSearch.sound terrain start b0 st -> tidy st -> cur ∈ closedSet st ->
  mv ∈ getPossibleMoves terrain cur ->
  tidy (relax tx ty cur st mv).
Proof.
  intros Hs Ht Hcur Hmv. destruct mv as [q c].
  assert (GridSearch.recorded terrain start b0 st cur) as Hrec
    by (apply (GridSearch.snd_data _ _ _ _ Hs); now right).
  destruct Hrec as (cmds & Hc & Hb & Hg & Hwalk & Hlegal & Huni).
  rewrite (GridSearch.relax_unfold terrain start tx ty b0 cur st q c cmds);
    [|exists cmds; repeat split; assumption|assumption].
  case_bool_decide as Hclosed; [assumption|].
  destruct (_ <=? 0); [assumption|].
  destruct (match gScore st !! q with
            | Some g => Z.of_nat (length cmds) + 1 <? g
            | None => true
            end) eqn:Hbetter; [|assumption].
  assert (c <> E) as HcE.
  { intros ->. apply SearchFacts.moves_E in Hmv. subst q. contradiction. }
  destruct (GridSearch.legal_move _ _ _ _ Hmv HcE) as [Hq Hlc].
  assert (cur <> q) as Hne by (intros ->; contradiction).
  pose proof (sound_ordered _ Hs Ht) as Hord.
  destruct Ht as [Hsorted Hbound Hclosedt Htree Hfirst].
  destruct (contains (openSet st) q) eqn:Hcont.
  - apply bool_decide_eq_true in Hcont. destruct Hcont as [pq Hpq].
    constructor; cbn [openSet closedSet gScore batteryLevels commandSequences].
    + exact Hsorted.
    + intros k p g Hp Hgk. destruct (decide (k = q)) as [->|Hkq].
      * rewrite lookup_insert_eq in Hgk. inversion Hgk; subst g.
        destruct (gScore st !! q) as [g0|] eqn:Hg0.
        -- apply Z.ltb_lt in Hbetter. specialize (Hbound q p g0 Hp Hg0). lia.
        -- exfalso.
           assert (GridSearch.recorded terrain start b0 st q) as (? & _ & _ & Hgq & _).
           { apply (GridSearch.snd_data _ _ _ _ Hs). left.
             apply (GridSearch.snd_priorities _ _ _ _ Hs). eauto. }
           congruence.
      * rewrite lookup_insert_ne in Hgk by congruence. eauto.
    + intros k g Hk Hgk. rewrite lookup_insert_ne in Hgk by (intros ->; contradiction).
      eauto.
    + intros k w c' Hk. destruct (decide (k = q)) as [->|Hkq].
      * rewrite lookup_insert_eq in Hk. inversion Hk as [Heq].
        apply app_inj_tail in Heq as [<- _]. now rewrite Hwalk.
      * rewrite lookup_insert_ne in Hk by congruence. eauto.
    + intros k p Hp. destruct (Hfirst k p Hp) as [Hle|(k' & c' & w & Hk' & Hw & Hrest)];
        [now left|right].
      exists k', c', w. split; [exact Hk'|]. split; [|exact Hrest].
      rewrite lookup_insert_ne by (intros ->; contradiction). exact Hw.
  - pose proof (QueueFacts.enqueue_ordered _ q
                  (Z.of_nat (length cmds) + 1 + heuristic q tx ty) Hord Hcont)
      as [_ _ Hsorted'].
    constructor; cbn [openSet closedSet gScore batteryLevels commandSequences].
    + exact Hsorted'.
    + intros k p g Hp Hgk. cbn [priorities enqueue] in Hp.
      destruct (decide (k = q)) as [->|Hkq].
      * rewrite lookup_insert_eq in Hp, Hgk. inversion Hp; inversion Hgk. lia.
      * rewrite lookup_insert_ne in Hp, Hgk by congruence. eauto.
    + intros k g Hk Hgk. rewrite lookup_insert_ne in Hgk by (intros ->; contradiction).
      eauto.
    + intros k w c' Hk. destruct (decide (k = q)) as [->|Hkq].
      * rewrite lookup_insert_eq in Hk. inversion Hk as [Heq].
        apply app_inj_tail in Heq as [<- _]. now rewrite Hwalk.
      * rewrite lookup_insert_ne in Hk by congruence. eauto.
    + intros k p Hp. cbn [priorities enqueue] in Hp.
      destruct (decide (k = q)) as [->|Hkq].
      * rewrite lookup_insert_eq in Hp. inversion Hp; subst p. right.
        exists cur, c, cmds. destruct (legal_kind _ _ Hlc) as [HcS _].
        rewrite lookup_insert_ne by congruence. auto 10.
      * rewrite lookup_insert_ne in Hp by congruence.
        destruct (Hfirst k p Hp) as [Hle|(k' & c' & w & Hk' & Hw & Hrest)];
          [now left|right].
        exists k', c', w. split; [exact Hk'|]. split; [|exact Hrest].
        rewrite lookup_insert_ne by (intros ->; contradiction). exact Hw.
Qed.

Lemma foldl_relax_tidy cur moves : forall st,
  GridSearch.sound terrain start b0 st -> tidy st -> cur ∈ closedSet st ->
  moves ⊆ getPossibleMoves terrain cur ->
  tidy (foldl (relax tx ty cur) st moves).
Proof.
  induction moves as [|mv moves IH]; intros st Hs Ht Hcur Hsub; simpl.
  - assumption.
  - apply IH.
    + apply GridSearch.relax_sound; auto. apply Hsub. left.
    + apply relax_tidy; auto. apply Hsub. left.
    + now rewrite SearchFacts.relax_closedSet.
    + intros x Hx. apply Hsub. now right.
Qed.

(** The first pose of a legal walk that is not closed waits in the
    queue. *)
Lemma frontier cur st v :
  GridSearch.sound terrain start b0 st -> GridSearch.saturated terrain start tx ty cur [] st ->
  GridSearch.legalPath terrain start v = true ->
  OpenGrid.walk start v ∉ closedSet st ->
  exists u u', v = u ++ u' /\ OpenGrid.walk start u ∈ elements (openSet st).
Proof.
  intros Hs Hsat. induction v as [|c v IH] using rev_ind; intros Hlegal Hopen.
  - exists [], []. split; [reflexivity|].
    destruct (GridSearch.sat_start _ _ _ _ _ _ _ Hsat) as [H|H]; [exact H|contradiction].
  - rewrite GridSearch.legalPath_snoc in Hlegal.
    apply andb_prop in Hlegal as [Hlegal Hc].
    destruct (decide (OpenGrid.walk start v ∈ closedSet st)) as [Hin|Hout].
    + exists (v ++ [c]), []. split; [now rewrite app_nil_r|].
      apply GridSearch.move_legal in Hc. rewrite <- OpenGrid.walk_snoc in Hc.
      destruct (GridSearch.sat_edges _ _ _ _ _ _ _ Hsat _ _ _ Hin Hc)
        as [[_ Hnil]|[H|H]]; [now apply elem_of_nil in Hnil|exact H|contradiction].
    + destruct (IH Hlegal Hout) as (u & u' & -> & Hu).
      exists u, (u' ++ [c]). split; [now rewrite app_assoc|exact Hu].
Qed.

(** While a tight legal walk leads to a pose that is not closed, the
    head of the queue has a priority that a tight walk allows. *)
Lemma head_priority cur st v k rest :
  GridSearch.sound terrain start b0 st -> GridSearch.saturated terrain start tx ty cur [] st -> tidy st ->
  GridSearch.legalPath terrain start v = true -> TightWalks.tight start tx ty v ->
  OpenGrid.walk start v ∉ closedSet st ->
  elements (openSet st) = k :: rest ->
  exists p, priorities (openSet st) !! k = Some p
            /\ p <= heuristic start tx ty + 1.
Proof.
  intros Hs Hsat Ht Hlegal Htight Hopen Hq.
  destruct (frontier cur st v Hs Hsat Hlegal Hopen) as (u & u' & -> & Hu).
  apply tight_app in Htight.
  set (n := OpenGrid.walk start u) in *.
  destruct (proj1 (GridSearch.snd_priorities _ _ _ _ Hs n) Hu) as [pn Hpn].
  assert (pn <= heuristic start tx ty + 1) as Hle.
  { destruct (td_first _ Ht n pn Hpn) as [Hle|(k' & c & w & Hk' & Hw & Hn & HcS & HcE & Hp)];
      [exact Hle|].
    destruct (Z.le_gt_cases pn (heuristic start tx ty + 1)) as [Hle|Hgt]; [exact Hle|].
    exfalso.
    destruct (GridSearch.snd_data _ _ _ _ Hs k') as (cmds & Hc & _ & Hg & Hwalk & Hl & _);
      [now right|].
    assert (cmds = w) as -> by congruence.
    pose proof (td_closed _ Ht k' _ Hk' Hg) as Hbound.
    assert (TightWalks.tight start tx ty w) as Hw'.
    { split; [eapply TightWalks.legalPath_plain; exact Hl|]. rewrite Hwalk. exact Hbound. }
    destruct (TightWalks.back_edge start tx ty w c u Hw' Htight HcS HcE)
      as (w0 & c0 & -> & Hback).
    - rewrite Hwalk. exact Hn.
    - rewrite Hwalk, <- Hn. lia.
    - apply (td_tree _ Ht) in Hw. rewrite Hback, Hwalk, <- Hn in Hw.
      now apply (GridSearch.snd_open _ _ _ _ Hs n). }
  assert (k ∈ elements (openSet st)) as Hk by (rewrite Hq; left).
  destruct (proj1 (GridSearch.snd_priorities _ _ _ _ Hs k) Hk) as [pk Hpk].
  exists pk. split; [exact Hpk|].
  pose proof (td_sorted _ Ht) as Hsorted. rewrite Hq in Hsorted, Hu.
  apply StronglySorted_cons in Hsorted as [Hmin _].
  apply elem_of_cons in Hu as [Heq|Hu].
  - rewrite Heq in Hpn. congruence.
  - rewrite Forall_forall in Hmin. specialize (Hmin n Hu).
    unfold QueueFacts.before, priorityOf in Hmin. rewrite Hpk, Hpn in Hmin.
    simpl in Hmin. lia.
Qed.

Lemma closeHead_tidy st k rest p :
  GridSearch.sound terrain start b0 st -> tidy st ->
  elements (openSet st) = k :: rest ->
  priorities (openSet st) !! k = Some p ->
  p <= heuristic start tx ty + 1 ->
  tidy (GridSearch.closeHead st k rest).
Proof.
  intros Hs Ht Hq Hp Hle.
  pose proof (sound_ordered _ Hs Ht) as Hord.
  destruct (QueueFacts.dequeue_ordered (openSet st) k
              (mkQueue rest (delete k (priorities (openSet st)))) Hord)
    as ([_ _ Hsorted'] & _).
  { unfold dequeue. now rewrite Hq. }
  destruct Ht as [Hsorted Hbound Hclosed Htree Hfirst].
  constructor; unfold GridSearch.closeHead;
    cbn [openSet closedSet gScore batteryLevels commandSequences priorities elements].
  - exact Hsorted'.
  - intros x px' g Hx. apply lookup_delete_Some in Hx as [_ Hx]. eauto.
  - intros x g Hx Hg. apply elem_of_union in Hx as [Hx|Hx]; [|eauto].
    apply elem_of_singleton in Hx. subst x.
    specialize (Hbound k p g Hp Hg). lia.
  - intros x w c Hx. apply elem_of_union. right. eauto.
  - intros x px' Hx. apply lookup_delete_Some in Hx as [_ Hx].
    destruct (Hfirst x px' Hx) as [?|(k' & c' & w & Hk' & Hrest)]; [now left|right].
    exists k', c', w. split; [|exact Hrest]. apply elem_of_union. now right.
Qed.

(** A successful answer is no longer than a tight walk to the target. *)
Lemma search_tight v fuel : forall cur st path,
  GridSearch.legalPath terrain start v = true -> TightWalks.tight start tx ty v ->
  GridSearch.goal tx ty (OpenGrid.walk start v) ->
  GridSearch.sound terrain start b0 st -> GridSearch.saturated terrain start tx ty cur [] st -> tidy st ->
  search fuel terrain tx ty b0 st = Some path ->
  success path = true ->
  Z.of_nat (length (commands path)) <= heuristic start tx ty + 1.
Proof.
  induction fuel as [|fuel IH]; intros cur st path Hlegal Htight Hgoal Hs Hsat Ht Hrun Hok;
    [discriminate|].
  destruct (elements (openSet st)) as [|k rest] eqn:Hq.
  - rewrite GridSearch.search_empty in Hrun by assumption.
    inversion Hrun; subst path. discriminate.
  - assert (OpenGrid.walk start v ∉ closedSet st) as Hopen.
    { intros Hin. now apply (GridSearch.sat_goal _ _ _ _ _ _ _ Hsat _ Hin). }
    destruct (head_priority cur st v k rest Hs Hsat Ht Hlegal Htight Hopen Hq)
      as (p & Hp & Hle).
    rewrite (GridSearch.search_step _ _ _ _ _ _ _ _ Hq) in Hrun.
    destruct (bool_decide (px k = tx) && bool_decide (py k = ty)) eqn:Hhead.
    + inversion Hrun; subst path. simpl.
      destruct (GridSearch.snd_data _ _ _ _ Hs k) as (cmds & Hc & _ & Hg & _).
      { left. rewrite Hq. left. }
      rewrite Hc. simpl.
      pose proof (td_bound _ Ht k p _ Hp Hg) as Hb.
      assert (0 <= heuristic k tx ty) by (unfold heuristic, manhattanDistance; lia).
      lia.
    + assert (~ GridSearch.goal tx ty k) as Hng.
      { intros [Hx Hy]. apply andb_false_iff in Hhead as [H|H];
          apply bool_decide_eq_false in H; contradiction. }
      eapply (IH k); [exact Hlegal|exact Htight|exact Hgoal| | | |exact Hrun|exact Hok].
      * now apply GridSearch.expand_sound.
      * apply (GridSearch.foldl_relax_saturated terrain start tx ty b0 battery_level);
          [| | |reflexivity].
        -- now apply GridSearch.closeHead_sound.
        -- eapply GridSearch.closeHead_saturated; eauto.
        -- simpl. apply elem_of_union. left. now apply elem_of_singleton.
      * apply foldl_relax_tidy; [| | |reflexivity].
        -- now apply GridSearch.closeHead_sound.
        -- now apply (closeHead_tidy st k rest p).
        -- simpl. apply elem_of_union. left. now apply elem_of_singleton.
Qed.

End Tidy.

Lemma findPath_tight terrain start tx ty b0 fuel v path :
  -2 < b0 ->
  GridSearch.legalPath terrain start v = true ->
  GridSearch.goal tx ty (OpenGrid.walk start v) ->
  Z.of_nat (length v) <= heuristic start tx ty + 1 ->
  findPath fuel terrain start tx ty b0 = Some path ->
  success path = true ->
  Z.of_nat (length (commands path)) <= heuristic start tx ty + 1.
Proof.
  intros Hb Hlegal Hgoal Hlen Hrun Hok.
  apply (search_tight terrain start tx ty b0 Hb v fuel start
           (initialSearch start tx ty b0) path); auto.
  - split; [eapply TightWalks.legalPath_plain; exact Hlegal|].
    destruct Hgoal as [Hx Hy]. unfold heuristic at 1, manhattanDistance.
    rewrite Hx, Hy. lia.
  - apply GridSearch.sound_initial.
  - now apply GridSearch.saturated_initial.
  - apply tidy_initial.
Qed.

End TightSearch.
(** ** A walk with one turn on an obstacle-free grid *)

Module CornerWalk.
Import PathfindingService.

Lemma walk_app p u w :
  OpenGrid.walk p (u ++ w) = OpenGrid.walk (OpenGrid.walk p u) w.
Proof. unfold OpenGrid.walk. apply foldl_app. Qed.

Lemma legalPath_app terrain u : forall p w,
  GridSearch.legalPath terrain p (u ++ w)
  = GridSearch.legalPath terrain p u
    && GridSearch.legalPath terrain (OpenGrid.walk p u) w.
Proof.
  induction u as [|c u IH]; intros p w; [reflexivity|].
  cbn [app GridSearch.legalPath]. rewrite IH, andb_assoc. reflexivity.
Qed.

(** Where [n] moves of one kind lead. *)
Lemma walk_line c (n : nat) :
  c = F \/ c = B -> forall p,
  OpenGrid.walk p (replicate n c)
  = mkPosition (px p + Z.of_nat n * (StraightLine.heading (facing p) c).1)
               (py p + Z.of_nat n * (StraightLine.heading (facing p) c).2)
               (facing p).
Proof.
  intros Hc. induction n as [|n IH]; intros p.
  - destruct p; simpl. f_equal; lia.
  - rewrite <- StraightLine.replicate_snoc, OpenGrid.walk_snoc, IH.
    destruct Hc as [->| ->]; unfold OpenGrid.step, getNextPosition;
      destruct (facing p); simpl; f_equal; lia.
Qed.

(** No command of a legal walk costs more than a move. *)
Lemma cost_le terrain cmds : forall p,
  GridSearch.legalPath terrain p cmds = true ->
  GridSearch.cost cmds <= 3 * Z.of_nat (length cmds).
Proof.
  unfold GridSearch.cost.
  induction cmds as [|c cmds IH]; intros p H; [simpl; lia|].
  cbn [GridSearch.legalPath] in H. apply andb_prop in H as [Hc H].
  apply IH in H. rewrite fmap_cons. cbn [foldr length].
  destruct c; simpl in Hc; try discriminate; simpl commandCosts; lia.
Qed.

Section Open.
Variable terrain : Terrain.
Hypothesis no_obstacle : forall x y, cellAt terrain x y <> Some "Obs"%string.

Lemma legal_line c (n : nat) :
  c = F \/ c = B -> forall p,
  OpenGrid.inBounds terrain (px p) (py p) ->
  OpenGrid.inBounds terrain
    (px p + Z.of_nat n * (StraightLine.heading (facing p) c).1)
    (py p + Z.of_nat n * (StraightLine.heading (facing p) c).2) ->
  GridSearch.legalPath terrain p (replicate n c) = true.
Proof.
  intros Hc. induction n as [|n IH]; intros p Hp Hend; [reflexivity|].
  rewrite <- StraightLine.replicate_snoc, GridSearch.legalPath_snoc.
  assert (OpenGrid.inBounds terrain
            (px p + Z.of_nat n * (StraightLine.heading (facing p) c).1)
            (py p + Z.of_nat n * (StraightLine.heading (facing p) c).2)) as Hmid.
  { unfold OpenGrid.inBounds in *.
    destruct Hc as [->| ->]; destruct (facing p); simpl in *; lia. }
  rewrite IH by assumption. rewrite walk_line by assumption.
  assert (GridSearch.legal terrain
            (mkPosition (px p + Z.of_nat n * (StraightLine.heading (facing p) c).1)
                        (py p + Z.of_nat n * (StraightLine.heading (facing p) c).2)
                        (facing p)) c
          = negb (isObstacle terrain
                    (px p + Z.of_nat (Datatypes.S n) * (StraightLine.heading (facing p) c).1)
                    (py p + Z.of_nat (Datatypes.S n) * (StraightLine.heading (facing p) c).2)))
    as ->.
  { destruct Hc as [->| ->]; unfold GridSearch.legal, OpenGrid.step, getNextPosition;
      destruct (facing p); simpl; do 2 f_equal; lia. }
  apply (OpenGrid.free_iff terrain no_obstacle) in Hend. now rewrite Hend.
Qed.

(** Along the line the robot faces, one turn, then across: a legal walk
    to the target cell of at most the Manhattan distance plus one
    commands. *)
Lemma corner_walk start tx ty :
  OpenGrid.inBounds terrain (px start) (py start) ->
  OpenGrid.inBounds terrain tx ty ->
  exists v,
    GridSearch.legalPath terrain start v = true
    /\ GridSearch.goal tx ty (OpenGrid.walk start v)
    /\ Z.of_nat (length v) <= heuristic start tx ty + 1.
Proof.
  intros Hstart Htarget. destruct start as [x0 y0 o]. simpl in Hstart.
  assert (exists c1 (a : nat) c2 (b : nat),
            (c1 = F \/ c1 = B) /\ (c2 = F \/ c2 = B)
            /\ x0 + Z.of_nat a * (StraightLine.heading o c1).1
               + Z.of_nat b * (StraightLine.heading (getNewFacing o L) c2).1 = tx
            /\ y0 + Z.of_nat a * (StraightLine.heading o c1).2
               + Z.of_nat b * (StraightLine.heading (getNewFacing o L) c2).2 = ty
            /\ OpenGrid.inBounds terrain
                 (x0 + Z.of_nat a * (StraightLine.heading o c1).1)
                 (y0 + Z.of_nat a * (StraightLine.heading o c1).2)
            /\ Z.of_nat a + Z.of_nat b = Z.abs (x0 - tx) + Z.abs (y0 - ty))
    as (c1 & a & c2 & b & Hc1 & Hc2 & Hx & Hy & Hcorner & Hlen).
  { unfold OpenGrid.inBounds in *.
    destruct o; simpl.
    - destruct (Z.le_gt_cases ty y0), (Z.le_gt_cases tx x0).
      + exists F, (Z.to_nat (y0 - ty)), F, (Z.to_nat (x0 - tx)). simpl. repeat split; auto; lia.
      + exists F, (Z.to_nat (y0 - ty)), B, (Z.to_nat (tx - x0)). simpl. repeat split; auto; lia.
      + exists B, (Z.to_nat (ty - y0)), F, (Z.to_nat (x0 - tx)). simpl. repeat split; auto; lia.
      + exists B, (Z.to_nat (ty - y0)), B, (Z.to_nat (tx - x0)). simpl. repeat split; auto; lia.
    - destruct (Z.le_gt_cases x0 tx), (Z.le_gt_cases ty y0).
      + exists F, (Z.to_nat (tx - x0)), F, (Z.to_nat (y0 - ty)). simpl. repeat split; auto; lia.
      + exists F, (Z.to_nat (tx - x0)), B, (Z.to_nat (ty - y0)). simpl. repeat split; auto; lia.
      + exists B, (Z.to_nat (x0 - tx)), F, (Z.to_nat (y0 - ty)). simpl. repeat split; auto; lia.
      + exists B, (Z.to_nat (x0 - tx)), B, (Z.to_nat (ty - y0)). simpl. repeat split; auto; lia.
    - destruct (Z.le_gt_cases y0 ty), (Z.le_gt_cases x0 tx).
      + exists F, (Z.to_nat (ty - y0)), F, (Z.to_nat (tx - x0)). simpl. repeat split; auto; lia.
      + exists F, (Z.to_nat (ty - y0)), B, (Z.to_nat (x0 - tx)). simpl. repeat split; auto; lia.
      + exists B, (Z.to_nat (y0 - ty)), F, (Z.to_nat (tx - x0)). simpl. repeat split; auto; lia.
      + exists B, (Z.to_nat (y0 - ty)), B, (Z.to_nat (x0 - tx)). simpl. repeat split; auto; lia.
    - destruct (Z.le_gt_cases tx x0), (Z.le_gt_cases y0 ty).
      + exists F, (Z.to_nat (x0 - tx)), F, (Z.to_nat (ty - y0)). simpl. repeat split; auto; lia.
      + exists F, (Z.to_nat (x0 - tx)), B, (Z.to_nat (y0 - ty)). simpl. repeat split; auto; lia.
      + exists B, (Z.to_nat (tx - x0)), F, (Z.to_nat (ty - y0)). simpl. repeat split; auto; lia.
      + exists B, (Z.to_nat (tx - x0)), B, (Z.to_nat (y0 - ty)). simpl. repeat split; auto; lia. }
  exists ((replicate a c1 ++ [L]) ++ replicate b c2).
  rewrite legalPath_app, GridSearch.legalPath_snoc.
  rewrite (walk_app _ (replicate a c1 ++ [L])), !OpenGrid.walk_snoc.
  rewrite !walk_line by assumption. cbn [px py facing OpenGrid.step].
  split; [|split].
  - rewrite legal_line by (auto; simpl; assumption).
    cbn [GridSearch.legal andb].
    apply legal_line; [assumption|exact Hcorner|]. cbn [px py facing].
    rewrite Hx, Hy. exact Htarget.
  - unfold GridSearch.goal. cbn [px py]. auto.
  - rewrite !length_app, length_replicate, length_replicate. cbn [length].
    unfold heuristic, manhattanDistance. cbn [px py]. lia.
Qed.

End Open.
End CornerWalk.
(** ** The pathfinder on an obstacle-free grid *)

(** C7, amended.  On an obstacle-free grid, from any start pose on the
    grid to any target cell on the grid, with an ample battery,
    [findPath] returns success=true with a command sequence that leads
    from the start to the target.  The length of the sequence equals the
    Manhattan distance between them when the target lies on the line
    along which the robot faces (its row when facing East or West, its
    column when facing North or South), and the Manhattan distance plus
    one otherwise, the one turn being a command as well.  Ample means
    three units, the price of a move, for each of the Manhattan distance
    plus one commands: a robot put on the start pose with that battery
    runs the whole sequence and ends on the target cell. *)
Theorem findPath_open_grid fuel terrain start tx ty b0 :
  (forall x y, cellAt terrain x y <> Some "Obs"%string) ->
  OpenGrid.inBounds terrain (px start) (py start) ->
  OpenGrid.inBounds terrain tx ty ->
  3 * (PathfindingService.manhattanDistance (px start) (py start) tx ty + 1) <= b0 ->
  (GridSearch.searchBound terrain <= fuel)%nat ->
  exists path,
    PathfindingService.findPath fuel terrain start tx ty b0 = Some path
    /\ PathfindingService.success path = true
    /\ px (OpenGrid.walk start (PathfindingService.commands path)) = tx
    /\ py (OpenGrid.walk start (PathfindingService.commands path)) = ty
    /\ (StraightLine.onAxis start tx ty ->
        Z.of_nat (length (PathfindingService.commands path))
        = PathfindingService.manhattanDistance (px start) (py start) tx ty)
    /\ (~ StraightLine.onAxis start tx ty ->
        Z.of_nat (length (PathfindingService.commands path))
        = PathfindingService.manhattanDistance (px start) (py start) tx ty + 1)
    /\ exists r,
         Robot.runCommands callDepth (PathfindingService.commands path)
           (Robot.new terrain b0 start) = Some r
         /\ px (Robot.position r) = tx /\ py (Robot.position r) = ty.
Proof.
  intros Hfree Hstart Htarget Hample Hfuel.
  assert (0 < b0) as Hb by (unfold PathfindingService.manhattanDistance in Hample; lia).
  destruct (GridSearch.findPath_sound terrain start tx ty b0
              (fuel - GridSearch.searchBound terrain))
    as (path & Hpath & _ & Hsound & _).
  replace (GridSearch.searchBound terrain + (fuel - GridSearch.searchBound terrain))%nat
    with fuel in Hpath by lia.
  destruct (OpenGrid.findPath_complete fuel terrain start tx ty b0)
    as (path' & Hpath' & Hok & Hx & Hy); auto.
  { unfold GridSearch.searchBound in Hfuel. lia. }
  rewrite Hpath in Hpath'. inversion Hpath'; subst path'. clear Hpath'.
  destruct (Hsound Hok) as [_ Hlegal].
  destruct (CornerWalk.corner_walk terrain Hfree start tx ty Hstart Htarget)
    as (v & Hv & Hgoal & Hlen).
  assert (Z.of_nat (length (PathfindingService.commands path))
          <= PathfindingService.manhattanDistance (px start) (py start) tx ty + 1)
    as Hupper.
  { apply (TightSearch.findPath_tight terrain start tx ty b0 fuel v path);
      auto; lia. }
  exists path. split; [exact Hpath|]. split; [exact Hok|].
  split; [exact Hx|]. split; [exact Hy|]. split; [|split].
  - intros Haxis.
    destruct (StraightLine.findPath_straight fuel terrain start tx ty b0)
      as (cmds & b & Hline & Hcount); auto.
    + unfold StraightLine.onAxis, PathfindingService.manhattanDistance,
        OpenGrid.inBounds, GridSearch.searchBound, rows, cols in *.
      destruct (facing start); nia.
    + rewrite Hpath in Hline. inversion Hline; subst. exact Hcount.
  - intros Hoff.
    pose proof (StraightLine.off_axis_needs_turn _ _ _ _ Hx Hy Hoff). lia.
  - pose proof (CornerWalk.cost_le _ _ _ Hlegal) as Hcost.
    destruct (Replay.runCommands_legal 15 (PathfindingService.commands path)
                (Robot.new terrain b0 start)) as (r & Hrun & Hpos & _).
    + exact Hlegal.
    + simpl. lia.
    + exists r. split; [exact Hrun|]. rewrite Hpos. simpl. auto.
Qed.

Lemma findPath_open_grid_witness :
  exists path,
    PathfindingService.findPath 32 square (mkPosition 0 0 East) 1 1 100 = Some path
    /\ Z.of_nat (length (PathfindingService.commands path))
       = PathfindingService.manhattanDistance 0 0 1 1 + 1.
Proof.
  destruct (findPath_open_grid 32 square (mkPosition 0 0 East) 1 1 100 square_open)
    as (path & Hpath & _ & _ & _ & _ & Hoff & _).
  - apply square_inBounds; simpl; lia.
  - apply square_inBounds; lia.
  - vm_compute. discriminate.
  - vm_compute. lia.
  - exists path. split; [exact Hpath|]. apply Hoff. vm_compute. discriminate.
Defined.
(** ** How far the answer of [findPath] is from the Manhattan distance *)

(** X17. On any terrain, obstacles or not: when some sequence of turns
    and moves through free cells leads from the start to the target in
    at most the Manhattan distance plus one commands (a straight run, or
    two runs with one turn between them, that no obstacle blocks), then
    [findPath] succeeds and its answer has at least the Manhattan
    distance and at most the Manhattan distance plus one commands,
    although the queue keeps the priority a pose was first given. *)
Theorem findPath_within_one_of_distance terrain start tx ty b0 k v :
  -2 < b0 ->
  GridSearch.legalPath terrain start v = true ->
  px (OpenGrid.walk start v) = tx -> py (OpenGrid.walk start v) = ty ->
  Z.of_nat (length v)
  <= PathfindingService.manhattanDistance (px start) (py start) tx ty + 1 ->
  exists path,
    PathfindingService.findPath (GridSearch.searchBound terrain + k)
      terrain start tx ty b0 = Some path
    /\ PathfindingService.success path = true
    /\ PathfindingService.manhattanDistance (px start) (py start) tx ty
       <= Z.of_nat (length (PathfindingService.commands path))
       <= PathfindingService.manhattanDistance (px start) (py start) tx ty + 1.
Proof.
  intros Hb Hlegal Hx Hy Hlen.
  destruct (GridSearch.findPath_reaches terrain start tx ty b0 k v Hb Hlegal)
    as (path & Hpath & Hok); [split; assumption|].
  destruct (GridSearch.findPath_sound terrain start tx ty b0 k)
    as (path' & Hpath' & _ & Hsound & _).
  rewrite Hpath in Hpath'. inversion Hpath'; subst path'. clear Hpath'.
  destruct (Hsound Hok) as [[Hpx Hpy] _].
  exists path. split; [exact Hpath|]. split; [exact Hok|]. split.
  - pose proof (OpenGrid.heuristic_walk (PathfindingService.commands path)
                  start tx ty) as Hh.
    unfold PathfindingService.heuristic in Hh. rewrite Hpx, Hpy in Hh.
    unfold PathfindingService.manhattanDistance in *. lia.
  - apply (TightSearch.findPath_tight terrain start tx ty b0
             (GridSearch.searchBound terrain + k) v path); auto.
    split; assumption.
Qed.

Lemma findPath_within_one_of_distance_witness :
  exists path,
    PathfindingService.findPath (GridSearch.searchBound terrainA + 0)
      terrainA (mkPosition 0 0 East) 1 1 50 = Some path
    /\ PathfindingService.success path = true
    /\ 2 <= Z.of_nat (length (PathfindingService.commands path)) <= 3.
Proof.
  refine (findPath_within_one_of_distance terrainA (mkPosition 0 0 East) 1 1 50 0
            [F; L; B] _ _ _ _ _).
  - lia.
  - vm_compute. reflexivity.
  - reflexivity.
  - reflexivity.
  - vm_compute. discriminate.
Defined.
